(** * A capacitated vehicle routing front end: input validation, data model,
      routing-model constraints and solution decoding.

    The development follows [project.py]:
    - [parse_input] turns four text fields into typed values and validates them;
    - [create_data_model] builds the dictionary handed to the routing library;
    - [solve_routing_problem] registers the arc costs and the capacity
      dimension, calls the library's search and reports the outcome;
    - [print_solution] walks every vehicle's chain of the returned assignment
      and builds the textual report.

    Python exceptions are explicit results; the [while] loop of the decoder
    carries a step budget. The routing library works on signed 64-bit
    integers: [OverflowError] is what Python raises when a number handed to
    the library does not fit, [LibraryAbort] stands for the library
    stopping the process on an argument it refuses, and a result of the
    distance callback that does not fit is read as 0. *)

From Stdlib Require Import ZArith List Lia Bool Arith String Ascii Permutation.
From Stdlib Require Import DecimalString.
Import ListNotations.

Local Open Scope string_scope.
Local Open Scope list_scope.

(** String concatenation, kept apart from list append. *)
Infix "^^" := String.append (at level 60, right associativity).

(** ** Outcomes of Python code *)

Inductive exn : Type :=
| ValueError (msg : string)
| AssertionError (msg : string)
| IndexError
| OverflowError
| LibraryAbort.

Inductive result (A : Type) : Type :=
| Ok (a : A)
| Raise (e : exn)
| Diverge.

Arguments Ok {A} a.
Arguments Raise {A} e.
Arguments Diverge {A}.

Definition bind {A B : Type} (r : result A) (k : A -> result B) : result B :=
  match r with
  | Ok a => k a
  | Raise e => Raise e
  | Diverge => Diverge
  end.

Notation "x <- r ;; k" := (bind r (fun x => k))
  (at level 61, r at next level, right associativity).
Notation "r ;;; k" := (bind r (fun _ => k))
  (at level 61, right associativity).

(** [l[i]] for a non-negative index. *)
Definition getitem {A : Type} (l : list A) (i : nat) : result A :=
  match nth_error l i with
  | Some x => Ok x
  | None => Raise IndexError
  end.

(** [for x in l: f(x)] where the body only raises or falls through. *)
Fixpoint for_each {A : Type} (f : A -> result unit) (l : list A) : result unit :=
  match l with
  | [] => Ok tt
  | x :: l' => f x ;;; for_each f l'
  end.

(** [s.split(sep)] for a one-character separator: never empty, an empty
    string gives one empty token. *)
Fixpoint split (sep : ascii) (s : string) : list string :=
  match s with
  | EmptyString => [EmptyString]
  | String c s' =>
      if Ascii.eqb c sep then EmptyString :: split sep s'
      else match split sep s' with
           | [] => [String c EmptyString]
           | t :: ts => String c t :: ts
           end
  end.

(** [str(z)] for an integer. *)
Definition str (z : Z) : string := NilZero.string_of_int (Z.to_int z).

Definition nl : string := String (ascii_of_nat 10) EmptyString.

(** ** parse_input *)

Definition msg_demands : string :=
  "The length of customer demands must be equal to the number of customers.".
Definition msg_square : string :=
  "The edges matrix must be a square matrix of size (num_customers + 1) x (num_customers + 1).".
Definition msg_symmetric : string :=
  "The edges matrix must be symmetric.".
Definition msg_diagonal : string :=
  "The diagonal elements of the edges matrix must be zero.".
Definition msg_off_diagonal : string :=
  "The non-diagonal elements of the edges matrix must be non-zero.".

Definition raw_input : Type := (string * string * string * string)%type.
Definition parsed_input : Type := (Z * Z * list Z * list (list Z))%type.

Section ParseInput.

(** The builtin [int] on a string: the integer it denotes, or [None] when it
    raises; [int_message s] is the text of the [ValueError] it raises on [s]. *)
Variable int : string -> option Z.
Variable int_message : string -> string.

Definition py_int (s : string) : result Z :=
  match int s with
  | Some z => Ok z
  | None => Raise (ValueError (int_message s))
  end.

(** [list(map(int, tokens))] *)
Fixpoint map_int (tokens : list string) : result (list Z) :=
  match tokens with
  | [] => Ok []
  | t :: ts => z <- py_int t ;; zs <- map_int ts ;; Ok (z :: zs)
  end.

(** The loop filling [edges], one row per [;]-separated line. *)
Fixpoint parse_rows (lines : list string) : result (list (list Z)) :=
  match lines with
  | [] => Ok []
  | line :: ls =>
      row <- map_int (split "," line) ;;
      rows <- parse_rows ls ;;
      Ok (row :: rows)
  end.

(** [for row in edges: if len(row) != len(edges): raise ...] *)
Fixpoint check_rows (len : nat) (rows : list (list Z)) : result unit :=
  match rows with
  | [] => Ok tt
  | row :: rs =>
      if negb (List.length row =? len)%nat then Raise (ValueError msg_square)
      else check_rows len rs
  end.

(** The body of the double loop over [i] and [j]. *)
Definition check_cell (edges : list (list Z)) (i j : nat) : result unit :=
  row_i <- getitem edges i ;;
  e_ij <- getitem row_i j ;;
  row_j <- getitem edges j ;;
  e_ji <- getitem row_j i ;;
  if negb (e_ij =? e_ji)%Z then Raise (ValueError msg_symmetric)
  else if (i =? j)%nat && negb (e_ij =? 0)%Z then Raise (ValueError msg_diagonal)
  else if negb (i =? j)%nat && (e_ij =? 0)%Z then Raise (ValueError msg_off_diagonal)
  else Ok tt.

Definition check_matrix (edges : list (list Z)) : result unit :=
  let r := seq 0 (List.length edges) in
  for_each (fun i => for_each (fun j => check_cell edges i j) r) r.

(** The [try] block. *)
Definition parse_input_try (num_customers_str vehicle_capacity_str
                            customer_demands_str edges_str : string)
  : result parsed_input :=
  num_customers <- py_int num_customers_str ;;
  vehicle_capacity <- py_int vehicle_capacity_str ;;
  customer_demands <- map_int (split "," customer_demands_str) ;;
  if negb (Z.of_nat (List.length customer_demands) =? num_customers)%Z
  then Raise (ValueError msg_demands)
  else
    edges <- parse_rows (split ";" edges_str) ;;
    if negb (Z.of_nat (List.length edges) =? num_customers + 1)%Z
    then Raise (ValueError msg_square)
    else
      check_rows (List.length edges) edges ;;;
      check_matrix edges ;;;
      Ok (num_customers, vehicle_capacity, customer_demands, edges).

(** [except ValueError as ex: raise ValueError(f"Invalid input: {str(ex)}")] *)
Definition parse_input (num_customers_str vehicle_capacity_str
                        customer_demands_str edges_str : string)
  : result parsed_input :=
  match parse_input_try num_customers_str vehicle_capacity_str
          customer_demands_str edges_str with
  | Raise (ValueError msg) => Raise (ValueError ("Invalid input: " ^^ msg))
  | r => r
  end.

End ParseInput.

(** A decimal reader used to run [parse_input] on concrete text: an optional
    sign followed by at least one ASCII digit, read the way [int] reads such
    literals; anything else is refused. *)
Definition digits_value (s : string) : option Z :=
  match s with
  | EmptyString => None
  | _ => option_map Z.of_uint (NilEmpty.uint_of_string s)
  end.

Definition int_decimal (s : string) : option Z :=
  match s with
  | String "-" r => option_map Z.opp (digits_value r)
  | String "+" r => digits_value r
  | _ => digits_value s
  end.

Definition int_decimal_message (s : string) : string :=
  "invalid literal for int() with base 10: '" ^^ s ^^ "'".

(** ** create_data_model *)

Record Data : Type := mkData {
  distance_matrix : list (list Z);
  demands : list Z;
  vehicle_capacities : list Z;
  num_vehicles : Z;
  depot : nat
}.

Definition msg_assert : string :=
  "Customer demands length should be num_customers + 1".

Definition create_data_model (num_customers vehicle_capacity : Z)
    (customer_demands : list Z) (edges : list (list Z)) : result Data :=
  let data :=
    {| distance_matrix := edges;
       demands := 0%Z :: customer_demands;
       vehicle_capacities := repeat vehicle_capacity (Z.to_nat num_customers);
       num_vehicles := num_customers;
       depot := 0%nat |} in
  if (Z.of_nat (List.length (demands data)) =? num_customers + 1)%Z
  then Ok data
  else Raise (AssertionError msg_assert).

(** ** The routing library's interface, as far as the program uses it *)

(** The library's integers are signed 64-bit. *)
Definition int64_min : Z := (- 2 ^ 63)%Z.
Definition int64_max : Z := (2 ^ 63 - 1)%Z.

Definition fits_int64 (z : Z) : bool :=
  (int64_min <=? z)%Z && (z <=? int64_max)%Z.

(** What the library reads from the result of the distance callback: the
    result itself when it fits, 0 otherwise. *)
Definition as_int64 (z : Z) : Z := if fits_int64 z then z else 0%Z.

(** [RoutingIndexManager(num_nodes, num_vehicles, depot)]: every node keeps
    its own number as index, vehicle 0 starts at the depot's index, the other
    vehicles get fresh start indices after the nodes, and every vehicle gets
    a fresh end index after all of those. *)
Record RoutingIndexManager : Type := mkManager {
  num_nodes : nat;
  vehicles : nat;
  depot_node : nat
}.

(** [routing.Size()]: the number of indices that have a successor. *)
Definition Size (m : RoutingIndexManager) : nat :=
  (num_nodes m + vehicles m - 1)%nat.

Definition Start (m : RoutingIndexManager) (vehicle_id : nat) : nat :=
  if (vehicle_id =? 0)%nat then depot_node m
  else (num_nodes m + vehicle_id - 1)%nat.

Definition End (m : RoutingIndexManager) (vehicle_id : nat) : nat :=
  (Size m + vehicle_id)%nat.

Definition IsEnd (m : RoutingIndexManager) (index : nat) : bool :=
  (Size m <=? index)%nat.

Definition IsStart (m : RoutingIndexManager) (index : nat) : bool :=
  (index =? depot_node m)%nat || ((num_nodes m <=? index)%nat && (index <? Size m)%nat).

Definition IndexToNode (m : RoutingIndexManager) (index : nat) : nat :=
  if (index <? num_nodes m)%nat then index else depot_node m.

(** The model assembled by [solve_routing_problem]: the index manager, the
    arc cost evaluator shared by all vehicles, and one dimension given by
    [AddDimensionWithVehicleCapacity(callback, slack_max, capacities,
    fix_start_cumul_to_zero, name)]. *)
Record RoutingModel : Type := mkRouting {
  manager : RoutingIndexManager;
  arc_cost_evaluator : nat -> nat -> result Z;
  dimension_transit : nat -> result Z;
  dimension_slack_max : Z;
  dimension_capacities : list Z;
  dimension_fix_start_cumul_to_zero : bool
}.

(** [routing.GetArcCostForVehicle(from_index, to_index, vehicle)]: zero on a
    self arc, the registered evaluator otherwise. *)
Definition GetArcCostForVehicle (routing : RoutingModel)
    (from_index to_index vehicle : nat) : result Z :=
  if (from_index =? to_index)%nat then Ok 0%Z
  else arc_cost_evaluator routing from_index to_index.

(** The values a solution gives to the model's variables: the successor of
    an index, the vehicle serving it, and the dimension's cumulated value. *)
Record Assignment : Type := mkAssignment {
  NextVar : nat -> nat;
  VehicleVar : nat -> nat;
  CumulVar : nat -> Z
}.

Inductive FirstSolutionStrategy : Type :=
| AUTOMATIC
| PATH_CHEAPEST_ARC.

Record RoutingSearchParameters : Type := mkSearchParameters {
  first_solution_strategy : FirstSolutionStrategy
}.

Definition DefaultRoutingSearchParameters : RoutingSearchParameters :=
  {| first_solution_strategy := AUTOMATIC |}.

(** ** print_solution *)

(** One entry of [route]: [(node_index, route_load, route_distance)]. *)
Definition stop : Type := (nat * Z * Z)%type.

Definition stop_node (s : stop) : nat := fst (fst s).
Definition stop_load (s : stop) : Z := snd (fst s).
Definition stop_distance (s : stop) : Z := snd s.

(** The variables of the inner loop. *)
Record walk_state : Type := mkWalk {
  index : nat;
  previous_index : nat;
  route_load : Z;
  route_distance : Z;
  route : list stop
}.

(** One visit: add the node's demand and the arc from the previous index,
    record the stop. *)
Definition visit (data : Data) (routing : RoutingModel) (vehicle_id : nat)
    (w : walk_state) : result walk_state :=
  let node_index := IndexToNode (manager routing) (index w) in
  d <- getitem (demands data) node_index ;;
  let load := (route_load w + d)%Z in
  c <- GetArcCostForVehicle routing (previous_index w) (index w) vehicle_id ;;
  let distance := (route_distance w + c)%Z in
  Ok {| index := index w;
        previous_index := previous_index w;
        route_load := load;
        route_distance := distance;
        route := route w ++ [(node_index, load, distance)] |}.

(** [while not routing.IsEnd(index): ...], with a bound on the number of
    iterations. *)
Fixpoint walk (fuel : nat) (data : Data) (routing : RoutingModel)
    (solution : Assignment) (vehicle_id : nat) (w : walk_state)
  : result walk_state :=
  if IsEnd (manager routing) (index w) then Ok w
  else match fuel with
       | O => Diverge
       | S fuel' =>
           w' <- visit data routing vehicle_id w ;;
           walk fuel' data routing solution vehicle_id
             {| index := NextVar solution (index w');
                previous_index := index w';
                route_load := route_load w';
                route_distance := route_distance w';
                route := route w' |}
       end.

(** The route of one vehicle: the loop, then the closing visit of the end. *)
Definition vehicle_route (fuel : nat) (data : Data) (routing : RoutingModel)
    (solution : Assignment) (vehicle_id : nat) : result walk_state :=
  let start := Start (manager routing) vehicle_id in
  w <- walk fuel data routing solution vehicle_id
         {| index := start; previous_index := start;
            route_load := 0; route_distance := 0; route := [] |} ;;
  visit data routing vehicle_id w.

Definition last_stop (r : list stop) : stop := last r (0%nat, 0%Z, 0%Z).

(** The text appended for one stop of [enumerate(route[:-1])]. *)
Definition segment (i : nat) (s : stop) : string :=
  if (i =? 0)%nat
  then " " ^^ str (Z.of_nat (stop_node s)) ^^ " Load(" ^^ str (stop_load s)
       ^^ ") Distance(0) ->"
  else " " ^^ str (Z.of_nat (stop_node s)) ^^ " Load(" ^^ str (stop_load s)
       ^^ ") Distance(" ^^ str (stop_distance s) ^^ ") ->".

Fixpoint segments (i : nat) (stops : list stop) (plan_output : string) : string :=
  match stops with
  | [] => plan_output
  | s :: stops' => segments (S i) stops' (plan_output ^^ segment i s)
  end.

(** The block of text of one reported trip. *)
Definition plan_output (routing : RoutingModel) (trip_number : Z)
    (w : walk_state) : string :=
  let out := "Route for trip " ^^ str trip_number ^^ ":" ^^ nl in
  let out := segments 0 (removelast (route w)) out in
  let out := out ^^ " " ^^ str (Z.of_nat (IndexToNode (manager routing) (index w)))
                 ^^ " Load(" ^^ str (stop_load (last_stop (route w)))
                 ^^ ") Distance(" ^^ str (stop_distance (last_stop (route w)))
                 ^^ ")" ^^ nl in
  let out := out ^^ "Distance of the route: "
                 ^^ str (stop_distance (last_stop (route w))) ^^ "m" ^^ nl in
  out ^^ "Load of the route: " ^^ str (stop_load (last_stop (route w))) ^^ nl ^^ nl.

(** The variables of the outer loop. *)
Record report_state : Type := mkReport {
  total_distance : Z;
  total_load : Z;
  result_text : string;
  trip_number : Z
}.

(** What the outer loop does with one vehicle's finished route. *)
Definition account (routing : RoutingModel) (st : report_state)
    (w : walk_state) : report_state :=
  let reported := (2 <? List.length (route w))%nat in
  {| total_distance :=
       (total_distance st
        + match route w with [] => 0 | _ => stop_distance (last_stop (route w)) end)%Z;
     total_load :=
       (total_load st
        + match route w with [] => 0 | _ => stop_load (last_stop (route w)) end)%Z;
     result_text :=
       if reported then result_text st ^^ plan_output routing (trip_number st) w
       else result_text st;
     trip_number :=
       if reported then (trip_number st + 1)%Z else trip_number st |}.

(** [for vehicle_id in ...] *)
Fixpoint for_vehicles (fuel : nat) (data : Data) (routing : RoutingModel)
    (solution : Assignment) (vehicle_ids : list nat) (st : report_state)
  : result report_state :=
  match vehicle_ids with
  | [] => Ok st
  | vehicle_id :: rest =>
      w <- vehicle_route fuel data routing solution vehicle_id ;;
      for_vehicles fuel data routing solution rest (account routing st w)
  end.

Definition totals_text (total_distance total_load : Z) : string :=
  nl ^^ "Total distance of all routes: " ^^ str total_distance ^^ "m" ^^ nl
  ^^ "Total load of all routes: " ^^ str total_load.

Definition initial_report : report_state :=
  {| total_distance := 0; total_load := 0;
     result_text := EmptyString; trip_number := 1 |}.

Definition print_solution (fuel : nat) (data : Data) (routing : RoutingModel)
    (solution : Assignment) : result string :=
  st <- for_vehicles fuel data routing solution
          (seq 0 (Z.to_nat (num_vehicles data))) initial_report ;;
  Ok (result_text st ^^ totals_text (total_distance st) (total_load st)).

(** ** solve_routing_problem *)

Definition routing_model (data : Data) : RoutingModel :=
  let manager :=
    {| num_nodes := List.length (distance_matrix data);
       vehicles := Z.to_nat (num_vehicles data);
       depot_node := depot data |} in
  let distance_callback (from_index to_index : nat) : result Z :=
    let from_node := IndexToNode manager from_index in
    let to_node := IndexToNode manager to_index in
    row <- getitem (distance_matrix data) from_node ;;
    getitem row to_node in
  let demand_callback (from_index : nat) : result Z :=
    let from_node := IndexToNode manager from_index in
    getitem (demands data) from_node in
  {| manager := manager;
     arc_cost_evaluator := fun from_index to_index =>
       cost <- distance_callback from_index to_index ;; Ok (as_int64 cost);
     dimension_transit := demand_callback;
     dimension_slack_max := 0;
     dimension_capacities := vehicle_capacities data;
     dimension_fix_start_cumul_to_zero := true |}.

Definition search_parameters : RoutingSearchParameters :=
  {| first_solution_strategy := PATH_CHEAPEST_ARC |}.

Definition no_solution : string := "No solution found.".

(** What the library requires when the program builds the model:
    [RoutingIndexManager] stops the process without a vehicle; the capacities
    given to [AddDimensionWithVehicleCapacity] must fit the library's
    integers, or Python raises [OverflowError], and must not be negative, or
    the library stops the process. *)
Definition library_accepts (data : Data) : result unit :=
  (if (num_vehicles data <=? 0)%Z then Raise LibraryAbort else Ok tt) ;;;
  if negb (forallb fits_int64 (vehicle_capacities data)) then Raise OverflowError
  else if negb (forallb (fun c => (0 <=? c)%Z) (vehicle_capacities data))
  then Raise LibraryAbort
  else Ok tt.

Section Solve.

(** The library's search: a solution of the model, or nothing. *)
Variable SolveWithParameters :
  RoutingModel -> RoutingSearchParameters -> option Assignment.

Definition solve_routing_problem (fuel : nat) (num_customers vehicle_capacity : Z)
    (customer_demands : list Z) (edges : list (list Z)) : result string :=
  data <- create_data_model num_customers vehicle_capacity customer_demands edges ;;
  library_accepts data ;;;
  let routing := routing_model data in
  match SolveWithParameters routing search_parameters with
  | Some solution => print_solution fuel data routing solution
  | None => Ok no_solution
  end.

End Solve.

(** ** What a solution of the routing model satisfies *)

(** The indices met from [i] on, up to and including the first end index. *)
Fixpoint chain (fuel : nat) (m : RoutingIndexManager) (next : nat -> nat)
    (i : nat) : option (list nat) :=
  if IsEnd m i then Some [i]
  else match fuel with
       | O => None
       | S fuel' => option_map (cons i) (chain fuel' m next (next i))
       end.

(** The constraints of the model built by [routing_model], on the values of
    its variables: successors are taken in their domain and are all
    different, no chain loops, the vehicle is constant along a chain and
    fixed at the chain's two ends, and the dimension's cumulated value starts
    at zero when so requested, grows by the transit of the index left (plus a
    slack within the allowed maximum) and stays between zero and the capacity
    of the serving vehicle. *)
Record Feasible (routing : RoutingModel) (solution : Assignment) : Prop := {
  next_domain : forall i, (i < Size (manager routing))%nat ->
    (NextVar solution i < Size (manager routing) + vehicles (manager routing))%nat
    /\ IsStart (manager routing) (NextVar solution i) = false;
  next_all_different : forall i j,
    (i < Size (manager routing))%nat -> (j < Size (manager routing))%nat ->
    NextVar solution i = NextVar solution j -> i = j;
  no_cycle : forall i, (i < Size (manager routing))%nat ->
    chain (Size (manager routing)) (manager routing) (NextVar solution) i <> None;
  vehicle_of_start : forall v, (v < vehicles (manager routing))%nat ->
    VehicleVar solution (Start (manager routing) v) = v;
  vehicle_of_end : forall v, (v < vehicles (manager routing))%nat ->
    VehicleVar solution (End (manager routing) v) = v;
  vehicle_of_next : forall i, (i < Size (manager routing))%nat ->
    VehicleVar solution (NextVar solution i) = VehicleVar solution i;
  cumul_of_start : dimension_fix_start_cumul_to_zero routing = true ->
    forall v, (v < vehicles (manager routing))%nat ->
    CumulVar solution (Start (manager routing) v) = 0%Z;
  cumul_of_next : forall i, (i < Size (manager routing))%nat ->
    exists t, dimension_transit routing i = Ok t
      /\ (CumulVar solution i + t <= CumulVar solution (NextVar solution i)
          <= CumulVar solution i + t + dimension_slack_max routing)%Z;
  cumul_bounds : forall i,
    (i < Size (manager routing) + vehicles (manager routing))%nat ->
    (0 <= CumulVar solution i
       <= nth (VehicleVar solution i) (dimension_capacities routing) 0)%Z
}.

(** The same constraints as a test that runs. *)
Definition check_feasible (routing : RoutingModel) (solution : Assignment) : bool :=
  let m := manager routing in
  let next := NextVar solution in
  let cumul := CumulVar solution in
  let inner := seq 0 (Size m) in
  forallb (fun i => (next i <? Size m + vehicles m)%nat && negb (IsStart m (next i))) inner
  && forallb (fun i => forallb (fun j => implb (next i =? next j)%nat (i =? j)%nat) inner) inner
  && forallb (fun i => match chain (Size m) m next i with Some _ => true | None => false end) inner
  && forallb (fun v => (VehicleVar solution (Start m v) =? v)%nat
                       && (VehicleVar solution (End m v) =? v)%nat
                       && (negb (dimension_fix_start_cumul_to_zero routing)
                           || (cumul (Start m v) =? 0)%Z))
       (seq 0 (vehicles m))
  && forallb (fun i => (VehicleVar solution (next i) =? VehicleVar solution i)%nat
                       && match dimension_transit routing i with
                          | Ok t => (cumul i + t <=? cumul (next i))%Z
                                    && (cumul (next i) <=? cumul i + t + dimension_slack_max routing)%Z
                          | _ => false
                          end) inner
  && forallb (fun i => (0 <=? cumul i)%Z
                       && (cumul i <=? nth (VehicleVar solution i) (dimension_capacities routing) 0)%Z)
       (seq 0 (Size m + vehicles m)).

(** ** The conditions under which [parse_input] accepts *)

Definition cell (edges : list (list Z)) (i j : nat) : Z :=
  nth j (nth i edges []) 0%Z.

Record valid_input (num_customers vehicle_capacity : Z)
    (customer_demands : list Z) (edges : list (list Z)) : Prop := {
  valid_demands : Z.of_nat (List.length customer_demands) = num_customers;
  valid_rows : Z.of_nat (List.length edges) = (num_customers + 1)%Z;
  valid_columns : Forall (fun row => List.length row = List.length edges) edges;
  valid_symmetric : forall i j,
    (i < List.length edges)%nat -> (j < List.length edges)%nat ->
    cell edges i j = cell edges j i;
  valid_diagonal : forall i, (i < List.length edges)%nat -> cell edges i i = 0%Z;
  valid_off_diagonal : forall i j,
    (i < List.length edges)%nat -> (j < List.length edges)%nat ->
    i <> j -> cell edges i j <> 0%Z
}.

(** The defects a raw input can have, stated on its tokens and on the values
    they denote. *)
Section Defects.

Variable int : string -> option Z.

Definition reads (tokens : list string) (values : list Z) : Prop :=
  Forall2 (fun t z => int t = Some z) tokens values.

Definition parses (raw : raw_input) (p : parsed_input) : Prop :=
  let '(num_customers_str, vehicle_capacity_str, customer_demands_str, edges_str) := raw in
  let '(num_customers, vehicle_capacity, customer_demands, edges) := p in
  int num_customers_str = Some num_customers
  /\ int vehicle_capacity_str = Some vehicle_capacity
  /\ reads (split "," customer_demands_str) customer_demands
  /\ Forall2 (fun line row => reads (split "," line) row) (split ";" edges_str) edges.

Definition tokens_of (raw : raw_input) : list string :=
  let '(num_customers_str, vehicle_capacity_str, customer_demands_str, edges_str) := raw in
  num_customers_str :: vehicle_capacity_str
    :: split "," customer_demands_str
    ++ flat_map (split ",") (split ";" edges_str).

Definition not_an_integer (raw : raw_input) : Prop :=
  exists t, In t (tokens_of raw) /\ int t = None.

Definition demand_count_mismatch (p : parsed_input) : Prop :=
  let '(num_customers, _, customer_demands, _) := p in
  Z.of_nat (List.length customer_demands) <> num_customers.

Definition non_square (p : parsed_input) : Prop :=
  let '(num_customers, _, _, edges) := p in
  Z.of_nat (List.length edges) <> (num_customers + 1)%Z
  \/ exists row, In row edges /\ Z.of_nat (List.length row) <> (num_customers + 1)%Z.

Definition asymmetric (p : parsed_input) : Prop :=
  let '(_, _, _, edges) := p in
  exists i j, (i < List.length edges)%nat /\ (j < List.length edges)%nat
              /\ cell edges i j <> cell edges j i.

Definition nonzero_diagonal (p : parsed_input) : Prop :=
  let '(_, _, _, edges) := p in
  exists i, (i < List.length edges)%nat /\ cell edges i i <> 0%Z.

Definition zero_off_diagonal (p : parsed_input) : Prop :=
  let '(_, _, _, edges) := p in
  exists i j, (i < List.length edges)%nat /\ (j < List.length edges)%nat
              /\ i <> j /\ cell edges i j = 0%Z.

Definition defective (raw : raw_input) : Prop :=
  not_an_integer raw
  \/ exists p, parses raw p
       /\ (demand_count_mismatch p \/ non_square p \/ asymmetric p
           \/ nonzero_diagonal p \/ zero_off_diagonal p).

End Defects.

(** [run m next i l e]: following [next] from [i] visits exactly the indices
    of [l], none of them an end, and then arrives at [e]. *)
Inductive run (m : RoutingIndexManager) (next : nat -> nat)
  : nat -> list nat -> nat -> Prop :=
| run_stop e : run m next e [] e
| run_step i l e :
    (i < Size m)%nat -> run m next (next i) l e -> run m next i (i :: l) e.

(** The indices of a vehicle's chain in a solution, from its start to its
    end, and the ones strictly in between. *)
Definition vehicle_chain (routing : RoutingModel) (solution : Assignment)
    (vehicle_id : nat) : list nat :=
  match chain (Size (manager routing)) (manager routing) (NextVar solution)
          (Start (manager routing) vehicle_id) with
  | Some p => p
  | None => []
  end.

Definition visited (routing : RoutingModel) (solution : Assignment)
    (vehicle_id : nat) : list nat :=
  removelast (tl (vehicle_chain routing solution vehicle_id)).

(** The customer nodes of a model: every node but the depot. *)
Definition customers (m : RoutingIndexManager) : list nat :=
  filter (fun c => negb (c =? depot_node m)%nat) (seq 0 (num_nodes m)).

(** ** The decoder, read off a chain of indices *)

Definition demand_of (data : Data) (node : nat) : Z := nth node (demands data) 0%Z.

Definition arc_of (data : Data) (m : RoutingIndexManager) (from_index to_index : nat) : Z :=
  if (from_index =? to_index)%nat then 0%Z
  else as_int64 (cell (distance_matrix data) (IndexToNode m from_index)
                   (IndexToNode m to_index)).

(** The stops recorded while visiting the indices of [l] in turn, coming
    from [prev] with the given running load and distance. *)
Fixpoint stops_from (data : Data) (m : RoutingIndexManager) (prev : nat)
    (load dist : Z) (l : list nat) : list stop :=
  match l with
  | [] => []
  | x :: l' =>
      let load' := (load + demand_of data (IndexToNode m x))%Z in
      let dist' := (dist + arc_of data m prev x)%Z in
      (IndexToNode m x, load', dist') :: stops_from data m x load' dist' l'
  end.

(** The previous index, load and distance once the indices of [l] are visited. *)
Fixpoint state_after (data : Data) (m : RoutingIndexManager) (prev : nat)
    (load dist : Z) (l : list nat) : nat * Z * Z :=
  match l with
  | [] => (prev, load, dist)
  | x :: l' =>
      state_after data m x (load + demand_of data (IndexToNode m x))%Z
        (dist + arc_of data m prev x)%Z l'
  end.

Definition decoded_route (data : Data) (routing : RoutingModel)
    (solution : Assignment) (vehicle_id : nat) : list stop :=
  stops_from data (manager routing) (Start (manager routing) vehicle_id) 0 0
    (vehicle_chain routing solution vehicle_id).

(** The finished routes of the vehicles, in the order of the outer loop. *)
Fixpoint vehicle_routes (fuel : nat) (data : Data) (routing : RoutingModel)
    (solution : Assignment) (vehicle_ids : list nat) : result (list walk_state) :=
  match vehicle_ids with
  | [] => Ok []
  | vehicle_id :: rest =>
      w <- vehicle_route fuel data routing solution vehicle_id ;;
      ws <- vehicle_routes fuel data routing solution rest ;;
      Ok (w :: ws)
  end.

Definition final_distance (w : walk_state) : Z := stop_distance (last_stop (route w)).
Definition final_load (w : walk_state) : Z := stop_load (last_stop (route w)).

(** A route is reported when it has more than two stops. *)
Definition reported (w : walk_state) : bool := (2 <? List.length (route w))%nat.

Definition sum_Z (l : list Z) : Z := fold_right Z.add 0%Z l.

(** The blocks of text of a list of routes, each under its trip number. *)
Fixpoint report_blocks (routing : RoutingModel) (trips : list (Z * walk_state)) : string :=
  match trips with
  | [] => EmptyString
  | (k, w) :: rest => plan_output routing k w ^^ report_blocks routing rest
  end.

(** The report built from the finished routes: the reported ones numbered
    from 1, then the totals over all of them. *)
Definition trip_numbers (ws : list walk_state) : list Z :=
  map Z.of_nat (seq 1 (List.length (filter reported ws))).

Definition report_of (routing : RoutingModel) (ws : list walk_state) : string :=
  report_blocks routing (combine (trip_numbers ws) (filter reported ws))
  ^^ totals_text (sum_Z (map final_distance ws)) (sum_Z (map final_load ws)).

(** The customers of a decoded route: its nodes other than the depot. *)
Definition route_customers (data : Data) (w : walk_state) : list nat :=
  filter (fun node => negb (node =? depot data)%nat) (map stop_node (route w)).

(** The text of a trip's block after its heading. *)
Definition plan_body (routing : RoutingModel) (w : walk_state) : string :=
  segments 0 (removelast (route w)) EmptyString
  ^^ " " ^^ str (Z.of_nat (IndexToNode (manager routing) (index w)))
  ^^ " Load(" ^^ str (stop_load (last_stop (route w)))
  ^^ ") Distance(" ^^ str (stop_distance (last_stop (route w)))
  ^^ ")" ^^ nl
  ^^ "Distance of the route: " ^^ str (stop_distance (last_stop (route w))) ^^ "m" ^^ nl
  ^^ "Load of the route: " ^^ str (stop_load (last_stop (route w))) ^^ nl ^^ nl.

(** ** A worked instance: two customers, one of the spec's scenarios *)

Definition example_demands : list Z := [3; 4]%Z.
Definition example_edges : list (list Z) := [[0; 1; 2]; [1; 0; 3]; [2; 3; 0]]%Z.

Definition example_data : Data :=
  {| distance_matrix := example_edges;
     demands := [0; 3; 4]%Z;
     vehicle_capacities := [10; 10]%Z;
     num_vehicles := 2;
     depot := 0 |}.

(** Indices: 0 is the depot and the start of vehicle 0, 1 and 2 are the
    customers, 3 is the start of vehicle 1, 4 and 5 are the two ends. *)
Definition table {A : Type} (values : list A) (default : A) (i : nat) : A :=
  nth i values default.

(** The other scenario: one customer asking for more than a vehicle carries. *)
Definition overloaded_demands : list Z := [11]%Z.
Definition overloaded_edges : list (list Z) := [[0; 1]; [1; 0]]%Z.

(** Vehicle 0 serves customer 1 then customer 2; vehicle 1 stays idle. *)
Definition one_route : Assignment :=
  {| NextVar := table [1; 2; 4; 5] 0;
     VehicleVar := table [0; 0; 0; 1; 0; 1] 0;
     CumulVar := table [0; 0; 3; 0; 7; 0]%Z 0%Z |}.

(** Vehicle 0 serves customer 1 and vehicle 1 serves customer 2. *)
Definition two_routes : Assignment :=
  {| NextVar := table [1; 4; 5; 2] 0;
     VehicleVar := table [0; 0; 1; 1; 0; 1] 0;
     CumulVar := table [0; 0; 0; 0; 3; 4]%Z 0%Z |}.

(** A search that proposes [one_route] and keeps it only if it satisfies
    the model. *)
Definition checking_search (routing : RoutingModel)
    (parameters : RoutingSearchParameters) : option Assignment :=
  if check_feasible routing one_route then Some one_route else None.

(** The sign conditions of the data model, on a parsed tuple. *)
Definition sign_constraints (p : parsed_input) : Prop :=
  let '(_, vehicle_capacity, customer_demands, edges) := p in
  (0 < vehicle_capacity)%Z
  /\ Forall (fun d => (0 <= d)%Z) customer_demands
  /\ forall i j, (i < List.length edges)%nat -> (j < List.length edges)%nat ->
                 i <> j -> (0 < cell edges i j)%Z.

(** ** Further notions used to describe the code *)

(** The length of a node sequence in a distance matrix: the sum of the
    entries between consecutive nodes. *)
Fixpoint path_length (edges : list (list Z)) (nodes : list nat) : Z :=
  match nodes with
  | a :: (b :: _) as rest => (cell edges a b + path_length edges rest)%Z
  | _ => 0%Z
  end.

(** A distance matrix as the library reads it through the distance callback. *)
Definition as_read (edges : list (list Z)) : list (list Z) :=
  map (map as_int64) edges.

(** The assignment in which vehicle [v] serves customer [v + 1] alone, for
    [n] customers with the given demands: index 0 and the indices [n + v]
    are the starts, [1..n] the customers, [2n + v] the ends. *)
Definition one_per_vehicle (n : nat) (customer_demands : list Z) : Assignment :=
  {| NextVar := fun i =>
       if (i =? 0)%nat then 1%nat
       else if (i <=? n)%nat then (2 * n + i - 1)%nat
       else (i - n + 1)%nat;
     VehicleVar := fun i =>
       if (i =? 0)%nat then 0%nat
       else if (i <=? n)%nat then (i - 1)%nat
       else if (i <? 2 * n)%nat then (i - n)%nat
       else (i - 2 * n)%nat;
     CumulVar := fun i =>
       if (i <? 2 * n)%nat then 0%Z else nth (i - 2 * n) customer_demands 0%Z |}.

(** The cost the library gives the arc an assignment uses out of index [i]. *)
Definition arc_cost (routing : RoutingModel) (solution : Assignment) (i : nat) : Z :=
  match arc_cost_evaluator routing i (NextVar solution i) with
  | Ok cost => cost
  | _ => 0%Z
  end.

(** The objective of an assignment: the sum of the costs of its arcs. *)
Definition objective (routing : RoutingModel) (solution : Assignment) : Z :=
  sum_Z (map (arc_cost routing solution) (seq 0 (Size (manager routing)))).

(** A solution of the model with its costs: the constraints of [Feasible],
    and, since the library keeps the cost of every arc used and their sum in
    non-negative 64-bit variables, arc costs that are not negative and an
    objective that fits. *)
Record Solution (routing : RoutingModel) (solution : Assignment) : Prop := {
  solution_feasible : Feasible routing solution;
  solution_arc_costs : forall i, (i < Size (manager routing))%nat ->
    exists cost, arc_cost_evaluator routing i (NextVar solution i) = Ok cost
                 /\ (0 <= cost)%Z;
  solution_objective : (objective routing solution <= int64_max)%Z
}.

(** The distance covered when every customer of a matrix is served by a
    return trip from the depot. *)
Definition return_trips (edges : list (list Z)) : Z :=
  sum_Z (map (fun c => (cell edges 0 c + cell edges c 0)%Z)
           (seq 1 (List.length edges - 1))).

(** A search that tries the given assignments in turn and returns the first
    one that satisfies the model. *)
Definition search_among (candidates : list Assignment) (routing : RoutingModel)
    (parameters : RoutingSearchParameters) : option Assignment :=
  find (check_feasible routing) candidates.

(** Two customers, the second asking for more than a vehicle carries, and
    the two ways of visiting them, with the loads they would cumulate. *)
Definition heavy_demands : list Z := [3; 11]%Z.

Definition heavy_one_route : Assignment :=
  {| NextVar := table [1; 2; 4; 5] 0;
     VehicleVar := table [0; 0; 0; 1; 0; 1] 0;
     CumulVar := table [0; 0; 3; 0; 14; 0]%Z 0%Z |}.

Definition heavy_two_routes : Assignment :=
  {| NextVar := table [1; 4; 5; 2] 0;
     VehicleVar := table [0; 0; 1; 1; 0; 1] 0;
     CumulVar := table [0; 0; 0; 0; 3; 11]%Z 0%Z |}.

(** A capacity one above the largest 64-bit integer, and a demand above it. *)
Definition overflowing_capacity : Z := 9223372036854775808%Z.
Definition overflowing_demands : list Z := [9223372036854775809]%Z.

(** ** The click handler of the Solve button *)

(** What [page.dialog] holds: the result dialog created by [main], or an
    error dialog created by a failed click, with its text and [open] flag. *)
Inductive Dialog : Type :=
| ResultDialog
| ErrorDialog (content : string) (open : bool).

(** The part of the page the handler reads and writes. *)
Record Page : Type := mkPage {
  page_dialog : Dialog;
  result_text_control_value : string;
  result_dialog_open : bool
}.

(** The page as [main] leaves it. *)
Definition initial_page : Page :=
  {| page_dialog := ResultDialog;
     result_text_control_value := EmptyString;
     result_dialog_open := false |}.

Section SolveAndDisplay.

Variable int : string -> option Z.
Variable int_message : string -> string.
Variable SolveWithParameters :
  RoutingModel -> RoutingSearchParameters -> option Assignment.

(** The [except ValueError as ex] branch: a fresh open error dialog showing
    [str(ex)] replaces [page.dialog]. *)
Definition show_error (page : Page) (msg : string) : Page :=
  {| page_dialog := ErrorDialog msg true;
     result_text_control_value := result_text_control_value page;
     result_dialog_open := result_dialog_open page |}.

(** [solve_and_display(e)] on the values of the four text fields; an
    exception other than [ValueError] is not caught. *)
Definition solve_and_display (fuel : nat)
    (num_customers vehicle_capacity customer_demands edges : string)
    (page : Page) : result Page :=
  match parse_input int int_message num_customers vehicle_capacity
          customer_demands edges with
  | Ok (num_customers_val, vehicle_capacity_val, customer_demands_val, edges_val) =>
      match solve_routing_problem SolveWithParameters fuel num_customers_val
              vehicle_capacity_val customer_demands_val edges_val with
      | Ok result_text =>
          Ok {| page_dialog := page_dialog page;
                result_text_control_value := result_text;
                result_dialog_open := true |}
      | Raise (ValueError msg) => Ok (show_error page msg)
      | Raise e => Raise e
      | Diverge => Diverge
      end
  | Raise (ValueError msg) => Ok (show_error page msg)
  | Raise e => Raise e
  | Diverge => Diverge
  end.


End SolveAndDisplay.

(** * Proofs *)

(** ** The result monad *)

Lemma bind_Ok {A B : Type} (r : result A) (k : A -> result B) (b : B) :
  bind r k = Ok b -> exists a, r = Ok a /\ k a = Ok b.
Proof. destruct r; simpl; intros H; try discriminate. eauto. Qed.

Lemma bind_Raise {A B : Type} (r : result A) (k : A -> result B) (e : exn) :
  bind r k = Raise e -> r = Raise e \/ exists a, r = Ok a /\ k a = Raise e.
Proof. destruct r; simpl; intros H; try discriminate; [right; eauto|left; congruence]. Qed.

Lemma bind_Diverge {A B : Type} (r : result A) (k : A -> result B) :
  bind r k = Diverge -> r = Diverge \/ exists a, r = Ok a /\ k a = Diverge.
Proof. destruct r; simpl; intros H; try discriminate; [right; eauto|left; congruence]. Qed.

Lemma getitem_Ok {A : Type} (l : list A) (i : nat) (d : A) :
  (i < List.length l)%nat -> getitem l i = Ok (nth i l d).
Proof.
  intros H. unfold getitem.
  rewrite (nth_error_nth' l d H). reflexivity.
Qed.

Lemma for_each_Ok {A : Type} (f : A -> result unit) (l : list A) :
  for_each f l = Ok tt <-> (forall x, In x l -> f x = Ok tt).
Proof.
  induction l as [|a l IH]; simpl.
  - split; [intros _ x []|reflexivity].
  - split.
    + intros H. apply bind_Ok in H as [[] [Ha Hl]].
      intros x [<-|Hx]; [exact Ha|]. now apply IH.
    + intros H. rewrite (H a (or_introl eq_refl)). simpl.
      apply IH. intros x Hx. apply H. now right.
Qed.

Lemma for_each_Raise {A : Type} (f : A -> result unit) (l : list A) (e : exn) :
  for_each f l = Raise e -> exists x, In x l /\ f x = Raise e.
Proof.
  induction l as [|a l IH]; simpl; [discriminate|].
  intros H. apply bind_Raise in H as [H|[[] [_ H]]].
  - exists a. auto.
  - destruct (IH H) as [x [Hx Hf]]. exists x. auto.
Qed.

Lemma for_each_Diverge {A : Type} (f : A -> result unit) (l : list A) :
  for_each f l = Diverge -> exists x, In x l /\ f x = Diverge.
Proof.
  induction l as [|a l IH]; simpl; [discriminate|].
  intros H. apply bind_Diverge in H as [H|[[] [_ H]]].
  - exists a. auto.
  - destruct (IH H) as [x [Hx Hf]]. exists x. auto.
Qed.

(** ** parse_input *)

Section ParseInputFacts.

Variable int : string -> option Z.
Variable int_message : string -> string.


Lemma py_int_Ok s z : py_int int int_message s = Ok z <-> int s = Some z.
Proof.
  unfold py_int. destruct (int s); split; intros H;
    try discriminate; congruence.
Qed.

Lemma py_int_Raise s e : py_int int int_message s = Raise e -> int s = None.
Proof.
  unfold py_int. destruct (int s); intros H;
    try discriminate; reflexivity.
Qed.

Lemma py_int_cases s :
  (exists z, py_int int int_message s = Ok z)
  \/ (exists msg, py_int int int_message s = Raise (ValueError msg)).
Proof.
  unfold py_int. destruct (int s); eauto.
Qed.

Lemma map_int_Ok tokens values :
  map_int int int_message tokens = Ok values <-> reads int tokens values.
Proof.
  revert values. induction tokens as [|t ts IH]; intros values; simpl.
  - split.
    + intros H. injection H as <-. constructor.
    + intros H. inversion H. reflexivity.
  - split.
    + intros H. apply bind_Ok in H as [z [Hz H]].
      apply bind_Ok in H as [zs [Hzs H]]. injection H as <-.
      constructor; [now apply py_int_Ok|now apply IH].
    + intros H. inversion H as [|? z ? zs Hz Hzs]; subst.
      apply py_int_Ok in Hz. apply IH in Hzs.
      rewrite Hz. simpl. rewrite Hzs. reflexivity.
Qed.

Lemma map_int_cases tokens :
  (exists values, map_int int int_message tokens = Ok values)
  \/ (exists msg t, map_int int int_message tokens = Raise (ValueError msg)
                    /\ In t tokens /\ int t = None).
Proof.
  induction tokens as [|t ts IH]; simpl.
  - left. eauto.
  - destruct (py_int_cases t) as [[z Hz]|[msg Hm]].
    + rewrite Hz. simpl.
      destruct IH as [[zs Hzs]|[msg [t' [Hr [Hin Hn]]]]].
      * rewrite Hzs. simpl. left. eauto.
      * rewrite Hr. simpl. right. exists msg, t'. auto.
    + rewrite Hm. simpl. right. exists msg, t.
      split; [reflexivity|]. split; [now left|].
      eapply py_int_Raise; eauto.
Qed.

Lemma parse_rows_Ok lines rows :
  parse_rows int int_message lines = Ok rows
  <-> Forall2 (fun line row => reads int (split "," line) row) lines rows.
Proof.
  revert rows. induction lines as [|l ls IH]; intros rows; simpl.
  - split.
    + intros H. injection H as <-. constructor.
    + intros H. inversion H. reflexivity.
  - split.
    + intros H. apply bind_Ok in H as [row [Hrow H]].
      apply bind_Ok in H as [rs [Hrs H]]. injection H as <-.
      constructor; [now apply map_int_Ok|now apply IH].
    + intros H. inversion H as [|? row ? rs Hrow Hrs]; subst.
      apply map_int_Ok in Hrow. apply IH in Hrs.
      rewrite Hrow. simpl. rewrite Hrs. reflexivity.
Qed.

Lemma parse_rows_cases lines :
  (exists rows, parse_rows int int_message lines = Ok rows)
  \/ (exists msg t, parse_rows int int_message lines = Raise (ValueError msg)
                    /\ In t (flat_map (split ",") lines) /\ int t = None).
Proof.
  induction lines as [|l ls IH]; simpl.
  - left. eauto.
  - destruct (map_int_cases (split "," l)) as [[row Hrow]|[msg [t [Hr [Hin Hn]]]]].
    + rewrite Hrow. simpl.
      destruct IH as [[rs Hrs]|[msg [t [Hr [Hin Hn]]]]].
      * rewrite Hrs. simpl. left. eauto.
      * rewrite Hr. simpl. right. exists msg, t.
        split; [reflexivity|]. split; [|exact Hn].
        apply in_or_app. now right.
    + rewrite Hr. simpl. right. exists msg, t.
      split; [reflexivity|]. split; [|exact Hn].
      apply in_or_app. now left.
Qed.

Lemma reads_functional tokens v1 v2 :
  reads int tokens v1 -> reads int tokens v2 -> v1 = v2.
Proof.
  intros H. revert v2. induction H as [|t z ts zs Hz _ IH]; intros v2 H2.
  - inversion H2. reflexivity.
  - inversion H2 as [|? z' ? zs' Hz' Hzs']; subst.
    f_equal; [congruence|]. now apply IH.
Qed.

Lemma reads_all_integers tokens values t :
  reads int tokens values -> In t tokens -> int t <> None.
Proof.
  induction 1 as [|t' z ts zs Hz _ IH]; simpl; [tauto|].
  intros [<-|Hin]; [congruence|auto].
Qed.

Lemma parses_functional raw p1 p2 :
  parses int raw p1 -> parses int raw p2 -> p1 = p2.
Proof.
  destruct raw as [[[s1 s2] s3] s4].
  destruct p1 as [[[n1 c1] d1] e1], p2 as [[[n2 c2] d2] e2]. simpl.
  intros (Hn1 & Hc1 & Hd1 & He1) (Hn2 & Hc2 & Hd2 & He2).
  assert (d1 = d2) by (eapply reads_functional; eauto).
  assert (e1 = e2).
  { clear Hd1 Hd2 Hn1 Hn2 Hc1 Hc2. revert e2 He2.
    induction He1 as [|l r ls rs Hr _ IH]; intros e2 He2.
    - inversion He2. reflexivity.
    - inversion He2 as [|? r' ? rs' Hr' Hrs']; subst.
      f_equal; [eapply reads_functional; eauto|now apply IH]. }
  congruence.
Qed.

Lemma parses_all_integers raw p t :
  parses int raw p -> In t (tokens_of raw) -> int t <> None.
Proof.
  destruct raw as [[[s1 s2] s3] s4]. destruct p as [[[n c] d] e]. simpl.
  intros (Hn & Hc & Hd & He) [<-|[<-|Hin]]; try congruence.
  apply in_app_or in Hin as [Hin|Hin].
  - eapply reads_all_integers; eauto.
  - clear Hn Hc Hd. induction He as [|l r ls rs Hr _ IH]; simpl in Hin; [tauto|].
    apply in_app_or in Hin as [Hin|Hin]; [|auto].
    eapply reads_all_integers; eauto.
Qed.

Lemma check_rows_cases len rows :
  (check_rows len rows = Ok tt
   /\ Forall (fun row => List.length row = len) rows)
  \/ (check_rows len rows = Raise (ValueError msg_square)
      /\ exists row, In row rows /\ List.length row <> len).
Proof.
  induction rows as [|r rs IH]; simpl.
  - left. split; [reflexivity|constructor].
  - destruct (Nat.eqb_spec (List.length r) len) as [He|Hne]; simpl.
    + destruct IH as [[Hok Hall]|[Hr [row [Hin Hlen]]]].
      * left. split; [exact Hok|now constructor].
      * right. split; [exact Hr|]. exists row. auto.
    + right. split; [reflexivity|]. exists r. auto.
Qed.

Section Square.

Variable edges : list (list Z).
Hypothesis Hsquare :
  Forall (fun row => List.length row = List.length edges) edges.

Lemma square_cell i j :
  (i < List.length edges)%nat -> (j < List.length edges)%nat ->
  (row <- getitem edges i ;; getitem row j) = Ok (cell edges i j).
Proof.
  intros Hi Hj. rewrite (getitem_Ok edges i [] Hi). simpl.
  apply getitem_Ok.
  rewrite Forall_forall in Hsquare. rewrite Hsquare; [exact Hj|].
  now apply nth_In.
Qed.

Lemma check_cell_square i j :
  (i < List.length edges)%nat -> (j < List.length edges)%nat ->
  check_cell edges i j =
    if negb (cell edges i j =? cell edges j i)%Z
    then Raise (ValueError msg_symmetric)
    else if (i =? j)%nat && negb (cell edges i j =? 0)%Z
    then Raise (ValueError msg_diagonal)
    else if negb (i =? j)%nat && (cell edges i j =? 0)%Z
    then Raise (ValueError msg_off_diagonal)
    else Ok tt.
Proof.
  intros Hi Hj. unfold check_cell.
  pose proof (square_cell i j Hi Hj) as Hij.
  pose proof (square_cell j i Hj Hi) as Hji.
  destruct (getitem edges i) as [ri| |]; cbn [bind] in Hij |- *; try discriminate.
  rewrite Hij. cbn [bind].
  destruct (getitem edges j) as [rj| |]; cbn [bind] in Hji |- *; try discriminate.
  rewrite Hji. reflexivity.
Qed.

Lemma check_cell_cases i j :
  (i < List.length edges)%nat -> (j < List.length edges)%nat ->
  (check_cell edges i j = Ok tt
   /\ cell edges i j = cell edges j i
   /\ (i = j -> cell edges i j = 0%Z)
   /\ (i <> j -> cell edges i j <> 0%Z))
  \/ (exists msg, check_cell edges i j = Raise (ValueError msg)
      /\ (cell edges i j <> cell edges j i
          \/ (i = j /\ cell edges i j <> 0%Z)
          \/ (i <> j /\ cell edges i j = 0%Z))).
Proof.
  intros Hi Hj. rewrite (check_cell_square i j Hi Hj).
  destruct (Z.eqb_spec (cell edges i j) (cell edges j i)) as [Hs|Hs]; simpl.
  2:{ right. eexists. split; [reflexivity|]. now left. }
  destruct (Nat.eqb_spec i j) as [Hd|Hd];
    destruct (Z.eqb_spec (cell edges i j) 0) as [Hz|Hz]; simpl.
  - left. repeat split; auto; intros; try contradiction; congruence.
  - right. eexists. split; [reflexivity|]. right. left. auto.
  - right. eexists. split; [reflexivity|]. right. right. auto.
  - left. repeat split; auto; intros; try contradiction; congruence.
Qed.

Lemma check_matrix_cases :
  (check_matrix edges = Ok tt
   /\ (forall i j, (i < List.length edges)%nat -> (j < List.length edges)%nat ->
        cell edges i j = cell edges j i)
   /\ (forall i, (i < List.length edges)%nat -> cell edges i i = 0%Z)
   /\ (forall i j, (i < List.length edges)%nat -> (j < List.length edges)%nat ->
        i <> j -> cell edges i j <> 0%Z))
  \/ (exists msg, check_matrix edges = Raise (ValueError msg)
      /\ ((exists i j, (i < List.length edges)%nat /\ (j < List.length edges)%nat
                       /\ cell edges i j <> cell edges j i)
          \/ (exists i, (i < List.length edges)%nat /\ cell edges i i <> 0%Z)
          \/ (exists i j, (i < List.length edges)%nat /\ (j < List.length edges)%nat
                          /\ i <> j /\ cell edges i j = 0%Z))).
Proof.
  unfold check_matrix.
  destruct (for_each _ (seq 0 (List.length edges))) as [[]|e|] eqn:E.
  - left. split; [reflexivity|].
    assert (Hall : forall i j, (i < List.length edges)%nat ->
                               (j < List.length edges)%nat ->
                               check_cell edges i j = Ok tt).
    { intros i j Hi Hj.
      rewrite for_each_Ok in E.
      specialize (E i). rewrite in_seq in E.
      specialize (E ltac:(lia)). rewrite for_each_Ok in E.
      apply E. rewrite in_seq. lia. }
    repeat split.
    + intros i j Hi Hj.
      destruct (check_cell_cases i j Hi Hj) as [(_ & H & _)|[msg [H _]]];
        [exact H|rewrite Hall in H by assumption; discriminate].
    + intros i Hi.
      destruct (check_cell_cases i i Hi Hi) as [(_ & _ & H & _)|[msg [H _]]];
        [now apply H|rewrite Hall in H by assumption; discriminate].
    + intros i j Hi Hj Hne.
      destruct (check_cell_cases i j Hi Hj) as [(_ & _ & _ & H)|[msg [H _]]];
        [now apply H|rewrite Hall in H by assumption; discriminate].
  - right.
    apply for_each_Raise in E as [i [Hi E]].
    apply for_each_Raise in E as [j [Hj E]].
    rewrite in_seq in Hi, Hj.
    destruct (check_cell_cases i j) as [(H & _)|[msg [H D]]]; try lia;
      rewrite H in E; [discriminate|].
    injection E as <-. exists msg. split; [reflexivity|].
    destruct D as [D|[[-> D]|[D1 D2]]].
    + left. exists i, j. repeat split; try lia; try assumption.
    + right. left. exists j. split; [lia|exact D].
    + right. right. exists i, j. repeat split; try lia; assumption.
  - exfalso.
    apply for_each_Diverge in E as [i [Hi E]].
    apply for_each_Diverge in E as [j [Hj E]].
    rewrite in_seq in Hi, Hj.
    destruct (check_cell_cases i j) as [(H & _)|[msg [H _]]]; try lia;
      rewrite H in E; discriminate.
Qed.

End Square.

(** The [try] block either returns the values the tokens denote, which then
    pass every check, or raises a [ValueError] on a defective input. *)
Lemma parse_input_try_cases s1 s2 s3 s4 :
  (exists n cap ds es,
      parse_input_try int int_message s1 s2 s3 s4 = Ok (n, cap, ds, es)
      /\ parses int (s1, s2, s3, s4) (n, cap, ds, es)
      /\ valid_input n cap ds es)
  \/ (exists msg,
        parse_input_try int int_message s1 s2 s3 s4 = Raise (ValueError msg)
        /\ defective int (s1, s2, s3, s4)).
Proof.
  unfold parse_input_try.
  destruct (py_int_cases s1) as [[n Hn]|[msg Hn]]; rewrite Hn; simpl.
  2:{ right. exists msg. split; [reflexivity|]. left. exists s1.
      split; [simpl; auto|]. eapply py_int_Raise; eauto. }
  destruct (py_int_cases s2) as [[cap Hc]|[msg Hc]]; rewrite Hc; simpl.
  2:{ right. exists msg. split; [reflexivity|]. left. exists s2.
      split; [simpl; auto|]. eapply py_int_Raise; eauto. }
  destruct (map_int_cases (split "," s3)) as [[ds Hd]|[msg [t [Hd [Hin Ht]]]]];
    rewrite Hd; simpl.
  2:{ right. exists msg. split; [reflexivity|]. left. exists t.
      split; [|exact Ht]. simpl. right. right. apply in_or_app. now left. }
  apply py_int_Ok in Hn, Hc. apply map_int_Ok in Hd.
  destruct (parse_rows_cases (split ";" s4)) as [[es He]|[msg [t [He [Hin Ht]]]]].
  2:{ right. destruct (Z.eqb_spec (Z.of_nat (List.length ds)) n) as [Hlen|Hlen]; simpl.
      - rewrite He. simpl. exists msg. split; [reflexivity|]. left. exists t.
        split; [|exact Ht]. simpl. right. right. apply in_or_app. now right.
      - exists msg_demands. split; [reflexivity|]. left. exists t.
        split; [|exact Ht]. simpl. right. right. apply in_or_app. now right. }
  pose proof He as Hes. apply parse_rows_Ok in Hes.
  assert (Hp : parses int (s1, s2, s3, s4) (n, cap, ds, es)) by (simpl; auto).
  destruct (Z.eqb_spec (Z.of_nat (List.length ds)) n) as [Hlen|Hlen]; simpl.
  2:{ right. exists msg_demands. split; [reflexivity|]. right.
      exists (n, cap, ds, es). split; [exact Hp|]. left. exact Hlen. }
  rewrite He. simpl.
  destruct (Z.eqb_spec (Z.of_nat (List.length es)) (n + 1)) as [Hrows|Hrows]; simpl.
  2:{ right. exists msg_square. split; [reflexivity|]. right.
      exists (n, cap, ds, es). split; [exact Hp|]. right. left. left. exact Hrows. }
  destruct (check_rows_cases (List.length es) es) as [[Hr Hsq]|[Hr [row [Hin Hrow]]]];
    rewrite Hr; simpl.
  2:{ right. exists msg_square. split; [reflexivity|]. right.
      exists (n, cap, ds, es). split; [exact Hp|]. right. left. right.
      exists row. split; [exact Hin|]. lia. }
  destruct (check_matrix_cases es Hsq) as [(Hm & Hsym & Hdiag & Hoff)|[msg [Hm D]]];
    rewrite Hm; simpl.
  - left. exists n, cap, ds, es. split; [reflexivity|]. split; [exact Hp|].
    constructor; assumption.
  - right. exists msg. split; [reflexivity|]. right.
    exists (n, cap, ds, es). split; [exact Hp|]. right. right. exact D.
Qed.

Lemma valid_input_no_defect n cap ds es :
  valid_input n cap ds es ->
  ~ (demand_count_mismatch (n, cap, ds, es) \/ non_square (n, cap, ds, es)
     \/ asymmetric (n, cap, ds, es) \/ nonzero_diagonal (n, cap, ds, es)
     \/ zero_off_diagonal (n, cap, ds, es)).
Proof.
  intros [Hd Hr Hc Hs Hz Ho]. simpl.
  intros [H|[[H|[row [Hin H]]]|[[i [j (Hi & Hj & H)]]|[[i [Hi H]]|[i [j (Hi & Hj & Hne & H)]]]]]].
  - contradiction.
  - contradiction.
  - rewrite Forall_forall in Hc. rewrite (Hc row Hin) in H. contradiction.
  - apply H. now apply Hs.
  - apply H. now apply Hz.
  - now apply (Ho i j).
Qed.

Lemma parse_input_Ok s1 s2 s3 s4 p :
  parse_input int int_message s1 s2 s3 s4 = Ok p ->
  parse_input_try int int_message s1 s2 s3 s4 = Ok p.
Proof.
  unfold parse_input.
  destruct (parse_input_try int int_message s1 s2 s3 s4) as [a|[]|]; intros H;
    try discriminate; exact H.
Qed.

Lemma parse_input_Ok_valid s1 s2 s3 s4 n cap ds es :
  parse_input int int_message s1 s2 s3 s4 = Ok (n, cap, ds, es) ->
  parses int (s1, s2, s3, s4) (n, cap, ds, es) /\ valid_input n cap ds es.
Proof.
  intros H. apply parse_input_Ok in H.
  destruct (parse_input_try_cases s1 s2 s3 s4)
    as [(n' & cap' & ds' & es' & Ht & Hp & Hv)|[msg [Ht _]]];
    rewrite Ht in H; [|discriminate].
  injection H as <- <- <- <-. auto.
Qed.

(** C6: [(parse_input int int_message)] raises exactly on the defective inputs (a token that
    is not an integer, a demand count different from [num_customers], a
    matrix that is not (n+1)x(n+1), an asymmetric matrix, a nonzero diagonal
    entry or a zero off-diagonal entry); what it raises is a [ValueError]
    with one message prefixed by [Invalid input: ]; on every other input it
    returns the tuple of values that the tokens denote. *)
Theorem parse_input_raises_iff_defective s1 s2 s3 s4 :
  (forall e, parse_input int int_message s1 s2 s3 s4 = Raise e ->
             exists msg, e = ValueError ("Invalid input: " ^^ msg))
  /\ ((exists e, parse_input int int_message s1 s2 s3 s4 = Raise e)
      <-> defective int (s1, s2, s3, s4))
  /\ (~ defective int (s1, s2, s3, s4) ->
      exists p, parses int (s1, s2, s3, s4) p /\ parse_input int int_message s1 s2 s3 s4 = Ok p).
Proof.
  unfold parse_input.
  destruct (parse_input_try_cases s1 s2 s3 s4)
    as [(n & cap & ds & es & Ht & Hp & Hv)|[msg [Ht Hd]]]; rewrite Ht;
    cbv beta iota.
  - assert (Hnd : ~ defective int (s1, s2, s3, s4)).
    { intros [[t [Hin Hn]]|[p [Hp' D]]].
      - now apply (parses_all_integers _ _ t Hp).
      - rewrite (parses_functional _ _ _ Hp' Hp) in D.
        now apply (valid_input_no_defect _ _ _ _ Hv). }
    split; [intros e He; discriminate|]. split.
    + split; [intros [e He]; discriminate|intros Hd; contradiction].
    + intros _. exists (n, cap, ds, es). auto.
  - split; [intros e He; injection He as <-; exists msg; reflexivity|]. split.
    + split; [intros _; exact Hd|intros _; eauto].
    + intros Hnd. contradiction.
Qed.

(** C7, as the code has it: a tuple returned by [(parse_input int int_message)] has one demand
    per customer and an (n+1)x(n+1) symmetric matrix with a zero diagonal
    whose off-diagonal entries are all different from zero; nothing is
    checked about the sign of the capacity, of the demands or of the
    off-diagonal entries. *)
Theorem parse_input_returns_valid_input s1 s2 s3 s4 n cap ds es :
  parse_input int int_message s1 s2 s3 s4 = Ok (n, cap, ds, es) ->
  valid_input n cap ds es.
Proof.
  intros H. now apply parse_input_Ok_valid in H.
Qed.

End ParseInputFacts.

Lemma parse_input_returns_valid_input_witness :
  parse_input int_decimal int_decimal_message "2" "10" "3,4" "0,1,2;1,0,3;2,3,0"
  = Ok (2, 10, [3; 4], [[0; 1; 2]; [1; 0; 3]; [2; 3; 0]])%Z
  /\ valid_input 2 10 [3; 4]%Z [[0; 1; 2]; [1; 0; 3]; [2; 3; 0]]%Z.
Proof.
  split; [reflexivity|].
  apply (parse_input_returns_valid_input int_decimal int_decimal_message
           "2" "10" "3,4" "0,1,2;1,0,3;2,3,0").
  reflexivity.
Defined.

(** C7 as stated fails: a negative capacity, a negative demand and a negative
    off-diagonal distance are all accepted. *)
Lemma parse_input_sign_constraints_counterexample :
  ~ (forall s1 s2 s3 s4 p,
        parse_input int_decimal int_decimal_message s1 s2 s3 s4 = Ok p ->
        sign_constraints p).
Proof.
  intros H.
  specialize (H "1" "-5" "-3" "0,-1;-1,0" (1, -5, [-3], [[0; -1]; [-1; 0]])%Z eq_refl).
  destruct H as [H _]. discriminate H.
Qed.

(** ** create_data_model *)

(** C9: [create_data_model] fails exactly when the number of demands differs
    from the number of vehicles (which is [num_customers]); otherwise it
    returns the model, whose depot demand is 0, whose vehicle count is
    [num_customers] and whose capacities all equal [vehicle_capacity]. *)
Theorem create_data_model_fails_iff num_customers vehicle_capacity customer_demands edges :
  ((exists e, create_data_model num_customers vehicle_capacity customer_demands edges
              = Raise e)
   <-> Z.of_nat (List.length customer_demands) <> num_customers)
  /\ (Z.of_nat (List.length customer_demands) = num_customers ->
      exists data,
        create_data_model num_customers vehicle_capacity customer_demands edges = Ok data
        /\ distance_matrix data = edges
        /\ demands data = 0%Z :: customer_demands
        /\ nth_error (demands data) (depot data) = Some 0%Z
        /\ num_vehicles data = num_customers
        /\ Z.of_nat (List.length (vehicle_capacities data)) = num_vehicles data
        /\ (forall c, In c (vehicle_capacities data) -> c = vehicle_capacity)).
Proof.
  unfold create_data_model. cbn [demands List.length].
  destruct (Z.eqb_spec (Z.of_nat (S (List.length customer_demands))) (num_customers + 1))
    as [He|Hne].
  - split.
    + split; [intros [e H]; discriminate|intros H; lia].
    + intros Hlen. eexists. split; [reflexivity|]. cbn.
      repeat split; try reflexivity.
      * rewrite repeat_length. lia.
      * intros c Hc. exact (repeat_spec _ _ _ Hc).
  - split.
    + split; [intros _; lia|intros _; eauto].
    + intros Hlen. lia.
Qed.

(** ** Chains of successors *)

Section Chains.

Variable m : RoutingIndexManager.
Variable next : nat -> nat.

Lemma IsEnd_false i : IsEnd m i = false <-> (i < Size m)%nat.
Proof. unfold IsEnd. apply Nat.leb_gt. Qed.

Lemma IsEnd_true i : IsEnd m i = true <-> (Size m <= i)%nat.
Proof. unfold IsEnd. apply Nat.leb_le. Qed.

Lemma chain_mono f f' i p :
  chain f m next i = Some p -> (f <= f')%nat -> chain f' m next i = Some p.
Proof.
  revert f' i p. induction f as [|f IH]; intros f' i p H Hle; simpl in H.
  - destruct (IsEnd m i) eqn:E; [|discriminate].
    destruct f'; simpl; rewrite E; exact H.
  - destruct (IsEnd m i) eqn:E.
    + destruct f'; simpl; rewrite E; exact H.
    + destruct f' as [|f']; [lia|]. simpl. rewrite E.
      destruct (chain f m next (next i)) eqn:C; [|discriminate].
      rewrite (IH f' _ _ C) by lia. exact H.
Qed.

Lemma chain_run f i p :
  chain f m next i = Some p ->
  exists l e, p = l ++ [e] /\ run m next i l e /\ (Size m <= e)%nat
              /\ (List.length l <= f)%nat.
Proof.
  revert i p. induction f as [|f IH]; intros i p H; simpl in H.
  - destruct (IsEnd m i) eqn:E; [|discriminate]. injection H as <-.
    exists [], i. repeat split; [constructor|now apply IsEnd_true|simpl; lia].
  - destruct (IsEnd m i) eqn:E.
    + injection H as <-.
      exists [], i. repeat split; [constructor|now apply IsEnd_true|simpl; lia].
    + destruct (chain f m next (next i)) as [q|] eqn:C; [|discriminate].
      injection H as <-.
      destruct (IH _ _ C) as (l & e & -> & Hr & He & Hl).
      exists (i :: l), e. repeat split; [|exact He|simpl; lia].
      constructor; [now apply IsEnd_false|exact Hr].
Qed.

Lemma run_chain i l e f :
  run m next i l e -> (Size m <= e)%nat -> (List.length l <= f)%nat ->
  chain f m next i = Some (l ++ [e]).
Proof.
  intros Hr He. revert f. induction Hr as [e|i l e Hi Hr IH]; intros f Hf.
  - apply IsEnd_true in He. destruct f; simpl; rewrite He; reflexivity.
  - apply IsEnd_false in Hi. simpl in Hf.
    destruct f as [|f]; [lia|]. simpl. rewrite Hi.
    rewrite (IH He f) by lia. reflexivity.
Qed.

Lemma run_below i l e x : run m next i l e -> In x l -> (x < Size m)%nat.
Proof.
  induction 1 as [e|i l e Hi Hr IH]; simpl; [tauto|].
  intros [<-|Hx]; auto.
Qed.

Lemma run_functional i l e l' e' :
  run m next i l e -> (Size m <= e)%nat ->
  run m next i l' e' -> (Size m <= e')%nat ->
  l = l' /\ e = e'.
Proof.
  intros Hr He. revert l' e'.
  induction Hr as [e|i l e Hi Hr IH]; intros l' e' Hr' He'.
  - inversion Hr'; subst; [auto|lia].
  - inversion Hr'; subst; [lia|].
    destruct (IH He _ _ H0 He') as [-> ->]. auto.
Qed.

Lemma run_snoc i l x e :
  run m next i (l ++ [x]) e <-> run m next i l x /\ (x < Size m)%nat /\ next x = e.
Proof.
  revert i. induction l as [|a l IH]; intros i; simpl.
  - split.
    + intros H. inversion H as [|? ? ? Hi Hr]; subst.
      inversion Hr; subst. repeat split; [constructor|exact Hi].
    + intros (H & Hx & <-). inversion H; subst.
      constructor; [exact Hx|constructor].
  - split.
    + intros H. inversion H as [|? ? ? Hi Hr]; subst.
      apply IH in Hr as (Hr & Hx & He).
      repeat split; [constructor|..]; assumption.
    + intros (H & Hx & He). inversion H as [|? ? ? Hi Hr]; subst.
      constructor; [exact Hi|]. apply IH. auto.
Qed.

Lemma run_split i l1 x l2 e :
  run m next i (l1 ++ x :: l2) e ->
  run m next i l1 x /\ run m next x (x :: l2) e.
Proof.
  revert i. induction l1 as [|a l1 IH]; intros i H; simpl in H.
  - inversion H; subst. split; [constructor|exact H].
  - inversion H as [|? ? ? Hi Hr]; subst.
    destruct (IH _ Hr) as [H1 H2]. split; [|exact H2].
    constructor; assumption.
Qed.

Lemma run_NoDup i l e :
  run m next i l e -> (Size m <= e)%nat -> NoDup (l ++ [e]).
Proof.
  intros Hr He. induction Hr as [e|i l e Hi Hr IH].
  - simpl. constructor; [simpl; tauto|constructor].
  - simpl. constructor; [|now apply IH].
    intros Hin. apply in_app_or in Hin as [Hin|[<-|[]]]; [|lia].
    apply in_split in Hin as (l1 & l2 & ->).
    pose proof (run_step m next i _ e Hi Hr) as Hfull.
    destruct (run_split (next i) l1 i l2 e Hr) as [_ Hsuf].
    destruct (run_functional _ _ _ _ _ Hfull He Hsuf He) as [Heq _].
    apply (f_equal (@List.length nat)) in Heq.
    simpl in Heq. rewrite length_app in Heq. simpl in Heq. lia.
Qed.

(** With pairwise different successors, two runs arriving at the same
    index coincide on their common final stretch. *)
Hypothesis next_injective : forall a b,
  (a < Size m)%nat -> (b < Size m)%nat -> next a = next b -> a = b.

Lemma run_suffix la : forall a lb b e,
  run m next a la e -> run m next b lb e ->
  (List.length la <= List.length lb)%nat ->
  exists pre, lb = pre ++ la /\ run m next b pre a.
Proof.
  induction la as [|x la IH] using rev_ind; intros a lb b e Ha Hb Hlen.
  - inversion Ha; subst. exists lb. rewrite app_nil_r. auto.
  - apply run_snoc in Ha as (Ha & Hx & Hxe).
    destruct lb as [|y lb _] using rev_ind.
    { rewrite length_app in Hlen. simpl in Hlen. lia. }
    apply run_snoc in Hb as (Hb & Hy & Hye).
    assert (x = y) by (apply next_injective; congruence). subst y.
    rewrite !length_app in Hlen. simpl in Hlen.
    destruct (IH a lb b x Ha Hb ltac:(lia)) as (pre & -> & Hpre).
    exists pre. rewrite app_assoc. auto.
Qed.

End Chains.

(** ** Solutions of the routing model *)

Lemma NoDup_flat_map {A B : Type} (f : A -> list B) (key : B -> A) (l : list A) :
  NoDup l ->
  (forall a, In a l -> NoDup (f a)) ->
  (forall a b, In a l -> In b (f a) -> key b = a) ->
  NoDup (flat_map f l).
Proof.
  induction 1 as [|a l Ha Hl IH]; intros Hf Hk; simpl; [constructor|].
  apply NoDup_app.
  repeat split.
  - apply Hf. now left.
  - apply IH; intros; [apply Hf|apply Hk]; simpl; auto.
  - intros b Hb Hb'. apply in_flat_map in Hb' as (a' & Ha' & Hb').
    assert (key b = a) by (apply Hk; simpl; auto).
    assert (key b = a') by (apply Hk; simpl; auto).
    congruence.
Qed.

Section Routes.

Variable routing : RoutingModel.
Variable solution : Assignment.

Local Abbreviation m := (manager routing).
Local Abbreviation next := (NextVar solution).

Hypothesis depot_is_node : (depot_node m < num_nodes m)%nat.
Hypothesis some_vehicle : (0 < vehicles m)%nat.
Hypothesis feasible : Feasible routing solution.

Lemma Size_nodes : (num_nodes m <= Size m)%nat.
Proof. unfold Size. lia. Qed.

Lemma Start_below v : (v < vehicles m)%nat -> (Start m v < Size m)%nat.
Proof.
  intros Hv. unfold Start, Size.
  destruct (Nat.eqb_spec v 0); lia.
Qed.

Lemma Start_IsStart v : (v < vehicles m)%nat -> IsStart m (Start m v) = true.
Proof.
  intros Hv. unfold IsStart, Start, Size.
  destruct (Nat.eqb_spec v 0) as [->|Hne].
  - rewrite Nat.eqb_refl. reflexivity.
  - apply orb_true_iff. right. apply andb_true_iff.
    split; [apply Nat.leb_le|apply Nat.ltb_lt]; lia.
Qed.

Lemma customer_index c :
  (c < Size m)%nat -> IsStart m c = false ->
  (c < num_nodes m)%nat /\ c <> depot_node m.
Proof.
  unfold IsStart. intros Hc H.
  apply orb_false_iff in H as [H1 H2].
  apply Nat.eqb_neq in H1.
  apply andb_false_iff in H2 as [H2|H2];
    [apply Nat.leb_gt in H2|apply Nat.ltb_ge in H2]; lia.
Qed.

Lemma customer_not_start c :
  (c < num_nodes m)%nat -> c <> depot_node m -> IsStart m c = false.
Proof.
  unfold IsStart. intros Hc Hd.
  apply orb_false_iff. split; [now apply Nat.eqb_neq|].
  apply andb_false_iff. left. apply Nat.leb_gt. lia.
Qed.

(** Along a run the vehicle does not change, and every index after the
    first is a successor taken in its domain. *)
Lemma run_vehicle i l e x :
  run m next i l e -> In x (l ++ [e]) ->
  VehicleVar solution x = VehicleVar solution i.
Proof.
  induction 1 as [e|i l e Hi Hr IH]; simpl.
  - intros [<-|[]]. reflexivity.
  - intros [<-|Hx]; [reflexivity|].
    rewrite (IH Hx). now apply (vehicle_of_next _ _ feasible).
Qed.

Lemma run_domain i l e x :
  run m next i l e -> In x (tl (l ++ [e])) ->
  (x < Size m + vehicles m)%nat /\ IsStart m x = false.
Proof.
  induction 1 as [e|i l e Hi Hr IH]; simpl; [tauto|].
  intros Hx.
  inversion Hr as [e' E1 E2|i' l' e' Hi' Hr' E1 E2]; subst.
  - destruct Hx as [<-|[]]. now apply (next_domain _ _ feasible).
  - simpl in Hx. destruct Hx as [<-|Hx].
    + now apply (next_domain _ _ feasible).
    + apply IH. exact Hx.
Qed.

Lemma run_to_end i l e :
  run m next i l e -> (Size m <= e)%nat -> (i < Size m + vehicles m)%nat ->
  (VehicleVar solution i < vehicles m)%nat
  /\ e = End m (VehicleVar solution i).
Proof.
  intros Hr He Hi.
  assert (Hlt : (e < Size m + vehicles m)%nat).
  { inversion Hr as [e' E1 E2|i' l' e' Hi' Hr' E1 E2]; subst; [exact Hi|].
    apply (run_domain _ _ _ e Hr).
    simpl. apply in_or_app. right. now left. }
  assert (Hv : VehicleVar solution e = VehicleVar solution i).
  { apply (run_vehicle _ _ _ e Hr). apply in_or_app. right. now left. }
  assert (Hend : e = End m (e - Size m)) by (unfold End; lia).
  assert (Hvlt : (e - Size m < vehicles m)%nat) by lia.
  pose proof (vehicle_of_end _ _ feasible _ Hvlt) as Hve.
  rewrite <- Hend in Hve. rewrite <- Hv, Hve. auto.
Qed.

Lemma index_run i :
  (i < Size m)%nat ->
  exists l e, run m next i (i :: l) e /\ (Size m <= e)%nat
              /\ (List.length (i :: l) <= Size m)%nat.
Proof.
  intros Hi.
  destruct (chain (Size m) m next i) as [p|] eqn:C;
    [|now apply (no_cycle _ _ feasible) in C].
  apply chain_run in C as (l & e & -> & Hr & He & Hl).
  inversion Hr as [e' E1 E2|i' l' e' Hi' Hr' E1 E2]; subst; [lia|].
  exists l', e. auto.
Qed.

(** The chain of a vehicle goes from its start to its own end, through
    customers only, all served by that vehicle, none twice. *)
Lemma vehicle_chain_shape v :
  (v < vehicles m)%nat ->
  vehicle_chain routing solution v
    = Start m v :: visited routing solution v ++ [End m v]
  /\ run m next (Start m v) (Start m v :: visited routing solution v) (End m v)
  /\ (List.length (visited routing solution v) < Size m)%nat
  /\ NoDup (visited routing solution v)
  /\ (forall c, In c (visited routing solution v) ->
       (c < num_nodes m)%nat /\ c <> depot_node m
       /\ VehicleVar solution c = v).
Proof.
  intros Hv. pose proof (Start_below v Hv) as Hs.
  destruct (index_run _ Hs) as (l & e & Hr & He & Hl).
  destruct (run_to_end _ _ _ Hr He ltac:(lia)) as [_ Hev].
  rewrite (vehicle_of_start _ _ feasible v Hv) in Hev. subst e.
  assert (Hc : vehicle_chain routing solution v = Start m v :: l ++ [End m v]).
  { unfold vehicle_chain.
    rewrite (run_chain m next _ _ _ (Size m) Hr He) by lia. reflexivity. }
  assert (Hvis : visited routing solution v = l).
  { unfold visited. rewrite Hc. simpl. apply removelast_last. }
  rewrite Hvis. split; [exact Hc|]. split; [exact Hr|].
  split; [simpl in Hl; lia|].
  pose proof (run_NoDup m next _ _ _ Hr He) as Hnd. simpl in Hnd.
  apply NoDup_cons_iff in Hnd as [_ Hnd].
  apply NoDup_app_remove_r in Hnd.
  split; [exact Hnd|].
  intros c Hc'.
  assert (Hdom : (c < Size m + vehicles m)%nat /\ IsStart m c = false).
  { apply (run_domain _ _ _ c Hr). simpl. apply in_or_app. now left. }
  assert (Hlt : (c < Size m)%nat).
  { apply (run_below m next _ _ _ c Hr). now right. }
  destruct (customer_index c Hlt (proj2 Hdom)) as [H1 H2].
  repeat split; [exact H1|exact H2|].
  rewrite (run_vehicle _ _ _ c Hr).
  - now apply (vehicle_of_start _ _ feasible).
  - apply in_or_app. left. now right.
Qed.

(** Every customer is on the chain of the vehicle that serves it. *)
Lemma customer_visited c :
  (c < num_nodes m)%nat -> c <> depot_node m ->
  (VehicleVar solution c < vehicles m)%nat
  /\ In c (visited routing solution (VehicleVar solution c)).
Proof.
  intros Hc Hd. pose proof Size_nodes as HN.
  assert (Hlt : (c < Size m)%nat) by lia.
  destruct (index_run _ Hlt) as (lc & e & Hr & He & _).
  destruct (run_to_end _ _ _ Hr He ltac:(lia)) as [Hv Hev].
  split; [exact Hv|]. subst e.
  set (v := VehicleVar solution c) in *.
  destruct (vehicle_chain_shape v Hv) as (_ & Hrv & _).
  pose proof (customer_not_start c Hc Hd) as Hns.
  pose proof (Start_IsStart v Hv) as Hst.
  destruct (Nat.le_gt_cases (List.length (c :: lc))
              (List.length (Start m v :: visited routing solution v))) as [Hle|Hgt].
  - destruct (run_suffix m next (next_all_different _ _ feasible)
                _ _ _ _ _ Hr Hrv Hle) as (pre & Heq & _).
    destruct pre as [|s pre]; simpl in Heq.
    + injection Heq as Heq _. rewrite <- Heq in Hns. congruence.
    + injection Heq as _ Heq. rewrite Heq. apply in_or_app. right. now left.
  - destruct (run_suffix m next (next_all_different _ _ feasible)
                _ _ _ _ _ Hrv Hr ltac:(lia)) as (pre & Heq & _).
    destruct pre as [|c' pre]; simpl in Heq.
    + injection Heq as Heq _. rewrite Heq in Hns. congruence.
    + injection Heq as _ Heq.
      assert (Hin : In (Start m v) (tl ((c :: lc) ++ [End m v]))).
      { simpl. rewrite Heq. apply in_or_app. left.
        apply in_or_app. right. now left. }
      apply (run_domain _ _ _ _ Hr) in Hin as [_ Hin]. congruence.
Qed.

(** Coverage: the vehicles' chains, put together, hold every customer
    exactly once. *)
Lemma visited_all_customers :
  Permutation (flat_map (visited routing solution) (seq 0 (vehicles m)))
              (customers m).
Proof.
  apply NoDup_Permutation.
  - apply (NoDup_flat_map _ (VehicleVar solution)).
    + apply seq_NoDup.
    + intros v Hv. rewrite in_seq in Hv.
      now apply vehicle_chain_shape.
    + intros v c Hv Hc. rewrite in_seq in Hv.
      destruct (vehicle_chain_shape v ltac:(lia)) as (_ & _ & _ & _ & H).
      now apply H.
  - unfold customers. apply NoDup_filter, seq_NoDup.
  - intros c. unfold customers. rewrite filter_In, in_seq, in_flat_map.
    rewrite negb_true_iff, Nat.eqb_neq. split.
    + intros (v & Hv & Hc). rewrite in_seq in Hv.
      destruct (vehicle_chain_shape v ltac:(lia)) as (_ & _ & _ & _ & H).
      destruct (H c Hc) as (H1 & H2 & _). split; [lia|exact H2].
    + intros [[_ Hc] Hd]. simpl in Hc.
      destruct (customer_visited c Hc Hd) as [Hv Hin].
      exists (VehicleVar solution c). split; [|exact Hin].
      rewrite in_seq. lia.
Qed.

End Routes.

(** ** The decoder *)

Lemma append_assoc (a b c : string) : (a ^^ b) ^^ c = a ^^ (b ^^ c).
Proof. induction a as [|x a IH]; simpl; [reflexivity|now rewrite IH]. Qed.

Lemma append_nil_r (a : string) : a ^^ EmptyString = a.
Proof. induction a as [|x a IH]; simpl; [reflexivity|now rewrite IH]. Qed.

Lemma stops_from_nodes data m prev load dist l :
  map stop_node (stops_from data m prev load dist l) = map (IndexToNode m) l.
Proof.
  revert prev load dist. induction l as [|x l IH]; intros; simpl; [reflexivity|].
  now rewrite IH.
Qed.

Lemma stops_from_length data m prev load dist l :
  List.length (stops_from data m prev load dist l) = List.length l.
Proof.
  revert prev load dist. induction l as [|x l IH]; intros; simpl; [reflexivity|].
  now rewrite IH.
Qed.

Lemma stops_from_app data m prev load dist l1 l2 :
  stops_from data m prev load dist (l1 ++ l2)
  = stops_from data m prev load dist l1
    ++ (let '(p, ld, ds) := state_after data m prev load dist l1 in
        stops_from data m p ld ds l2).
Proof.
  revert prev load dist. induction l1 as [|x l1 IH]; intros; simpl.
  - reflexivity.
  - now rewrite IH.
Qed.

Lemma state_after_load data m prev load dist l :
  snd (fst (state_after data m prev load dist l))
  = (load + sum_Z (map (fun x => demand_of data (IndexToNode m x)) l))%Z.
Proof.
  revert prev load dist. induction l as [|x l IH]; intros; simpl.
  - lia.
  - rewrite IH. lia.
Qed.

(** The first load is the first node's demand and every later load adds the
    demand of the node reached. *)
Lemma stops_from_first data m prev load dist l s :
  nth_error (stops_from data m prev load dist l) 0 = Some s ->
  stop_load s = (load + demand_of data (stop_node s))%Z.
Proof.
  destruct l as [|x l]; simpl; [discriminate|].
  intros H. injection H as <-. reflexivity.
Qed.

Lemma stops_from_step data m prev load dist l k s s' :
  nth_error (stops_from data m prev load dist l) k = Some s ->
  nth_error (stops_from data m prev load dist l) (S k) = Some s' ->
  stop_load s' = (stop_load s + demand_of data (stop_node s'))%Z.
Proof.
  revert prev load dist k. induction l as [|x l IH]; intros prev load dist k;
    simpl; [destruct k; discriminate|].
  destruct k as [|k]; simpl.
  - intros H H'. injection H as <-.
    apply stops_from_first in H'. exact H'.
  - apply IH.
Qed.

Section Decoder.

Variable data : Data.
Variable solution : Assignment.

Local Abbreviation routing := (routing_model data).
Local Abbreviation m := (manager (routing_model data)).
Local Abbreviation next := (NextVar solution).

Hypothesis depot_is_node : (depot data < List.length (distance_matrix data))%nat.
Hypothesis demands_length :
  List.length (demands data) = List.length (distance_matrix data).
Hypothesis matrix_square :
  Forall (fun row => List.length row = List.length (distance_matrix data))
    (distance_matrix data).

Lemma IndexToNode_node x :
  (IndexToNode m x < List.length (distance_matrix data))%nat.
Proof.
  unfold IndexToNode. simpl.
  destruct (Nat.ltb_spec x (List.length (distance_matrix data))); lia.
Qed.

Lemma demand_lookup x :
  getitem (demands data) (IndexToNode m x) = Ok (demand_of data (IndexToNode m x)).
Proof.
  apply getitem_Ok. rewrite demands_length. apply IndexToNode_node.
Qed.

Lemma arc_lookup a b v :
  GetArcCostForVehicle routing a b v = Ok (arc_of data m a b).
Proof.
  unfold GetArcCostForVehicle, arc_of.
  destruct (a =? b)%nat; [reflexivity|]. cbn [arc_cost_evaluator routing_model].
  rewrite (square_cell _ matrix_square) by apply IndexToNode_node.
  reflexivity.
Qed.

Lemma visit_Ok v w :
  visit data routing v w
  = Ok {| index := index w;
          previous_index := previous_index w;
          route_load := (route_load w + demand_of data (IndexToNode m (index w)))%Z;
          route_distance :=
            (route_distance w + arc_of data m (previous_index w) (index w))%Z;
          route := route w
                   ++ [(IndexToNode m (index w),
                        (route_load w + demand_of data (IndexToNode m (index w)))%Z,
                        (route_distance w
                         + arc_of data m (previous_index w) (index w))%Z)] |}.
Proof.
  unfold visit. rewrite demand_lookup. cbn [bind].
  rewrite arc_lookup. reflexivity.
Qed.

Lemma walk_run fuel v i l e :
  run m next i l e -> (Size m <= e)%nat ->
  forall prev load dist r, (List.length l <= fuel)%nat ->
  walk fuel data routing solution v
    {| index := i; previous_index := prev; route_load := load;
       route_distance := dist; route := r |}
  = Ok (let '(p, ld, ds) := state_after data m prev load dist l in
        {| index := e; previous_index := p; route_load := ld;
           route_distance := ds;
           route := r ++ stops_from data m prev load dist l |}).
Proof.
  intros Hr He. revert fuel.
  induction Hr as [e|i l e Hi Hr IH]; intros fuel prev load dist r Hf.
  - apply IsEnd_true in He.
    destruct fuel; cbn [walk index]; rewrite He; cbn [state_after stops_from];
      rewrite app_nil_r; reflexivity.
  - apply IsEnd_false in Hi. simpl in Hf.
    destruct fuel as [|fuel]; [lia|].
    cbn [walk index]. rewrite Hi. rewrite visit_Ok. cbn [bind].
    cbn [index previous_index route_load route_distance route].
    rewrite (IH He fuel) by lia.
    cbn [state_after stops_from]. rewrite <- app_assoc. reflexivity.
Qed.

Lemma vehicle_route_run fuel v l e :
  run m next (Start m v) l e -> (Size m <= e)%nat ->
  (List.length l <= fuel)%nat ->
  exists w, vehicle_route fuel data routing solution v = Ok w
            /\ index w = e
            /\ route w = stops_from data m (Start m v) 0 0 (l ++ [e]).
Proof.
  intros Hr He Hf. unfold vehicle_route.
  rewrite (walk_run fuel v _ _ _ Hr He) by exact Hf. cbn [bind].
  rewrite visit_Ok. eexists. split; [reflexivity|].
  rewrite stops_from_app.
  destruct (state_after data m (Start m v) 0 0 l) as [[p ld] ds].
  cbn. auto.
Qed.

End Decoder.

(** ** Decoding a solution of the model *)

Section FeasibleDecoding.

Variable data : Data.
Variable solution : Assignment.

Local Abbreviation routing := (routing_model data).
Local Abbreviation m := (manager (routing_model data)).
Local Abbreviation next := (NextVar solution).

Hypothesis depot_is_node : (depot data < List.length (distance_matrix data))%nat.
Hypothesis demands_length :
  List.length (demands data) = List.length (distance_matrix data).
Hypothesis matrix_square :
  Forall (fun row => List.length row = List.length (distance_matrix data))
    (distance_matrix data).
Hypothesis depot_demand : demand_of data (depot data) = 0%Z.
Hypothesis feasible : Feasible routing solution.

Lemma Start_lt v : (v < vehicles m)%nat -> (Start m v < Size m)%nat.
Proof.
  intros Hv. unfold Start, Size. simpl in *.
  destruct (Nat.eqb_spec v 0); lia.
Qed.

Lemma IndexToNode_Start v :
  (v < vehicles m)%nat -> IndexToNode m (Start m v) = depot data.
Proof.
  intros Hv. unfold IndexToNode, Start. simpl.
  destruct (Nat.eqb_spec v 0) as [->|Hne].
  - destruct (Nat.ltb_spec (depot data) (List.length (distance_matrix data)));
      [reflexivity|lia].
  - destruct (Nat.ltb_spec (List.length (distance_matrix data) + v - 1)
                (List.length (distance_matrix data))); [lia|reflexivity].
Qed.

Lemma IndexToNode_End v :
  (v < vehicles m)%nat -> IndexToNode m (End m v) = depot data.
Proof.
  intros Hv. unfold IndexToNode, End, Size. simpl in *.
  destruct (Nat.ltb_spec
              (List.length (distance_matrix data)
               + Z.to_nat (num_vehicles data) - 1 + v)
              (List.length (distance_matrix data))); [lia|reflexivity].
Qed.

Lemma IndexToNode_customer c :
  (c < num_nodes m)%nat -> IndexToNode m c = c.
Proof.
  intros Hc. unfold IndexToNode.
  destruct (Nat.ltb_spec c (num_nodes m)); [reflexivity|lia].
Qed.

Lemma chain_shape v :
  (v < vehicles m)%nat ->
  vehicle_chain routing solution v
    = Start m v :: visited routing solution v ++ [End m v]
  /\ run m next (Start m v) (Start m v :: visited routing solution v) (End m v)
  /\ (List.length (visited routing solution v) < Size m)%nat
  /\ NoDup (visited routing solution v)
  /\ (forall c, In c (visited routing solution v) ->
       (c < num_nodes m)%nat /\ c <> depot_node m
       /\ VehicleVar solution c = v).
Proof.
  intros Hv. apply vehicle_chain_shape; [exact depot_is_node|lia|exact feasible|exact Hv].
Qed.

(** With enough steps allowed, the decoder finishes a vehicle's route at
    the vehicle's end, with the stops of its chain. *)
Lemma vehicle_route_feasible fuel v :
  (v < vehicles m)%nat -> (Size m <= fuel)%nat ->
  exists w, vehicle_route fuel data routing solution v = Ok w
            /\ index w = End m v
            /\ route w = decoded_route data routing solution v.
Proof.
  intros Hv Hf.
  destruct (chain_shape v Hv) as (Hc & Hr & Hl & _).
  destruct (vehicle_route_run data solution depot_is_node demands_length
              matrix_square fuel v _ _ Hr) as (w & Hw & Hi & Hroute).
  - unfold End. lia.
  - simpl. lia.
  - exists w. split; [exact Hw|]. split; [exact Hi|].
    unfold decoded_route. rewrite Hc. exact Hroute.
Qed.

Lemma vehicle_routes_feasible fuel vs :
  (forall v, In v vs -> (v < vehicles m)%nat) -> (Size m <= fuel)%nat ->
  exists ws, vehicle_routes fuel data routing solution vs = Ok ws
             /\ Forall2 (fun v w => index w = End m v
                                    /\ route w = decoded_route data routing solution v)
                  vs ws.
Proof.
  intros Hvs Hf. induction vs as [|v vs IH]; simpl.
  - exists []. split; [reflexivity|constructor].
  - destruct (vehicle_route_feasible fuel v) as (w & Hw & Hi & Hr);
      [apply Hvs; now left|exact Hf|].
    destruct IH as (ws & Hws & Hall); [intros; apply Hvs; now right|].
    rewrite Hw. cbn [bind]. rewrite Hws. cbn [bind].
    exists (w :: ws). split; [reflexivity|]. constructor; auto.
Qed.

(** The nodes of a decoded route: the depot, the customers served, the depot. *)
Lemma decoded_route_nodes v :
  (v < vehicles m)%nat ->
  map stop_node (decoded_route data routing solution v)
  = depot data :: visited routing solution v ++ [depot data].
Proof.
  intros Hv. destruct (chain_shape v Hv) as (Hc & _ & _ & _ & Hcust).
  unfold decoded_route. rewrite stops_from_nodes, Hc.
  cbn [map]. rewrite map_app. cbn [map].
  rewrite IndexToNode_Start, IndexToNode_End by exact Hv.
  f_equal. f_equal.
  rewrite <- (map_id (visited routing solution v)) at 2.
  apply map_ext_in. intros c Hin.
  apply IndexToNode_customer. now apply Hcust.
Qed.

Lemma decoded_route_length v :
  (v < vehicles m)%nat ->
  List.length (decoded_route data routing solution v)
  = S (S (List.length (visited routing solution v))).
Proof.
  intros Hv.
  rewrite <- (length_map stop_node), (decoded_route_nodes v Hv).
  simpl. rewrite length_app. simpl. lia.
Qed.

(** The load carried along a run is the dimension's cumulated value at the
    next index, hence within the bounds of the vehicle's capacity. *)
Lemma run_loads i l e :
  run m next i l e -> (i < Size m + vehicles m)%nat ->
  forall prev dist,
  Forall (fun s => (0 <= stop_load s
                      <= nth (VehicleVar solution i) (vehicle_capacities data) 0)%Z)
    (stops_from data m prev (CumulVar solution i) dist l)
  /\ snd (fst (state_after data m prev (CumulVar solution i) dist l))
     = CumulVar solution e
  /\ (e < Size m + vehicles m)%nat
  /\ VehicleVar solution e = VehicleVar solution i.
Proof.
  induction 1 as [e|i l e Hi Hr IH]; intros Hlt prev dist.
  - simpl. auto.
  - destruct (next_domain _ _ feasible i Hi) as [Hn _].
    destruct (cumul_of_next _ _ feasible i Hi) as (t & Ht & Hc).
    change (dimension_transit routing i)
      with (getitem (demands data) (IndexToNode m i)) in Ht.
    change (dimension_slack_max routing) with 0%Z in Hc.
    rewrite (demand_lookup data depot_is_node demands_length) in Ht.
    assert (Et : t = demand_of data (IndexToNode m i)) by congruence.
    rewrite Et in Hc. clear Ht Et t.
    assert (Hload : (CumulVar solution i + demand_of data (IndexToNode m i))%Z
                    = CumulVar solution (next i)) by lia.
    pose proof (vehicle_of_next _ _ feasible i Hi) as Hveh.
    cbn [stops_from state_after]. rewrite Hload.
    destruct (IH Hn i (dist + arc_of data m prev i)%Z) as (Hall & Hst & He & Hv).
    rewrite Hveh in Hall, Hv.
    repeat split; try assumption.
    constructor; [|exact Hall].
    unfold stop_load. cbn [fst snd].
    pose proof (cumul_bounds _ _ feasible (next i) Hn) as Hb.
    simpl dimension_capacities in Hb. rewrite Hveh in Hb. exact Hb.
Qed.

Lemma decoded_route_loads v s :
  (v < vehicles m)%nat ->
  In s (decoded_route data routing solution v) ->
  (0 <= stop_load s <= nth v (vehicle_capacities data) 0)%Z.
Proof.
  intros Hv Hin. destruct (chain_shape v Hv) as (Hc & Hr & _).
  assert (Hs : (Start m v < Size m + vehicles m)%nat).
  { pose proof (Start_lt v Hv). lia. }
  destruct (run_loads _ _ _ Hr Hs (Start m v) 0%Z) as (Hall & Hst & He & Hve).
  rewrite (cumul_of_start _ _ feasible eq_refl v Hv) in Hall, Hst.
  rewrite (vehicle_of_start _ _ feasible v Hv) in Hall.
  unfold decoded_route in Hin. rewrite Hc in Hin.
  change (Start m v :: visited routing solution v ++ [End m v])
    with ((Start m v :: visited routing solution v) ++ [End m v]) in Hin.
  rewrite stops_from_app in Hin.
  apply in_app_or in Hin as [Hin|Hin].
  - rewrite Forall_forall in Hall. now apply Hall.
  - destruct (state_after data m (Start m v) 0 0
                (Start m v :: visited routing solution v)) as [[p ld] ds].
    cbn [fst snd] in Hst. cbn [stops_from] in Hin.
    destruct Hin as [<-|[]]. unfold stop_load. cbn [fst snd].
    rewrite IndexToNode_End by exact Hv. rewrite depot_demand, Z.add_0_r, Hst.
    pose proof (cumul_bounds _ _ feasible (End m v) He) as Hb.
    rewrite (vehicle_of_end _ _ feasible v Hv) in Hb. exact Hb.
Qed.

Lemma decoded_route_last v :
  (v < vehicles m)%nat ->
  let l := Start m v :: visited routing solution v in
  let '(p, ld, ds) := state_after data m (Start m v) 0 0 l in
  last_stop (decoded_route data routing solution v)
  = (depot data, ld, (ds + arc_of data m p (End m v))%Z).
Proof.
  intros Hv l. destruct (chain_shape v Hv) as (Hc & _).
  unfold decoded_route. rewrite Hc.
  change (Start m v :: visited routing solution v ++ [End m v])
    with (l ++ [End m v]).
  rewrite stops_from_app.
  destruct (state_after data m (Start m v) 0 0 l) as [[p ld] ds].
  cbn [stops_from]. unfold last_stop. rewrite last_last.
  rewrite IndexToNode_End by exact Hv. rewrite depot_demand, Z.add_0_r.
  reflexivity.
Qed.

(** The final load of a route is the total demand of the customers served. *)
Lemma decoded_route_final_load v :
  (v < vehicles m)%nat ->
  stop_load (last_stop (decoded_route data routing solution v))
  = sum_Z (map (demand_of data) (visited routing solution v)).
Proof.
  intros Hv. pose proof (decoded_route_last v Hv) as H. cbv zeta in H.
  pose proof (state_after_load data m (Start m v) 0 0
                (Start m v :: visited routing solution v)) as Hl.
  destruct (state_after data m (Start m v) 0 0
              (Start m v :: visited routing solution v)) as [[p ld] ds].
  rewrite H. unfold stop_load. cbn [fst snd] in *. rewrite Hl.
  cbn [map sum_Z fold_right].
  rewrite IndexToNode_Start by exact Hv. rewrite depot_demand.
  destruct (chain_shape v Hv) as (_ & _ & _ & _ & Hcust).
  rewrite (map_ext_in _ (demand_of data)); [unfold sum_Z; lia|].
  intros c Hin. rewrite IndexToNode_customer; [reflexivity|now apply Hcust].
Qed.

(** A vehicle that serves nobody travels the depot's self distance. *)
Lemma decoded_route_empty v :
  (v < vehicles m)%nat -> visited routing solution v = [] ->
  stop_distance (last_stop (decoded_route data routing solution v))
  = as_int64 (cell (distance_matrix data) (depot data) (depot data)).
Proof.
  intros Hv Hnil. pose proof (decoded_route_last v Hv) as H. cbv zeta in H.
  rewrite Hnil in H. cbn [state_after] in H. rewrite H.
  unfold stop_distance. cbn [snd]. unfold arc_of.
  rewrite Nat.eqb_refl.
  assert (Hne : (Start m v =? End m v)%nat = false).
  { apply Nat.eqb_neq. pose proof (Start_lt v Hv).
    unfold End. lia. }
  rewrite Hne, IndexToNode_Start, IndexToNode_End by exact Hv. lia.
Qed.

End FeasibleDecoding.

(** ** The report *)

Lemma for_vehicles_routes fuel data routing solution vs st :
  for_vehicles fuel data routing solution vs st
  = (ws <- vehicle_routes fuel data routing solution vs ;;
     Ok (fold_left (account routing) ws st)).
Proof.
  revert st. induction vs as [|v vs IH]; intros st; simpl; [reflexivity|].
  destruct (vehicle_route fuel data routing solution v) as [w| |]; simpl;
    try reflexivity.
  rewrite IH.
  destruct (vehicle_routes fuel data routing solution vs); reflexivity.
Qed.

Lemma account_distance routing st w :
  total_distance (account routing st w) = (total_distance st + final_distance w)%Z.
Proof.
  unfold account, final_distance. cbn [total_distance].
  destruct (route w); reflexivity.
Qed.

Lemma account_load routing st w :
  total_load (account routing st w) = (total_load st + final_load w)%Z.
Proof.
  unfold account, final_load. cbn [total_load].
  destruct (route w); reflexivity.
Qed.

(** The outer loop adds every route to the totals, and gives the routes it
    reports consecutive trip numbers. *)
Lemma account_fold routing ws : forall st k,
  trip_number st = Z.of_nat k ->
  let st' := fold_left (account routing) ws st in
  let rep := filter reported ws in
  total_distance st' = (total_distance st + sum_Z (map final_distance ws))%Z
  /\ total_load st' = (total_load st + sum_Z (map final_load ws))%Z
  /\ result_text st'
     = result_text st
       ^^ report_blocks routing (combine (map Z.of_nat (seq k (List.length rep))) rep)
  /\ trip_number st' = Z.of_nat (k + List.length rep).
Proof.
  induction ws as [|w ws IH]; intros st k Hk; cbn zeta.
  - simpl. rewrite append_nil_r, Nat.add_0_r. repeat split; try lia; try exact Hk.
  - cbn [fold_left map sum_Z fold_right filter].
    fold (sum_Z (map final_distance ws)). fold (sum_Z (map final_load ws)).
    destruct (reported w) eqn:R.
    + assert (Hk' : trip_number (account routing st w) = Z.of_nat (S k)).
      { unfold account. cbn [trip_number]. fold (reported w). rewrite R. lia. }
      destruct (IH _ _ Hk') as (Hd & Hl & Ht & Hn). cbv zeta in Hd, Hl, Ht, Hn.
      rewrite Hd, Hl, Ht, Hn, account_distance, account_load.
      repeat split; try lia.
      * unfold account at 1. cbn [result_text]. fold (reported w). rewrite R.
        cbn [List.length seq map combine report_blocks].
        rewrite Hk, append_assoc. reflexivity.
      * cbn [List.length]. f_equal. lia.
    + assert (Hk' : trip_number (account routing st w) = Z.of_nat k).
      { unfold account. cbn [trip_number]. fold (reported w). rewrite R. exact Hk. }
      destruct (IH _ _ Hk') as (Hd & Hl & Ht & Hn). cbv zeta in Hd, Hl, Ht, Hn.
      rewrite Hd, Hl, Ht, Hn, account_distance, account_load.
      repeat split; try lia.
      unfold account at 1. cbn [result_text]. fold (reported w). rewrite R.
      reflexivity.
Qed.

Lemma print_solution_report fuel data routing solution :
  print_solution fuel data routing solution
  = (ws <- vehicle_routes fuel data routing solution
             (seq 0 (Z.to_nat (num_vehicles data))) ;;
     Ok (report_of routing ws)).
Proof.
  unfold print_solution. rewrite for_vehicles_routes.
  destruct (vehicle_routes fuel data routing solution _) as [ws| |];
    cbn [bind]; try reflexivity.
  destruct (account_fold routing ws initial_report 1 eq_refl) as (Hd & Hl & Ht & _).
  cbv zeta in Hd, Hl, Ht. rewrite Hd, Hl, Ht. reflexivity.
Qed.

(** ** Sums *)

Lemma sum_Z_app l1 l2 : sum_Z (l1 ++ l2) = (sum_Z l1 + sum_Z l2)%Z.
Proof.
  induction l1 as [|x l1 IH]; simpl; [reflexivity|].
  unfold sum_Z in *. simpl. lia.
Qed.

Lemma sum_Z_Permutation l1 l2 : Permutation l1 l2 -> sum_Z l1 = sum_Z l2.
Proof.
  induction 1; unfold sum_Z in *; simpl; lia.
Qed.

Lemma sum_Z_flat_map {A B : Type} (f : B -> Z) (g : A -> list B) (l : list A) :
  sum_Z (map f (flat_map g l)) = sum_Z (map (fun a => sum_Z (map f (g a))) l).
Proof.
  induction l as [|a l IH]; simpl; [reflexivity|].
  rewrite map_app, sum_Z_app, IH. reflexivity.
Qed.


Lemma sum_Z_bounded {A : Type} (f : A -> Z) (b : Z) (l : list A) :
  (forall a, In a l -> (f a <= b)%Z) ->
  (sum_Z (map f l) <= Z.of_nat (List.length l) * b)%Z.
Proof.
  induction l as [|a l IH]; intros H; [simpl; lia|].
  cbn [map List.length]. unfold sum_Z in *. cbn [fold_right].
  specialize (IH ltac:(intros; apply H; simpl; auto)).
  specialize (H a ltac:(simpl; auto)). nia.
Qed.

Lemma flat_map_filter {A B : Type} (f : A -> list B) (p : A -> bool) (l : list A) :
  (forall a, In a l -> p a = false -> f a = []) ->
  flat_map f (filter p l) = flat_map f l.
Proof.
  induction l as [|a l IH]; intros H; simpl; [reflexivity|].
  destruct (p a) eqn:P; simpl.
  - rewrite IH; [reflexivity|]. intros; apply H; simpl; auto.
  - rewrite IH by (intros; apply H; simpl; auto).
    rewrite (H a) by (simpl; auto). reflexivity.
Qed.

Lemma map_nth_seq (l : list Z) (d : Z) :
  map (fun c => nth c (d :: l) 0%Z) (seq 1 (List.length l)) = l.
Proof.
  rewrite <- seq_shift, map_map.
  induction l as [|x l IH]; [reflexivity|].
  cbn [List.length seq map]. rewrite <- seq_shift, map_map. simpl.
  f_equal. simpl in IH. exact IH.
Qed.

Lemma customers_seq n :
  customers {| num_nodes := S n; vehicles := n; depot_node := 0 |} = seq 1 n.
Proof.
  unfold customers. cbn [num_nodes depot_node seq filter Nat.eqb negb].
  apply forallb_filter_id. apply forallb_forall.
  intros c Hc. rewrite in_seq in Hc.
  apply negb_true_iff, Nat.eqb_neq. lia.
Qed.

(** ** The test for the model's constraints is sound *)

Lemma check_feasible_sound routing solution :
  check_feasible routing solution = true -> Feasible routing solution.
Proof.
  unfold check_feasible. intros H.
  apply andb_true_iff in H as [H H6].
  apply andb_true_iff in H as [H H5].
  apply andb_true_iff in H as [H H4].
  apply andb_true_iff in H as [H H3].
  apply andb_true_iff in H as [H1 H2].
  rewrite forallb_forall in H1, H2, H3, H4, H5, H6.
  constructor.
  - intros i Hi. specialize (H1 i). rewrite in_seq in H1.
    specialize (H1 ltac:(lia)). apply andb_true_iff in H1 as [Ha Hb].
    apply Nat.ltb_lt in Ha. apply negb_true_iff in Hb. auto.
  - intros i j Hi Hj Heq. specialize (H2 i). rewrite in_seq in H2.
    specialize (H2 ltac:(lia)). rewrite forallb_forall in H2.
    specialize (H2 j). rewrite in_seq in H2. specialize (H2 ltac:(lia)).
    rewrite Heq, Nat.eqb_refl in H2. simpl in H2. now apply Nat.eqb_eq.
  - intros i Hi Hnone. specialize (H3 i). rewrite in_seq in H3.
    specialize (H3 ltac:(lia)). rewrite Hnone in H3. discriminate.
  - intros v Hv. specialize (H4 v). rewrite in_seq in H4.
    specialize (H4 ltac:(lia)).
    apply andb_true_iff in H4 as [H4 _]. apply andb_true_iff in H4 as [H4 _].
    now apply Nat.eqb_eq.
  - intros v Hv. specialize (H4 v). rewrite in_seq in H4.
    specialize (H4 ltac:(lia)).
    apply andb_true_iff in H4 as [H4 _]. apply andb_true_iff in H4 as [_ H4].
    now apply Nat.eqb_eq.
  - intros i Hi. specialize (H5 i). rewrite in_seq in H5.
    specialize (H5 ltac:(lia)). apply andb_true_iff in H5 as [H5 _].
    now apply Nat.eqb_eq.
  - intros Hfix v Hv. specialize (H4 v). rewrite in_seq in H4.
    specialize (H4 ltac:(lia)). apply andb_true_iff in H4 as [_ H4].
    rewrite Hfix in H4. simpl in H4. now apply Z.eqb_eq.
  - intros i Hi. specialize (H5 i). rewrite in_seq in H5.
    specialize (H5 ltac:(lia)). apply andb_true_iff in H5 as [_ H5].
    destruct (dimension_transit routing i) as [t| |]; try discriminate.
    exists t. split; [reflexivity|].
    apply andb_true_iff in H5 as [Ha Hb].
    apply Z.leb_le in Ha, Hb. lia.
  - intros i Hi. specialize (H6 i). rewrite in_seq in H6.
    specialize (H6 ltac:(lia)). apply andb_true_iff in H6 as [Ha Hb].
    apply Z.leb_le in Ha, Hb. lia.
Qed.

Lemma checking_search_sound routing parameters solution :
  checking_search routing parameters = Some solution ->
  Feasible routing solution.
Proof.
  unfold checking_search.
  destruct (check_feasible routing one_route) eqn:C; [|discriminate].
  intros H. injection H as <-. now apply check_feasible_sound.
Qed.

Lemma example_valid : valid_input 2 10 example_demands example_edges.
Proof.
  apply (parse_input_Ok_valid int_decimal int_decimal_message
           "2" "10" "3,4" "0,1,2;1,0,3;2,3,0").
  reflexivity.
Qed.

Lemma example_created :
  create_data_model 2 10 example_demands example_edges = Ok example_data.
Proof. reflexivity. Qed.

Lemma one_route_feasible : Feasible (routing_model example_data) one_route.
Proof. apply check_feasible_sound. reflexivity. Qed.

Lemma two_routes_feasible : Feasible (routing_model example_data) two_routes.
Proof. apply check_feasible_sound. reflexivity. Qed.

Lemma Forall2_In_r {A B : Type} (R : A -> B -> Prop) (l : list A) (l' : list B) (b : B) :
  Forall2 R l l' -> In b l' -> exists a, In a l /\ R a b.
Proof.
  induction 1 as [|a b' l l' Hab _ IH]; simpl; [tauto|].
  intros [<-|Hb].
  - exists a. auto.
  - destruct (IH Hb) as (a' & Ha' & HR). exists a'. auto.
Qed.

Lemma Forall2_map_eq {A B C : Type} (g : B -> C) (h : A -> C)
    (l : list A) (l' : list B) :
  Forall2 (fun a b => g b = h a) l l' -> map g l' = map h l.
Proof.
  induction 1 as [|a b l l' Hab _ IH]; simpl; [reflexivity|].
  now rewrite Hab, IH.
Qed.

Lemma Forall2_weaken {A B : Type} (R R' : A -> B -> Prop) (l : list A) (l' : list B) :
  (forall a b, In a l -> R a b -> R' a b) -> Forall2 R l l' -> Forall2 R' l l'.
Proof.
  intros H F. induction F as [|a b l l' Hab _ IH]; constructor.
  - apply H; simpl; auto.
  - apply IH. intros; apply H; simpl; auto.
Qed.

Lemma last_In {A : Type} (l : list A) (d : A) : l <> [] -> In (last l d) l.
Proof.
  induction l as [|a l IH]; [congruence|]. intros _.
  destruct l as [|b l]; [now left|].
  right. apply IH. discriminate.
Qed.

Lemma segments_accumulate i stops out :
  segments i stops out = out ^^ segments i stops EmptyString.
Proof.
  revert i out. induction stops as [|s stops IH]; intros i out; simpl.
  - now rewrite append_nil_r.
  - rewrite (IH (S i) (out ^^ segment i s)).
    rewrite (IH (S i) (segment i s)). now rewrite append_assoc.
Qed.

(** A trip's block is its heading with the trip number, then a body that
    does not depend on the number. *)
Lemma plan_output_heading routing k w :
  plan_output routing k w
  = "Route for trip " ^^ str k ^^ ":" ^^ nl ^^ plan_body routing w.
Proof.
  unfold plan_output, plan_body. cbv zeta.
  rewrite segments_accumulate.
  repeat rewrite append_assoc. reflexivity.
Qed.

(** ** A solved instance *)

Section Solved.

Variables num_customers vehicle_capacity : Z.
Variable customer_demands : list Z.
Variable edges : list (list Z).
Variable data : Data.
Variable solution : Assignment.
Variable fuel : nat.

Hypothesis valid :
  valid_input num_customers vehicle_capacity customer_demands edges.
Hypothesis created :
  create_data_model num_customers vehicle_capacity customer_demands edges = Ok data.
Hypothesis feasible : Feasible (routing_model data) solution.
Hypothesis enough_fuel : (Size (manager (routing_model data)) <= fuel)%nat.

Local Abbreviation routing := (routing_model data).
Local Abbreviation m := (manager (routing_model data)).
Local Abbreviation vehicle_count := (Z.to_nat (num_vehicles data)).

Lemma created_data :
  data = {| distance_matrix := edges;
            demands := 0%Z :: customer_demands;
            vehicle_capacities := repeat vehicle_capacity (Z.to_nat num_customers);
            num_vehicles := num_customers;
            depot := 0%nat |}.
Proof.
  clear feasible enough_fuel. unfold create_data_model in created.
  destruct (_ =? _)%Z in created; [|discriminate].
  injection created as Hd. symmetry. exact Hd.
Qed.

Lemma solved_customer_count :
  Z.to_nat num_customers = List.length customer_demands.
Proof. rewrite <- (valid_demands _ _ _ _ valid). lia. Qed.

Lemma solved_vehicles : vehicle_count = List.length customer_demands.
Proof. rewrite created_data. simpl. apply solved_customer_count. Qed.

Lemma solved_nodes :
  List.length (distance_matrix data) = S (List.length customer_demands).
Proof.
  rewrite created_data. simpl.
  pose proof (valid_rows _ _ _ _ valid). pose proof (valid_demands _ _ _ _ valid).
  lia.
Qed.

Lemma solved_depot : depot data = 0%nat.
Proof. rewrite created_data. reflexivity. Qed.

Lemma solved_depot_is_node :
  (depot data < List.length (distance_matrix data))%nat.
Proof. rewrite solved_nodes, solved_depot. lia. Qed.

Lemma solved_demands_length :
  List.length (demands data) = List.length (distance_matrix data).
Proof. rewrite solved_nodes. rewrite created_data. reflexivity. Qed.

Lemma solved_square :
  Forall (fun row => List.length row = List.length (distance_matrix data))
    (distance_matrix data).
Proof. rewrite created_data. simpl. exact (valid_columns _ _ _ _ valid). Qed.

Lemma solved_depot_demand : demand_of data (depot data) = 0%Z.
Proof. rewrite created_data. reflexivity. Qed.

Lemma solved_self_distance :
  cell (distance_matrix data) (depot data) (depot data) = 0%Z.
Proof.
  pose proof solved_nodes as Hn. rewrite created_data in *. simpl in *.
  apply (valid_diagonal _ _ _ _ valid). lia.
Qed.

Lemma solved_capacity v :
  (v < vehicle_count)%nat ->
  nth v (vehicle_capacities data) 0%Z = vehicle_capacity.
Proof.
  rewrite created_data. simpl. intros Hv. now apply nth_repeat_lt.
Qed.

Lemma solved_customers : customers m = seq 1 (List.length customer_demands).
Proof.
  pose proof solved_nodes as Hn. pose proof solved_vehicles as Hv.
  pose proof solved_depot as Hd.
  unfold customers. cbn [manager routing_model num_nodes depot_node].
  rewrite Hn, Hd. cbn [seq filter Nat.eqb negb].
  apply forallb_filter_id. apply forallb_forall.
  intros c Hc. rewrite in_seq in Hc.
  apply negb_true_iff, Nat.eqb_neq. lia.
Qed.

Lemma solved_demands :
  map (demand_of data) (seq 1 (List.length customer_demands)) = customer_demands.
Proof.
  unfold demand_of. rewrite created_data. cbn [demands]. apply map_nth_seq.
Qed.

(** The routes of all vehicles are decoded, each being the stops of its
    vehicle's chain. *)
Lemma solved_routes :
  exists ws,
    vehicle_routes fuel data routing solution (seq 0 vehicle_count) = Ok ws
    /\ Forall2 (fun v w => (v < vehicle_count)%nat
                           /\ index w = End m v
                           /\ route w = decoded_route data routing solution v)
         (seq 0 vehicle_count) ws.
Proof.
  destruct (vehicle_routes_feasible data solution solved_depot_is_node
              solved_demands_length solved_square feasible fuel
              (seq 0 vehicle_count)) as (ws & Hws & Hall).
  - intros v Hv. rewrite in_seq in Hv. simpl. lia.
  - exact enough_fuel.
  - exists ws. split; [exact Hws|].
    revert Hall. apply Forall2_weaken.
    intros v w Hv [Hi Hr]. rewrite in_seq in Hv.
    repeat split; [lia|exact Hi|exact Hr].
Qed.

(** What the decoder's bookkeeping says about one finished route. *)
Lemma solved_route v w :
  (v < vehicle_count)%nat ->
  route w = decoded_route data routing solution v ->
  route_customers data w = visited routing solution v
  /\ (reported w = true <-> visited routing solution v <> [])
  /\ final_load w = sum_Z (map (demand_of data) (visited routing solution v))
  /\ (reported w = false ->
      final_distance w = 0%Z /\ final_load w = 0%Z /\ route_customers data w = []).
Proof.
  intros Hv Hr.
  pose proof (decoded_route_nodes data solution solved_depot_is_node
                solved_demands_length feasible v Hv) as Hnodes.
  pose proof (decoded_route_length data solution solved_depot_is_node
                solved_demands_length feasible v Hv) as Hlen.
  pose proof (decoded_route_final_load data solution solved_depot_is_node
                solved_demands_length solved_depot_demand feasible v Hv) as Hload.
  destruct (chain_shape data solution solved_depot_is_node
              solved_demands_length feasible v Hv) as (_ & _ & _ & _ & Hcust).
  assert (Hc : route_customers data w = visited routing solution v).
  { unfold route_customers. rewrite Hr, Hnodes.
    cbn [filter]. rewrite Nat.eqb_refl. cbn [negb].
    rewrite filter_app. cbn [filter]. rewrite Nat.eqb_refl. cbn [negb].
    rewrite app_nil_r. apply forallb_filter_id. apply forallb_forall.
    intros c Hin. apply negb_true_iff, Nat.eqb_neq.
    destruct (Hcust c Hin) as (_ & Hne & _). exact Hne. }
  assert (Hrep : reported w = true <-> visited routing solution v <> []).
  { unfold reported. rewrite Hr, Hlen, Nat.ltb_lt.
    destruct (visited routing solution v); simpl; split; intros H;
      try lia; try congruence. }
  assert (Hfl : final_load w
                = sum_Z (map (demand_of data) (visited routing solution v))).
  { unfold final_load. rewrite Hr. exact Hload. }
  split; [exact Hc|]. split; [exact Hrep|]. split; [exact Hfl|].
  intros Hno.
  assert (Hnil : visited routing solution v = []).
  { destruct (visited routing solution v); [reflexivity|].
    assert (reported w = true) by (apply Hrep; discriminate). congruence. }
  split; [|split].
  - unfold final_distance. rewrite Hr.
    rewrite (decoded_route_empty data solution solved_depot_is_node
               solved_demands_length solved_depot_demand feasible v Hv Hnil).
    rewrite solved_self_distance. reflexivity.
  - rewrite Hfl, Hnil. reflexivity.
  - rewrite Hc. exact Hnil.
Qed.

Lemma solved_visited :
  Permutation (flat_map (visited routing solution) (seq 0 vehicle_count))
              (seq 1 (List.length customer_demands)).
Proof.
  pose proof solved_vehicles as Hv.
  destruct (Nat.eq_dec (List.length customer_demands) 0) as [Hz|Hnz].
  - rewrite Hv, Hz. constructor.
  - rewrite <- solved_customers.
    apply visited_all_customers; [exact solved_depot_is_node| |exact feasible].
    simpl. lia.
Qed.

(** All customer demand is carried: the final loads of the vehicles add up
    to the total demand. *)
Lemma solved_served :
  sum_Z (map (fun v => stop_load (last_stop (decoded_route data routing solution v)))
           (seq 0 vehicle_count))
  = sum_Z customer_demands.
Proof.
  rewrite (map_ext_in _
             (fun v => sum_Z (map (demand_of data) (visited routing solution v)))).
  - rewrite <- sum_Z_flat_map.
    rewrite (sum_Z_Permutation _ _ (Permutation_map (demand_of data) solved_visited)).
    now rewrite solved_demands.
  - intros v Hv. rewrite in_seq in Hv.
    apply (decoded_route_final_load data solution solved_depot_is_node
             solved_demands_length solved_depot_demand feasible).
    simpl. lia.
Qed.


(** No customer asks for more than a vehicle can carry, and the fleet can
    carry the total demand. *)
Lemma solved_demand_bounded d :
  In d customer_demands -> (d <= vehicle_capacity)%Z.
Proof.
  intros Hd. destruct (In_nth _ _ 0%Z Hd) as (k & Hk & Hnth).
  pose proof solved_nodes as Hn. pose proof solved_vehicles as Hv.
  pose proof solved_depot as Hdep.
  assert (Hc : (S k < num_nodes m)%nat) by (simpl; lia).
  assert (Hne : S k <> depot_node m) by (simpl; lia).
  destruct (customer_visited routing solution solved_depot_is_node
              ltac:(simpl; lia) feasible (S k) Hc Hne) as [Hveh _].
  assert (Hlt : (S k < Size m)%nat) by (unfold Size; simpl; lia).
  destruct (next_domain _ _ feasible (S k) Hlt) as [Hnext _].
  destruct (cumul_of_next _ _ feasible (S k) Hlt) as (t & Ht & Hcum).
  change (dimension_transit routing (S k))
    with (getitem (demands data) (IndexToNode m (S k))) in Ht.
  change (dimension_slack_max routing) with 0%Z in Hcum.
  rewrite (demand_lookup data solved_depot_is_node solved_demands_length) in Ht.
  assert (Et : t = d).
  { assert (E : t = demand_of data (IndexToNode m (S k))) by congruence.
    rewrite E. unfold IndexToNode.
    destruct (Nat.ltb_spec (S k) (num_nodes m)); [|lia].
    unfold demand_of. rewrite created_data. exact Hnth. }
  pose proof (cumul_bounds _ _ feasible (S k) ltac:(lia)) as Hb0.
  pose proof (cumul_bounds _ _ feasible _ Hnext) as Hb1.
  rewrite (vehicle_of_next _ _ feasible (S k) Hlt) in Hb1.
  change (dimension_capacities routing) with (vehicle_capacities data) in Hb1.
  rewrite (solved_capacity _ Hveh) in Hb1. lia.
Qed.

Lemma solved_total_bounded :
  (sum_Z customer_demands <= num_customers * vehicle_capacity)%Z.
Proof.
  rewrite <- solved_served.
  pose proof (sum_Z_bounded
                (fun v => stop_load (last_stop (decoded_route data routing solution v)))
                vehicle_capacity (seq 0 vehicle_count)) as H.
  rewrite length_seq in H.
  replace (Z.of_nat vehicle_count) with num_customers in H.
  - apply H. intros v Hv. rewrite in_seq in Hv.
    assert (Hlt : (v < vehicle_count)%nat) by lia.
    rewrite <- (solved_capacity v Hlt).
    apply (decoded_route_loads data solution solved_depot_is_node
             solved_demands_length solved_depot_demand feasible v _ Hlt).
    apply last_In. intros Hnil.
    pose proof (decoded_route_length data solution solved_depot_is_node
                  solved_demands_length feasible v Hlt) as Hlen.
    rewrite Hnil in Hlen. discriminate.
  - rewrite solved_vehicles. symmetry. exact (valid_demands _ _ _ _ valid).
Qed.

(** C1: in a solved instance every vehicle's route is decoded; its first
    stop is the depot with load 0, every later stop's load is the previous
    load plus the demand of the node reached, and every load along the route
    is at most the capacity of the vehicle, which is [vehicle_capacity]. *)
Theorem route_loads_within_capacity v :
  (v < vehicle_count)%nat ->
  exists w,
    vehicle_route fuel data routing solution v = Ok w
    /\ (exists s rest, route w = s :: rest
                       /\ stop_node s = depot data /\ stop_load s = 0%Z)
    /\ (forall k s s',
          nth_error (route w) k = Some s ->
          nth_error (route w) (S k) = Some s' ->
          stop_load s' = (stop_load s + demand_of data (stop_node s'))%Z)
    /\ (forall s, In s (route w) ->
          (stop_load s <= nth v (vehicle_capacities data) 0)%Z)
    /\ nth v (vehicle_capacities data) 0%Z = vehicle_capacity.
Proof.
  intros Hv.
  destruct (vehicle_route_feasible data solution solved_depot_is_node
              solved_demands_length solved_square feasible fuel v Hv enough_fuel)
    as (w & Hw & _ & Hr).
  exists w. split; [exact Hw|]. rewrite Hr. split; [|split; [|split]].
  - destruct (chain_shape data solution solved_depot_is_node
                solved_demands_length feasible v Hv) as (Hc & _).
    unfold decoded_route. rewrite Hc. cbn [stops_from].
    eexists. eexists. split; [reflexivity|].
    unfold stop_node, stop_load. cbn [fst snd].
    rewrite (IndexToNode_Start data solved_depot_is_node solved_demands_length v Hv).
    rewrite solved_depot_demand. auto.
  - intros k s s'. unfold decoded_route. apply stops_from_step.
  - intros s Hs.
    apply (decoded_route_loads data solution solved_depot_is_node
             solved_demands_length solved_depot_demand feasible v s Hv Hs).
  - now apply solved_capacity.
Qed.

(** C2: in a solved instance the customers of the reported routes, put
    together, are exactly the customers 1..n: none is missing, none appears
    twice, in one route or in two. *)
Theorem every_customer_in_exactly_one_route :
  exists ws,
    vehicle_routes fuel data routing solution (seq 0 vehicle_count) = Ok ws
    /\ print_solution fuel data routing solution = Ok (report_of routing ws)
    /\ Permutation (flat_map (route_customers data) (filter reported ws))
                   (seq 1 (Z.to_nat num_customers))
    /\ NoDup (flat_map (route_customers data) (filter reported ws)).
Proof.
  destruct solved_routes as (ws & Hws & Hall).
  exists ws. split; [exact Hws|]. split.
  { rewrite print_solution_report, Hws. reflexivity. }
  assert (Hperm : Permutation (flat_map (route_customers data) (filter reported ws))
                    (seq 1 (Z.to_nat num_customers))).
  { rewrite solved_customer_count, <- solved_visited.
    rewrite flat_map_filter.
    - rewrite !flat_map_concat_map. apply Permutation_refl'. f_equal.
      apply Forall2_map_eq. revert Hall. apply Forall2_weaken.
      intros v w _ (Hv & _ & Hr). now apply solved_route.
    - intros w Hw Hrep.
      destruct (Forall2_In_r _ _ _ _ Hall Hw) as (v & _ & Hv & _ & Hr).
      now apply (solved_route v w Hv Hr). }
  split; [exact Hperm|].
  apply (Permutation_NoDup (Permutation_sym Hperm)), seq_NoDup.
Qed.


(** C10: whenever [print_solution] produces a text, it is the blocks of the
    reported routes, in vehicle order, headed [Route for trip 1],
    [Route for trip 2], and so on without a gap, followed by the totals: the
    numbers count the reported routes, not the vehicles. In a solved instance
    the text is produced, and a route is reported exactly when it serves a
    customer, so an idle vehicle uses no number. *)
Theorem trip_numbers_are_consecutive :
  (forall fuel' data' routing' solution' text,
      print_solution fuel' data' routing' solution' = Ok text ->
      exists ws,
        vehicle_routes fuel' data' routing' solution'
          (seq 0 (Z.to_nat (num_vehicles data'))) = Ok ws
        /\ text
           = report_blocks routing'
               (combine (map Z.of_nat (seq 1 (List.length (filter reported ws))))
                        (filter reported ws))
             ^^ totals_text (sum_Z (map final_distance ws))
                            (sum_Z (map final_load ws)))
  /\ (forall routing' k w,
        plan_output routing' k w
        = "Route for trip " ^^ str k ^^ ":" ^^ nl ^^ plan_body routing' w)
  /\ exists ws,
       vehicle_routes fuel data routing solution (seq 0 vehicle_count) = Ok ws
       /\ print_solution fuel data routing solution
          = Ok (report_blocks routing
                  (combine (map Z.of_nat (seq 1 (List.length (filter reported ws))))
                           (filter reported ws))
                ^^ totals_text (sum_Z (map final_distance ws))
                               (sum_Z (map final_load ws)))
       /\ (forall w, In w ws ->
            (reported w = true <-> route_customers data w <> [])).
Proof.
  split; [|split; [intros; apply plan_output_heading|]].
  { intros fuel' data' routing' solution' text H.
    rewrite print_solution_report in H.
    destruct (vehicle_routes fuel' data' routing' solution' _) as [ws| |];
      cbn [bind] in H; try discriminate.
    injection H as <-. exists ws. split; reflexivity. }
  destruct solved_routes as (ws & Hws & Hall).
  exists ws. split; [exact Hws|]. split.
  { rewrite print_solution_report, Hws. reflexivity. }
  intros w Hw.
  destruct (Forall2_In_r _ _ _ _ Hall Hw) as (v & _ & Hv & _ & Hr).
  destruct (solved_route v w Hv Hr) as (Hc & Hrep & _).
  rewrite Hc. exact Hrep.
Qed.

End Solved.

Lemma route_loads_within_capacity_witness :
  valid_input 2 10 example_demands example_edges
  /\ create_data_model 2 10 example_demands example_edges = Ok example_data
  /\ Feasible (routing_model example_data) one_route
  /\ exists w,
       vehicle_route 4 example_data (routing_model example_data) one_route 0 = Ok w
       /\ (exists s rest, route w = s :: rest
                          /\ stop_node s = depot example_data /\ stop_load s = 0%Z)
       /\ (forall k s s',
             nth_error (route w) k = Some s ->
             nth_error (route w) (S k) = Some s' ->
             stop_load s' = (stop_load s + demand_of example_data (stop_node s'))%Z)
       /\ (forall s, In s (route w) ->
             (stop_load s <= nth 0 (vehicle_capacities example_data) 0)%Z)
       /\ nth 0 (vehicle_capacities example_data) 0%Z = 10%Z.
Proof.
  split; [exact example_valid|]. split; [exact example_created|].
  split; [exact one_route_feasible|].
  apply (route_loads_within_capacity 2 10 example_demands example_edges
           example_data one_route 4 example_valid example_created
           one_route_feasible).
  - vm_compute. lia.
  - vm_compute. lia.
Defined.

Lemma every_customer_in_exactly_one_route_witness :
  valid_input 2 10 example_demands example_edges
  /\ create_data_model 2 10 example_demands example_edges = Ok example_data
  /\ Feasible (routing_model example_data) two_routes
  /\ exists ws,
       vehicle_routes 4 example_data (routing_model example_data) two_routes
         (seq 0 (Z.to_nat (num_vehicles example_data))) = Ok ws
       /\ print_solution 4 example_data (routing_model example_data) two_routes
          = Ok (report_of (routing_model example_data) ws)
       /\ Permutation (flat_map (route_customers example_data) (filter reported ws))
                      (seq 1 (Z.to_nat 2))
       /\ NoDup (flat_map (route_customers example_data) (filter reported ws)).
Proof.
  split; [exact example_valid|]. split; [exact example_created|].
  split; [exact two_routes_feasible|].
  apply (every_customer_in_exactly_one_route 2 10 example_demands example_edges
           example_data two_routes 4 example_valid example_created
           two_routes_feasible).
  vm_compute. lia.
Defined.


Lemma trip_numbers_are_consecutive_witness :
  valid_input 2 10 example_demands example_edges
  /\ create_data_model 2 10 example_demands example_edges = Ok example_data
  /\ Feasible (routing_model example_data) two_routes
  /\ exists ws,
       vehicle_routes 4 example_data (routing_model example_data) two_routes
         (seq 0 (Z.to_nat (num_vehicles example_data))) = Ok ws
       /\ print_solution 4 example_data (routing_model example_data) two_routes
          = Ok (report_blocks (routing_model example_data)
                  (combine (map Z.of_nat (seq 1 (List.length (filter reported ws))))
                           (filter reported ws))
                ^^ totals_text (sum_Z (map final_distance ws))
                               (sum_Z (map final_load ws)))
       /\ (forall w, In w ws ->
            (reported w = true <-> route_customers example_data w <> [])).
Proof.
  split; [exact example_valid|]. split; [exact example_created|].
  split; [exact two_routes_feasible|].
  apply (trip_numbers_are_consecutive 2 10 example_demands example_edges
           example_data two_routes 4 example_valid example_created
           two_routes_feasible).
  vm_compute. lia.
Defined.

(** ** solve_routing_problem on instances without a solution *)

Lemma create_data_model_Ok num_customers vehicle_capacity customer_demands edges :
  Z.of_nat (List.length customer_demands) = num_customers ->
  exists data,
    create_data_model num_customers vehicle_capacity customer_demands edges = Ok data.
Proof.
  intros H. unfold create_data_model. cbn [demands List.length].
  destruct (Z.eqb_spec (Z.of_nat (S (List.length customer_demands)))
              (num_customers + 1)) as [_|Hne]; [eauto|lia].
Qed.

(** ** What the library accepts *)

Lemma forallb_repeat {A : Type} (f : A -> bool) (x : A) (k : nat) :
  forallb f (repeat x (S k)) = f x.
Proof.
  induction k as [|k IH]; [apply andb_true_r|].
  change (repeat x (S (S k))) with (x :: repeat x (S k)).
  cbn [forallb]. rewrite IH. apply andb_diag.
Qed.

Lemma created_record num_customers vehicle_capacity customer_demands edges data :
  create_data_model num_customers vehicle_capacity customer_demands edges = Ok data ->
  data = {| distance_matrix := edges;
            demands := 0%Z :: customer_demands;
            vehicle_capacities := repeat vehicle_capacity (Z.to_nat num_customers);
            num_vehicles := num_customers;
            depot := 0%nat |}.
Proof.
  unfold create_data_model. destruct (_ =? _)%Z; [|discriminate].
  intros H. injection H as Hd. symmetry. exact Hd.
Qed.

(** How the library answers when the model of a valid input is built. *)
Lemma library_accepts_created num_customers vehicle_capacity customer_demands edges data :
  valid_input num_customers vehicle_capacity customer_demands edges ->
  create_data_model num_customers vehicle_capacity customer_demands edges = Ok data ->
  library_accepts data
  = match customer_demands with
    | [] => Raise LibraryAbort
    | _ :: _ =>
        if negb (fits_int64 vehicle_capacity) then Raise OverflowError
        else if (vehicle_capacity <? 0)%Z then Raise LibraryAbort
        else Ok tt
    end.
Proof.
  intros Hvalid Hdata. pose proof (valid_demands _ _ _ _ Hvalid) as Hn.
  rewrite (created_record _ _ _ _ _ Hdata). unfold library_accepts.
  cbn [num_vehicles vehicle_capacities].
  destruct customer_demands as [|d ds].
  - simpl in Hn. subst num_customers. reflexivity.
  - cbn [List.length] in Hn.
    replace (Z.to_nat num_customers) with (S (List.length ds)) by lia.
    destruct (Z.leb_spec num_customers 0) as [Hle|_]; [lia|]. cbn [bind].
    rewrite !forallb_repeat.
    destruct (fits_int64 vehicle_capacity); [|reflexivity]. cbn [negb].
    rewrite Z.ltb_antisym. reflexivity.
Qed.

Lemma library_accepts_Ok num_customers vehicle_capacity customer_demands edges data :
  valid_input num_customers vehicle_capacity customer_demands edges ->
  create_data_model num_customers vehicle_capacity customer_demands edges = Ok data ->
  customer_demands <> [] ->
  (0 <= vehicle_capacity <= int64_max)%Z ->
  library_accepts data = Ok tt.
Proof.
  intros Hvalid Hdata Hne Hcap.
  rewrite (library_accepts_created _ _ _ _ _ Hvalid Hdata).
  destruct customer_demands as [|d ds]; [congruence|].
  assert (Hfit : fits_int64 vehicle_capacity = true).
  { unfold fits_int64, int64_min, int64_max in *.
    apply andb_true_intro. split; apply Z.leb_le; lia. }
  rewrite Hfit. cbn [negb].
  destruct (Z.ltb_spec vehicle_capacity 0); [lia|reflexivity].
Qed.

Lemma search_among_sound candidates routing parameters solution :
  search_among candidates routing parameters = Some solution ->
  Feasible routing solution.
Proof.
  unfold search_among. intros H. apply find_some in H.
  apply check_feasible_sound. apply H.
Qed.

(** C3, as the code has it: whenever the search only returns assignments that
    satisfy the model, a valid instance whose capacity is not negative and
    fits the library's 64-bit integers, as its demands do, and whose total
    demand exceeds the fleet's capacity, or one of whose customers asks for
    more than a vehicle's capacity, makes [solve_routing_problem] return
    exactly [No solution found.]. *)
Theorem infeasible_instance_reports_no_solution
    (SolveWithParameters : RoutingModel -> RoutingSearchParameters -> option Assignment)
    (fuel : nat) (num_customers vehicle_capacity : Z)
    (customer_demands : list Z) (edges : list (list Z)) :
  (forall routing parameters solution,
      SolveWithParameters routing parameters = Some solution ->
      Feasible routing solution) ->
  valid_input num_customers vehicle_capacity customer_demands edges ->
  (0 <= vehicle_capacity <= int64_max)%Z ->
  Forall (fun d => fits_int64 d = true) customer_demands ->
  (sum_Z customer_demands > num_customers * vehicle_capacity)%Z
  \/ (exists d, In d customer_demands /\ (d > vehicle_capacity)%Z) ->
  solve_routing_problem SolveWithParameters fuel num_customers vehicle_capacity
    customer_demands edges
  = Ok no_solution.
Proof.
  intros Hsound Hvalid Hcap _ Hover. unfold solve_routing_problem.
  destruct (create_data_model_Ok num_customers vehicle_capacity customer_demands
              edges (valid_demands _ _ _ _ Hvalid)) as [data Hdata].
  rewrite Hdata. cbn [bind].
  assert (Hne : customer_demands <> []).
  { intros ->. pose proof (valid_demands _ _ _ _ Hvalid) as Hn. simpl in Hn.
    destruct Hover as [Hsum|[d [[] _]]]. simpl in Hsum. lia. }
  rewrite (library_accepts_Ok _ _ _ _ _ Hvalid Hdata Hne Hcap). cbn [bind].
  destruct (SolveWithParameters (routing_model data) search_parameters)
    as [solution|] eqn:Hsolve; [|reflexivity].
  exfalso. apply Hsound in Hsolve.
  destruct Hover as [Hsum|[d [Hd Hgt]]].
  - pose proof (solved_total_bounded _ _ _ _ _ _ _ Hvalid Hdata Hsolve (le_n _)).
    lia.
  - pose proof (solved_demand_bounded _ _ _ _ _ _ _ Hvalid Hdata Hsolve (le_n _) d Hd).
    lia.
Qed.

Lemma overloaded_valid : valid_input 1 10 overloaded_demands overloaded_edges.
Proof.
  apply (parse_input_Ok_valid int_decimal int_decimal_message
           "1" "10" "11" "0,1;1,0").
  reflexivity.
Qed.

Lemma heavy_valid : valid_input 2 10 heavy_demands example_edges.
Proof.
  apply (parse_input_Ok_valid int_decimal int_decimal_message
           "2" "10" "3,11" "0,1,2;1,0,3;2,3,0").
  reflexivity.
Qed.

Lemma infeasible_instance_reports_no_solution_witness :
  valid_input 2 10 heavy_demands example_edges
  /\ (exists d, In d heavy_demands /\ (d > 10)%Z)
  /\ solve_routing_problem (search_among [heavy_one_route; heavy_two_routes]) 4
       2 14 heavy_demands example_edges
     <> Ok no_solution
  /\ solve_routing_problem (search_among [heavy_one_route; heavy_two_routes]) 4
       2 10 heavy_demands example_edges
     = Ok no_solution.
Proof.
  split; [exact heavy_valid|].
  assert (H : exists d, In d heavy_demands /\ (d > 10)%Z).
  { exists 11%Z. split; [simpl; auto|lia]. }
  split; [exact H|]. split; [intros Hsome; vm_compute in Hsome; discriminate Hsome|].
  apply (infeasible_instance_reports_no_solution
           (search_among [heavy_one_route; heavy_two_routes]) 4 2 10
           heavy_demands example_edges
           (search_among_sound [heavy_one_route; heavy_two_routes])
           heavy_valid).
  - unfold int64_max. lia.
  - repeat constructor.
  - right. exact H.
Defined.

Lemma overflowing_valid :
  valid_input 1 overflowing_capacity overflowing_demands overloaded_edges.
Proof.
  apply (parse_input_Ok_valid int_decimal int_decimal_message
           "1" "9223372036854775808" "9223372036854775809" "0,1;1,0").
  reflexivity.
Qed.

(** C3 as stated fails: with a one-customer instance that meets the spec's
    conditions on an input (positive capacity, non-negative demand, positive
    distances) and whose demand exceeds its capacity, [solve_routing_problem]
    raises [OverflowError] when the capacity is 2^63, whatever the search. *)
Lemma infeasible_instance_overflow_counterexample :
  ~ (forall (SolveWithParameters :
               RoutingModel -> RoutingSearchParameters -> option Assignment)
            fuel num_customers vehicle_capacity customer_demands edges,
        (forall routing parameters solution,
            SolveWithParameters routing parameters = Some solution ->
            Feasible routing solution) ->
        valid_input num_customers vehicle_capacity customer_demands edges ->
        sign_constraints (num_customers, vehicle_capacity, customer_demands, edges) ->
        (sum_Z customer_demands > num_customers * vehicle_capacity)%Z
        \/ (exists d, In d customer_demands /\ (d > vehicle_capacity)%Z) ->
        solve_routing_problem SolveWithParameters fuel num_customers
          vehicle_capacity customer_demands edges
        = Ok no_solution).
Proof.
  intros H.
  specialize (H checking_search 0%nat 1%Z overflowing_capacity overflowing_demands
                overloaded_edges checking_search_sound overflowing_valid).
  assert (Hsign : sign_constraints
                    (1%Z, overflowing_capacity, overflowing_demands, overloaded_edges)).
  { split; [reflexivity|]. split; [repeat constructor; discriminate|].
    intros i j Hi Hj Hij. simpl in Hi, Hj.
    destruct i as [|[|i]]; destruct j as [|[|j]]; try lia; reflexivity. }
  assert (Hover : (sum_Z overflowing_demands > 1 * overflowing_capacity)%Z
                  \/ (exists d, In d overflowing_demands
                                /\ (d > overflowing_capacity)%Z)).
  { left. reflexivity. }
  specialize (H Hsign Hover). discriminate H.
Qed.

(** ** The two-customer scenario *)

(** Both a single route through the two customers and one route per customer
    satisfy the model of the scenario; which of them is returned is the
    search's choice. Either way the totals are 6 and 7. *)
Example scenario_one_route :
  print_solution 4 example_data (routing_model example_data) one_route
  = Ok ("Route for trip 1:" ^^ nl
        ^^ " 0 Load(0) Distance(0) -> 1 Load(3) Distance(1) -> 2 Load(7) Distance(4) -> 0 Load(7) Distance(6)" ^^ nl
        ^^ "Distance of the route: 6m" ^^ nl
        ^^ "Load of the route: 7" ^^ nl ^^ nl ^^ nl
        ^^ "Total distance of all routes: 6m" ^^ nl
        ^^ "Total load of all routes: 7").
Proof. reflexivity. Qed.

Example scenario_two_routes :
  print_solution 4 example_data (routing_model example_data) two_routes
  = Ok ("Route for trip 1:" ^^ nl
        ^^ " 0 Load(0) Distance(0) -> 1 Load(3) Distance(1) -> 0 Load(3) Distance(2)" ^^ nl
        ^^ "Distance of the route: 2m" ^^ nl
        ^^ "Load of the route: 3" ^^ nl ^^ nl
        ^^ "Route for trip 2:" ^^ nl
        ^^ " 0 Load(0) Distance(0) -> 2 Load(4) Distance(2) -> 0 Load(4) Distance(4)" ^^ nl
        ^^ "Distance of the route: 4m" ^^ nl
        ^^ "Load of the route: 4" ^^ nl ^^ nl ^^ nl
        ^^ "Total distance of all routes: 6m" ^^ nl
        ^^ "Total load of all routes: 7").
Proof. reflexivity. Qed.

(** * Further properties of the code *)

(** ** parse_input: edge cases and error messages *)

Lemma split_nonempty sep s : split sep s <> [].
Proof.
  destruct s as [|c s]; simpl; [discriminate|].
  destruct (Ascii.eqb c sep); [discriminate|].
  destruct (split sep s); discriminate.
Qed.

Lemma split_trailing sep s :
  split sep (s ^^ String sep EmptyString) = split sep s ++ [EmptyString].
Proof.
  induction s as [|c s IH]; simpl.
  - rewrite Ascii.eqb_refl. reflexivity.
  - destruct (Ascii.eqb c sep); [now rewrite IH|].
    rewrite IH. pose proof (split_nonempty sep s) as Hne.
    destruct (split sep s) as [|t ts]; [congruence|]. reflexivity.
Qed.

Section ParseInputEdges.

Variable int : string -> option Z.
Variable int_message : string -> string.

(** X1: [parse_input] never accepts an instance without customers: since
    splitting always yields at least one token, an accepted input has
    [num_customers >= 1] and a matrix with at least two rows. *)
Theorem parse_input_at_least_one_customer s1 s2 s3 s4 n cap ds es :
  parse_input int int_message s1 s2 s3 s4 = Ok (n, cap, ds, es) ->
  (1 <= n)%Z /\ ds <> [] /\ (2 <= List.length es)%nat.
Proof.
  intros H. apply parse_input_Ok_valid in H as [Hp Hv].
  destruct Hp as (_ & _ & Hd & _).
  pose proof (Forall2_length Hd) as Hlen.
  pose proof (split_nonempty "," s3) as Hne.
  pose proof (valid_demands _ _ _ _ Hv) as Hn.
  pose proof (valid_rows _ _ _ _ Hv) as Hr.
  assert (Hpos : (1 <= List.length ds)%nat).
  { rewrite <- Hlen. destruct (split "," s3); [congruence|simpl; lia]. }
  repeat split; try lia.
  intros ->. simpl in Hpos. lia.
Qed.

(** X2: when the two numbers and the demand tokens are integers but the
    number of demands differs from [num_customers], the error is the
    demand-count message whatever the edges field holds: the edges are not
    read before this check. *)
Theorem parse_input_demand_count_message s1 s2 s3 s4 n cap ds :
  int s1 = Some n -> int s2 = Some cap ->
  reads int (split "," s3) ds ->
  Z.of_nat (List.length ds) <> n ->
  parse_input int int_message s1 s2 s3 s4
  = Raise (ValueError ("Invalid input: " ^^ msg_demands)).
Proof.
  intros Hn Hc Hd Hlen.
  apply py_int_Ok with (int_message := int_message) in Hn, Hc.
  apply map_int_Ok with (int_message := int_message) in Hd.
  unfold parse_input, parse_input_try.
  rewrite Hn. cbn [bind]. rewrite Hc. cbn [bind]. rewrite Hd. cbn [bind].
  destruct (Z.eqb_spec (Z.of_nat (List.length ds)) n) as [He|_]; [contradiction|].
  reflexivity.
Qed.

Lemma parse_input_empty_token s1 s2 s3 s4 :
  int EmptyString = None ->
  In EmptyString (tokens_of (s1, s2, s3, s4)) ->
  exists msg,
    parse_input int int_message s1 s2 s3 s4
    = Raise (ValueError ("Invalid input: " ^^ msg)).
Proof.
  intros Hint Hin. unfold parse_input.
  destruct (parse_input_try_cases int int_message s1 s2 s3 s4)
    as [(n & cap & ds & es & Ht & Hp & _)|[msg [Ht _]]]; rewrite Ht.
  - exfalso. now apply (parses_all_integers int int_message _ _ EmptyString Hp).
  - exists msg. reflexivity.
Qed.

(** X3: if [int] refuses the empty string, a demands field ending with a
    comma and an edges field ending with a semicolon are both rejected with
    a [ValueError]: the trailing separator yields an empty token. *)
Theorem parse_input_trailing_separator s1 s2 s3 s4 :
  int EmptyString = None ->
  (exists msg,
      parse_input int int_message s1 s2 (s3 ^^ ",") s4
      = Raise (ValueError ("Invalid input: " ^^ msg)))
  /\ (exists msg,
        parse_input int int_message s1 s2 s3 (s4 ^^ ";")
        = Raise (ValueError ("Invalid input: " ^^ msg))).
Proof.
  intros Hint. split; apply parse_input_empty_token; try exact Hint.
  - cbn [tokens_of]. right. right. apply in_or_app. left.
    change "," with (String ","%char EmptyString).
    rewrite split_trailing. apply in_or_app. right. now left.
  - cbn [tokens_of]. right. right. apply in_or_app. right.
    change ";" with (String ";"%char EmptyString).
    rewrite split_trailing, flat_map_app. apply in_or_app. right.
    simpl. now left.
Qed.

(** X4: the assertion of [create_data_model] cannot fail on what
    [parse_input] returns; the model built from it has one demand per node,
    one capacity per vehicle, one vehicle per customer, a square matrix over
    the nodes, and its depot is one of the nodes. *)
Theorem parse_input_then_create_data_model s1 s2 s3 s4 n cap ds es :
  parse_input int int_message s1 s2 s3 s4 = Ok (n, cap, ds, es) ->
  exists data,
    create_data_model n cap ds es = Ok data
    /\ List.length (demands data) = List.length (distance_matrix data)
    /\ Z.of_nat (List.length (vehicle_capacities data)) = num_vehicles data
    /\ num_vehicles data = n
    /\ Z.of_nat (List.length (distance_matrix data)) = (n + 1)%Z
    /\ Forall (fun row => List.length row = List.length (distance_matrix data))
         (distance_matrix data)
    /\ (depot data < List.length (distance_matrix data))%nat.
Proof.
  intros H. apply parse_input_Ok_valid in H as [_ Hv].
  destruct (create_data_model_Ok n cap ds es (valid_demands _ _ _ _ Hv))
    as [data Hdata].
  exists data. split; [exact Hdata|].
  pose proof (valid_demands _ _ _ _ Hv) as Hn.
  pose proof (valid_rows _ _ _ _ Hv) as Hr.
  pose proof (created_data _ _ _ _ _ Hdata) as ->.
  cbn [demands distance_matrix vehicle_capacities num_vehicles depot List.length].
  rewrite repeat_length.
  repeat split; try lia. exact (valid_columns _ _ _ _ Hv).
Qed.

End ParseInputEdges.

Lemma parse_input_at_least_one_customer_witness :
  parse_input int_decimal int_decimal_message "2" "10" "3,4" "0,1,2;1,0,3;2,3,0"
  = Ok (2, 10, example_demands, example_edges)%Z
  /\ (1 <= 2)%Z /\ example_demands <> [] /\ (2 <= List.length example_edges)%nat.
Proof.
  split; [reflexivity|].
  apply (parse_input_at_least_one_customer int_decimal int_decimal_message
           "2" "10" "3,4" "0,1,2;1,0,3;2,3,0" 2 10).
  reflexivity.
Defined.

Lemma parse_input_demand_count_message_witness :
  parse_input int_decimal int_decimal_message "3" "10" "3,4" "not a matrix"
  = Raise (ValueError ("Invalid input: " ^^ msg_demands)).
Proof.
  apply (parse_input_demand_count_message int_decimal int_decimal_message
           "3" "10" "3,4" "not a matrix" 3 10 [3; 4]%Z).
  - reflexivity.
  - reflexivity.
  - repeat constructor.
  - simpl. lia.
Defined.

Lemma parse_input_trailing_separator_witness :
  (exists msg,
      parse_input int_decimal int_decimal_message "2" "10" ("3,4" ^^ ",")
        "0,1,2;1,0,3;2,3,0"
      = Raise (ValueError ("Invalid input: " ^^ msg)))
  /\ (exists msg,
        parse_input int_decimal int_decimal_message "2" "10" "3,4"
          ("0,1,2;1,0,3;2,3,0" ^^ ";")
        = Raise (ValueError ("Invalid input: " ^^ msg))).
Proof.
  apply (parse_input_trailing_separator int_decimal int_decimal_message).
  reflexivity.
Defined.

Lemma parse_input_then_create_data_model_witness :
  exists data,
    create_data_model 2 10 example_demands example_edges = Ok data
    /\ List.length (demands data) = List.length (distance_matrix data)
    /\ Z.of_nat (List.length (vehicle_capacities data)) = num_vehicles data
    /\ num_vehicles data = 2%Z
    /\ Z.of_nat (List.length (distance_matrix data)) = (2 + 1)%Z
    /\ Forall (fun row => List.length row = List.length (distance_matrix data))
         (distance_matrix data)
    /\ (depot data < List.length (distance_matrix data))%nat.
Proof.
  apply (parse_input_then_create_data_model int_decimal int_decimal_message
           "2" "10" "3,4" "0,1,2;1,0,3;2,3,0" 2 10).
  reflexivity.
Defined.

(** ** The decoder: shape, distances and monotonicity of a route *)

Lemma last_cons {A : Type} (a : A) (l : list A) (d : A) :
  last (a :: l) d = last l a.
Proof.
  revert a d. induction l as [|b l IH]; intros a d; [reflexivity|].
  change (last (a :: b :: l) d) with (last (b :: l) d).
  now rewrite !IH.
Qed.

(** Between two different indices the arc cost is the matrix entry of their
    nodes. *)
Lemma stops_from_distance_step data m prev load dist l k s s' :
  NoDup l ->
  nth_error (stops_from data m prev load dist l) k = Some s ->
  nth_error (stops_from data m prev load dist l) (S k) = Some s' ->
  stop_distance s'
  = (stop_distance s
     + as_int64 (cell (distance_matrix data) (stop_node s) (stop_node s')))%Z.
Proof.
  revert prev load dist k. induction l as [|x l IH]; intros prev load dist k Hnd;
    [destruct k; discriminate|].
  apply NoDup_cons_iff in Hnd as [Hx Hnd].
  destruct k as [|k]; cbn [stops_from nth_error].
  - intros H H'. injection H as <-.
    destruct l as [|y l]; [discriminate|].
    cbn [stops_from nth_error] in H'. injection H' as <-.
    unfold stop_distance, stop_node, arc_of. cbn [fst snd].
    destruct (Nat.eqb_spec x y) as [->|_]; [|reflexivity].
    exfalso. apply Hx. now left.
  - apply IH. exact Hnd.
Qed.

Lemma cell_as_read edges i j :
  cell (as_read edges) i j = as_int64 (cell edges i j).
Proof.
  unfold cell, as_read.
  change (@nil Z) with (map as_int64 []) at 1. rewrite map_nth.
  change 0%Z with (as_int64 0) at 1. apply map_nth.
Qed.

Lemma as_int64_fits z : fits_int64 z = true -> as_int64 z = z.
Proof. unfold as_int64. now intros ->. Qed.

Lemma as_int64_nonneg z : (0 <= z)%Z -> (0 <= as_int64 z)%Z.
Proof. unfold as_int64. destruct (fits_int64 z); lia. Qed.

Lemma as_read_fits edges :
  Forall (Forall (fun z => fits_int64 z = true)) edges -> as_read edges = edges.
Proof.
  unfold as_read. induction 1 as [|row rows Hrow _ IH]; [reflexivity|].
  cbn [map]. rewrite IH. f_equal.
  induction Hrow as [|z zs Hz _ IHrow]; [reflexivity|].
  cbn [map]. now rewrite IHrow, (as_int64_fits _ Hz).
Qed.

Lemma stops_from_final_distance data m x load dist l d0 :
  NoDup (x :: l) -> stop_distance d0 = dist ->
  stop_distance (last (stops_from data m x load dist l) d0)
  = (dist + path_length (as_read (distance_matrix data))
              (map (IndexToNode m) (x :: l)))%Z.
Proof.
  revert x load dist d0. induction l as [|y l IH]; intros x load dist d0 Hnd Hd0.
  - simpl. lia.
  - cbn [stops_from]. rewrite last_cons.
    apply NoDup_cons_iff in Hnd as [Hx Hnd].
    rewrite IH; [|exact Hnd|reflexivity].
    cbn [map path_length]. rewrite cell_as_read. unfold arc_of.
    destruct (Nat.eqb_spec x y) as [->|_]; [|lia].
    exfalso. apply Hx. now left.
Qed.

Lemma adjacent_monotone {A : Type} (f : A -> Z) (l : list A) :
  (forall k s s', nth_error l k = Some s -> nth_error l (S k) = Some s' ->
                  (f s <= f s')%Z) ->
  forall i j s s', (i <= j)%nat ->
    nth_error l i = Some s -> nth_error l j = Some s' -> (f s <= f s')%Z.
Proof.
  intros Hadj i j. induction j as [|j IH]; intros s s' Hij Hi Hj.
  - assert (i = 0)%nat by lia. subst i. assert (s = s') by congruence. subst. lia.
  - destruct (Nat.eq_dec i (S j)) as [->|Hne].
    + assert (s = s') by congruence. subst. lia.
    + destruct (nth_error l j) as [t|] eqn:Hjt.
      * specialize (IH s t ltac:(lia) Hi eq_refl).
        specialize (Hadj j t s' Hjt Hj). lia.
      * apply nth_error_None in Hjt.
        assert (nth_error l (S j) = None) by (apply nth_error_None; lia).
        congruence.
Qed.

Section SolvedRoutes.

Variables num_customers vehicle_capacity : Z.
Variable customer_demands : list Z.
Variable edges : list (list Z).
Variable data : Data.
Variable solution : Assignment.
Variable fuel : nat.

Hypothesis valid :
  valid_input num_customers vehicle_capacity customer_demands edges.
Hypothesis created :
  create_data_model num_customers vehicle_capacity customer_demands edges = Ok data.
Hypothesis feasible : Feasible (routing_model data) solution.
Hypothesis enough_fuel : (Size (manager (routing_model data)) <= fuel)%nat.

Local Abbreviation routing := (routing_model data).
Local Abbreviation m := (manager (routing_model data)).
Local Abbreviation vehicle_count := (Z.to_nat (num_vehicles data)).

Local Ltac instance_fact lemma := eapply lemma; eassumption.

Lemma instance_depot_is_node :
  (depot data < List.length (distance_matrix data))%nat.
Proof. instance_fact solved_depot_is_node. Qed.

Lemma instance_demands_length :
  List.length (demands data) = List.length (distance_matrix data).
Proof. instance_fact solved_demands_length. Qed.

Lemma instance_square :
  Forall (fun row => List.length row = List.length (distance_matrix data))
    (distance_matrix data).
Proof. instance_fact solved_square. Qed.

Lemma instance_route v :
  (v < vehicle_count)%nat ->
  exists w,
    vehicle_route fuel data routing solution v = Ok w
    /\ index w = End m v
    /\ route w = decoded_route data routing solution v.
Proof.
  intros Hv.
  exact (vehicle_route_feasible data solution instance_depot_is_node
           instance_demands_length instance_square feasible fuel v Hv enough_fuel).
Qed.

Lemma instance_chain v :
  (v < vehicle_count)%nat ->
  vehicle_chain routing solution v
    = Start m v :: visited routing solution v ++ [End m v]
  /\ NoDup (Start m v :: visited routing solution v ++ [End m v])
  /\ NoDup (visited routing solution v)
  /\ (forall c, In c (visited routing solution v) ->
       (1 <= c <= List.length customer_demands)%nat).
Proof.
  intros Hv.
  destruct (chain_shape data solution instance_depot_is_node
              instance_demands_length feasible v Hv) as (Hc & Hr & _ & Hnd & Hcust).
  split; [exact Hc|]. split.
  { apply (run_NoDup m (NextVar solution) _ _ _ Hr). unfold End. lia. }
  split; [exact Hnd|].
  intros c Hin. destruct (Hcust c Hin) as (Hlt & Hne & _).
  pose proof (created_data _ _ _ _ _ created) as Hd. rewrite Hd in Hlt, Hne.
  cbn in Hlt, Hne.
  pose proof (valid_rows _ _ _ _ valid). pose proof (valid_demands _ _ _ _ valid).
  lia.
Qed.

(** X5: in a solved instance every vehicle's decoded route begins and ends
    at the depot and has in between only customers, all between 1 and n and
    all different; so a route always has at least two stops, and the decoder
    stops at the vehicle's own end index. *)
Theorem decoded_route_from_depot_to_depot v :
  (v < vehicle_count)%nat ->
  exists w cs,
    vehicle_route fuel data routing solution v = Ok w
    /\ index w = End m v
    /\ map stop_node (route w) = depot data :: cs ++ [depot data]
    /\ NoDup cs
    /\ (forall c, In c cs -> (1 <= c <= List.length customer_demands)%nat)
    /\ List.length (route w) = S (S (List.length cs)).
Proof.
  intros Hv. destruct (instance_route v Hv) as (w & Hw & Hi & Hr).
  destruct (instance_chain v Hv) as (_ & _ & Hnd & Hcust).
  exists w, (visited routing solution v).
  split; [exact Hw|]. split; [exact Hi|]. rewrite Hr.
  split; [|split; [exact Hnd|split; [exact Hcust|]]].
  - exact (decoded_route_nodes data solution instance_depot_is_node
             instance_demands_length feasible v Hv).
  - exact (decoded_route_length data solution instance_depot_is_node
             instance_demands_length feasible v Hv).
Qed.

(** X6: in a solved instance the distance recorded at the first stop of a
    route is 0, every later stop adds the matrix entry between the previous
    node and its own as the library reads it (an entry outside the 64-bit
    integers counts for 0), and the route's final distance is the length of
    its node sequence in the matrix so read; when every entry fits, that is
    its length in the distance matrix itself. *)
Theorem decoded_route_distance_is_path_length v :
  (v < vehicle_count)%nat ->
  exists w,
    vehicle_route fuel data routing solution v = Ok w
    /\ (exists s rest, route w = s :: rest /\ stop_distance s = 0%Z)
    /\ (forall k s s',
          nth_error (route w) k = Some s ->
          nth_error (route w) (S k) = Some s' ->
          stop_distance s'
          = (stop_distance s
             + as_int64 (cell edges (stop_node s) (stop_node s')))%Z)
    /\ final_distance w = path_length (as_read edges) (map stop_node (route w))
    /\ (Forall (Forall (fun z => fits_int64 z = true)) edges ->
        final_distance w = path_length edges (map stop_node (route w))).
Proof.
  intros Hv. destruct (instance_route v Hv) as (w & Hw & _ & Hr).
  destruct (instance_chain v Hv) as (Hc & Hnd & _).
  assert (He : distance_matrix data = edges).
  { rewrite (created_data _ _ _ _ _ created). reflexivity. }
  assert (Hfinal : final_distance w
                   = path_length (as_read edges) (map stop_node (route w))).
  { unfold final_distance. rewrite Hr. unfold decoded_route. rewrite Hc, <- He.
    rewrite stops_from_nodes.
    cbn [stops_from]. unfold last_stop. rewrite last_cons.
    rewrite stops_from_final_distance.
    - unfold arc_of. rewrite Nat.eqb_refl. lia.
    - exact Hnd.
    - unfold stop_distance. cbn [snd]. unfold arc_of. now rewrite Nat.eqb_refl. }
  exists w. split; [exact Hw|].
  split; [|split; [|split]].
  - rewrite Hr. unfold decoded_route. rewrite Hc.
    cbn [stops_from]. eexists. eexists. split; [reflexivity|].
    unfold stop_distance, arc_of. cbn [snd]. now rewrite Nat.eqb_refl.
  - rewrite Hr. unfold decoded_route. rewrite Hc, <- He.
    intros k s s'. apply stops_from_distance_step. exact Hnd.
  - exact Hfinal.
  - intros Hfits. rewrite Hfinal. now rewrite (as_read_fits _ Hfits).
Qed.

(** X7: in a solved instance with non-negative demands the loads recorded
    along a route never decrease, and with non-negative matrix entries the
    distances never decrease either. *)
Theorem decoded_route_monotone v :
  (v < vehicle_count)%nat ->
  exists w,
    vehicle_route fuel data routing solution v = Ok w
    /\ (Forall (fun d => (0 <= d)%Z) customer_demands ->
        forall i j s s', (i <= j)%nat ->
          nth_error (route w) i = Some s -> nth_error (route w) j = Some s' ->
          (stop_load s <= stop_load s')%Z)
    /\ (Forall (Forall (fun d => (0 <= d)%Z)) edges ->
        forall i j s s', (i <= j)%nat ->
          nth_error (route w) i = Some s -> nth_error (route w) j = Some s' ->
          (stop_distance s <= stop_distance s')%Z).
Proof.
  intros Hv. destruct (instance_route v Hv) as (w & Hw & _ & Hr).
  destruct (instance_chain v Hv) as (Hc & Hnd & _).
  assert (He : distance_matrix data = edges).
  { rewrite (created_data _ _ _ _ _ created). reflexivity. }
  assert (Hdem : demands data = 0%Z :: customer_demands).
  { rewrite (created_data _ _ _ _ _ created). reflexivity. }
  exists w. split; [exact Hw|]. rewrite Hr. unfold decoded_route. split.
  - intros Hpos. apply adjacent_monotone. intros k s s' Hs Hs'.
    rewrite (stops_from_step _ _ _ _ _ _ _ _ _ Hs Hs').
    assert (0 <= demand_of data (stop_node s'))%Z; [|lia].
    unfold demand_of. rewrite Hdem.
    destruct (stop_node s') as [|c]; [simpl; lia|]. cbn [nth].
    destruct (Nat.lt_ge_cases c (List.length customer_demands)) as [Hlt|Hge].
    + rewrite Forall_forall in Hpos. apply Hpos. now apply nth_In.
    + rewrite nth_overflow by exact Hge. lia.
  - intros Hpos. apply adjacent_monotone. intros k s s' Hs Hs'.
    rewrite Hc in Hs, Hs'.
    rewrite (stops_from_distance_step _ _ _ _ _ _ _ _ _ Hnd Hs Hs').
    assert (0 <= as_int64 (cell (distance_matrix data) (stop_node s) (stop_node s')))%Z;
      [|lia].
    apply as_int64_nonneg. rewrite He. unfold cell.
    set (row := nth (stop_node s) edges []).
    assert (Hrow : Forall (fun d => (0 <= d)%Z) row).
    { subst row.
      destruct (Nat.lt_ge_cases (stop_node s) (List.length edges)) as [Hlt|Hge].
      - rewrite Forall_forall in Hpos. apply Hpos. now apply nth_In.
      - rewrite nth_overflow by exact Hge. constructor. }
    destruct (Nat.lt_ge_cases (stop_node s') (List.length row)) as [Hlt|Hge].
    + rewrite Forall_forall in Hrow. apply Hrow. now apply nth_In.
    + rewrite nth_overflow by exact Hge. lia.
Qed.

End SolvedRoutes.

(** ** When the model has a solution *)

Lemma IsStart_false_iff m x :
  IsStart m x = false
  <-> x <> depot_node m /\ ((x < num_nodes m)%nat \/ (Size m <= x)%nat).
Proof.
  unfold IsStart. rewrite orb_false_iff, andb_false_iff, Nat.eqb_neq,
    Nat.leb_gt, Nat.ltb_ge. tauto.
Qed.

Lemma run_one m next i e :
  (i < Size m)%nat -> next i = e -> run m next i [i] e.
Proof. intros Hi <-. constructor; [exact Hi|constructor]. Qed.

Lemma run_two m next i j e :
  (i < Size m)%nat -> next i = j -> (j < Size m)%nat -> next j = e ->
  run m next i [i; j] e.
Proof.
  intros Hi <- Hj <-. constructor; [exact Hi|]. now apply run_one.
Qed.

Section OnePerVehicle.

Variable vehicle_capacity : Z.
Variable customer_demands : list Z.
Variable edges : list (list Z).

Local Abbreviation n := (List.length customer_demands).

Hypothesis edges_rows : List.length edges = S n.
Hypothesis demands_fit :
  forall d, In d customer_demands -> (0 <= d <= vehicle_capacity)%Z.

Local Abbreviation model :=
  (routing_model
     {| distance_matrix := edges;
        demands := 0%Z :: customer_demands;
        vehicle_capacities := repeat vehicle_capacity n;
        num_vehicles := Z.of_nat n;
        depot := 0%nat |}).

Local Abbreviation plan := (one_per_vehicle n customer_demands).

Lemma model_manager :
  manager model = {| num_nodes := S n; vehicles := n; depot_node := 0 |}.
Proof. cbn. now rewrite edges_rows, Nat2Z.id. Qed.

Lemma model_Size : Size (manager model) = (2 * n)%nat.
Proof. rewrite model_manager. unfold Size. cbn. lia. Qed.

Local Ltac compare_all :=
  repeat match goal with
         | |- context [(?a =? ?b)%nat] => destruct (Nat.eqb_spec a b)
         | |- context [(?a <=? ?b)%nat] => destruct (Nat.leb_spec a b)
         | |- context [(?a <? ?b)%nat] => destruct (Nat.ltb_spec a b)
         end.

Lemma plan_next i :
  (i < 2 * n)%nat ->
  (i = 0%nat /\ NextVar plan i = 1%nat)
  \/ ((1 <= i <= n)%nat /\ NextVar plan i = (2 * n + i - 1)%nat)
  \/ ((n < i)%nat /\ NextVar plan i = (i - n + 1)%nat).
Proof.
  intros Hi. cbn [one_per_vehicle NextVar]. compare_all;
    first [ left; split; [lia|reflexivity]
          | right; left; split; [lia|reflexivity]
          | right; right; split; [lia|reflexivity] ].
Qed.

Lemma plan_vehicle i :
  (i < 3 * n)%nat ->
  (VehicleVar plan i < n)%nat
  /\ ((i = 0%nat /\ VehicleVar plan i = 0%nat)
      \/ ((1 <= i <= n)%nat /\ VehicleVar plan i = (i - 1)%nat)
      \/ ((n < i < 2 * n)%nat /\ VehicleVar plan i = (i - n)%nat)
      \/ ((2 * n <= i)%nat /\ VehicleVar plan i = (i - 2 * n)%nat)).
Proof.
  intros Hi. cbn [one_per_vehicle VehicleVar]. compare_all; (split; [lia|]);
    first [ left; split; [lia|reflexivity]
          | right; left; split; [lia|reflexivity]
          | right; right; left; split; [lia|reflexivity]
          | right; right; right; split; [lia|reflexivity] ].
Qed.

Lemma plan_cumul i :
  (i < 3 * n)%nat ->
  ((i < 2 * n)%nat /\ CumulVar plan i = 0%Z)
  \/ ((2 * n <= i)%nat /\ CumulVar plan i = nth (i - 2 * n) customer_demands 0%Z).
Proof.
  intros Hi. cbn [one_per_vehicle CumulVar]. compare_all;
    first [ left; split; [lia|reflexivity] | right; split; [lia|reflexivity] ].
Qed.

Lemma capacity_nonnegative : (0 < n)%nat -> (0 <= vehicle_capacity)%Z.
Proof.
  intros Hn. destruct customer_demands as [|d l]; [simpl in Hn; lia|].
  specialize (demands_fit d (or_introl eq_refl)). lia.
Qed.

Lemma demand_within k :
  (k < n)%nat -> (0 <= nth k customer_demands 0 <= vehicle_capacity)%Z.
Proof. intros Hk. apply demands_fit. now apply nth_In. Qed.

(** Serving every customer with a vehicle of its own satisfies the model
    as soon as each demand is between 0 and the capacity. *)
Lemma one_per_vehicle_feasible : Feasible model plan.
Proof.
  pose proof model_manager as Hm. pose proof model_Size as HS.
  constructor; rewrite ?HS; rewrite ?Hm; cbn [vehicles].
  - intros i Hi. split.
    + destruct (plan_next i Hi) as [[? ->]|[[? ->]|[? ->]]]; lia.
    + apply IsStart_false_iff. unfold Size. cbn [num_nodes vehicles depot_node].
      destruct (plan_next i Hi) as [[? ->]|[[? ->]|[? ->]]]; lia.
  - intros i j Hi Hj.
    destruct (plan_next i Hi) as [[? ->]|[[? ->]|[? ->]]];
      destruct (plan_next j Hj) as [[? ->]|[[? ->]|[? ->]]]; lia.
  - intros i Hi Hnone. rewrite <- Hm in Hnone.
    assert (Hrun : exists l e, run (manager model) (NextVar plan) i l e
                               /\ (Size (manager model) <= e)%nat
                               /\ (List.length l <= 2 * n)%nat).
    { rewrite HS.
      destruct (plan_next i Hi) as [[Hz Hn]|[[Hc Hn]|[Hs Hn]]].
      - destruct (plan_next 1 ltac:(lia)) as [[? ?]|[[_ Hn1]|[? ?]]]; try lia.
        exists [i; 1%nat], (2 * n + 1 - 1)%nat. split; [|simpl; lia].
        apply run_two; rewrite ?HS; try lia; assumption.
      - exists [i], (2 * n + i - 1)%nat. split; [|simpl; lia].
        apply run_one; rewrite ?HS; try lia; assumption.
      - destruct (plan_next (i - n + 1) ltac:(lia)) as [[? ?]|[[_ Hn1]|[? ?]]];
          try lia.
        exists [i; (i - n + 1)%nat], (2 * n + (i - n + 1) - 1)%nat.
        split; [|simpl; lia].
        apply run_two; rewrite ?HS; try lia; assumption. }
    destruct Hrun as (l & e & Hr & He & Hl).
    rewrite (run_chain _ _ _ _ _ _ Hr He Hl) in Hnone. discriminate.
  - intros v Hv. unfold Start. cbn [num_nodes depot_node].
    destruct (Nat.eqb_spec v 0) as [->|Hne].
    + destruct (plan_vehicle 0 ltac:(lia)) as [_ [[_ ->]|[[? _]|[[? _]|[? _]]]]]; lia.
    + destruct (plan_vehicle (S n + v - 1) ltac:(lia))
        as [_ [[? _]|[[? _]|[[_ ->]|[? _]]]]]; lia.
  - intros v Hv. unfold End, Size. cbn [num_nodes vehicles].
    destruct (plan_vehicle (S n + n - 1 + v) ltac:(lia))
      as [_ [[? _]|[[? _]|[[? _]|[_ ->]]]]]; lia.
  - intros i Hi.
    destruct (plan_next i Hi) as [[Hz Hn]|[[Hc Hn]|[Hs Hn]]]; rewrite Hn.
    + destruct (plan_vehicle 1 ltac:(lia)) as [_ [[? _]|[[_ ->]|[[? _]|[? _]]]]];
        try lia.
      destruct (plan_vehicle i ltac:(lia)) as [_ [[_ ->]|[[? _]|[[? _]|[? _]]]]]; lia.
    + destruct (plan_vehicle (2 * n + i - 1) ltac:(lia))
        as [_ [[? _]|[[? _]|[[? _]|[_ ->]]]]]; try lia.
      destruct (plan_vehicle i ltac:(lia)) as [_ [[? _]|[[_ ->]|[[? _]|[? _]]]]]; lia.
    + destruct (plan_vehicle (i - n + 1) ltac:(lia))
        as [_ [[? _]|[[_ ->]|[[? _]|[? _]]]]]; try lia.
      destruct (plan_vehicle i ltac:(lia)) as [_ [[? _]|[[? _]|[[_ ->]|[? _]]]]]; lia.
  - intros _ v Hv. unfold Start. cbn [num_nodes depot_node].
    destruct (Nat.eqb_spec v 0) as [->|Hne].
    + destruct (plan_cumul 0 ltac:(lia)) as [[_ ->]|[? _]]; [reflexivity|lia].
    + destruct (plan_cumul (S n + v - 1) ltac:(lia)) as [[_ ->]|[? _]];
        [reflexivity|lia].
  - intros i Hi.
    change (dimension_slack_max model) with 0%Z.
    change (dimension_transit model i)
      with (getitem (0%Z :: customer_demands) (IndexToNode (manager model) i)).
    rewrite Hm. unfold IndexToNode. cbn [num_nodes depot_node].
    destruct (plan_cumul i ltac:(lia)) as [[_ Hci]|[? _]]; [|lia].
    rewrite Hci.
    destruct (plan_next i Hi) as [[Hz Hn]|[[Hc Hn]|[Hs Hn]]]; rewrite Hn.
    + subst i. exists 0%Z. split; [reflexivity|].
      destruct (plan_cumul 1 ltac:(lia)) as [[_ ->]|[? _]]; lia.
    + destruct (Nat.ltb_spec i (S n)); [|lia].
      exists (nth i (0%Z :: customer_demands) 0%Z). split.
      * apply getitem_Ok. simpl. lia.
      * destruct (plan_cumul (2 * n + i - 1) ltac:(lia)) as [[? _]|[_ ->]]; [lia|].
        replace (2 * n + i - 1 - 2 * n)%nat with (i - 1)%nat by lia.
        destruct i as [|k]; [lia|]. cbn [nth].
        replace (S k - 1)%nat with k by lia. lia.
    + destruct (Nat.ltb_spec i (S n)); [lia|].
      exists 0%Z. split; [reflexivity|].
      destruct (plan_cumul (i - n + 1) ltac:(lia)) as [[_ ->]|[? _]]; lia.
  - intros i Hi. replace (2 * n + n)%nat with (3 * n)%nat in Hi by lia.
    change (dimension_capacities model) with (repeat vehicle_capacity n).
    destruct (plan_vehicle i Hi) as [Hv _].
    rewrite (nth_repeat_lt vehicle_capacity 0%Z Hv).
    pose proof (capacity_nonnegative ltac:(lia)) as Hcap.
    destruct (plan_cumul i Hi) as [[_ ->]|[Hge ->]]; [lia|].
    apply demand_within. lia.
Qed.

End OnePerVehicle.

(** ** The cost of serving every customer with a vehicle of its own *)

Lemma as_int64_le z : (0 <= z)%Z -> (0 <= as_int64 z <= z)%Z.
Proof. unfold as_int64. destruct (fits_int64 z); lia. Qed.

Lemma cell_nonnegative edges i j :
  Forall (Forall (fun z => (0 <= z)%Z)) edges -> (0 <= cell edges i j)%Z.
Proof.
  intros Hpos. unfold cell.
  assert (Hrow : Forall (fun z => (0 <= z)%Z) (nth i edges [])).
  { destruct (Nat.lt_ge_cases i (List.length edges)) as [Hlt|Hge].
    - rewrite Forall_forall in Hpos. apply Hpos. now apply nth_In.
    - rewrite nth_overflow by exact Hge. constructor. }
  destruct (Nat.lt_ge_cases j (List.length (nth i edges []))) as [Hlt|Hge].
  - rewrite Forall_forall in Hrow. apply Hrow. now apply nth_In.
  - rewrite nth_overflow by exact Hge. lia.
Qed.

Lemma sum_Z_map_seq_le (f g : nat -> Z) a b k :
  (forall j, (j < k)%nat -> (f (a + j)%nat <= g (b + j)%nat)%Z) ->
  (sum_Z (map f (seq a k)) <= sum_Z (map g (seq b k)))%Z.
Proof.
  revert a b. induction k as [|k IH]; intros a b H; [simpl; lia|].
  pose proof (H 0%nat ltac:(lia)) as H0. rewrite !Nat.add_0_r in H0.
  assert (Hrest : (sum_Z (map f (seq (S a) k)) <= sum_Z (map g (seq (S b) k)))%Z).
  { apply IH. intros j Hj. specialize (H (S j) ltac:(lia)).
    now rewrite !Nat.add_succ_r in H. }
  cbn [seq map]. unfold sum_Z in *. cbn [fold_right]. lia.
Qed.

Lemma sum_Z_map_add {A : Type} (f g : A -> Z) (l : list A) :
  sum_Z (map (fun a => (f a + g a)%Z) l) = (sum_Z (map f l) + sum_Z (map g l))%Z.
Proof.
  induction l as [|a l IH]; [reflexivity|].
  cbn [map]. unfold sum_Z in *. cbn [fold_right]. lia.
Qed.

(** Costs bounded arc by arc by the way out to a customer and the way back
    add up to at most the return trips. *)
Lemma return_trips_bound (cost out back : nat -> Z) (k : nat) :
  (1 <= k)%nat ->
  (cost 0%nat <= out 1%nat)%Z ->
  (forall j, (j < k)%nat -> (cost (1 + j)%nat <= back (1 + j)%nat)%Z) ->
  (forall j, (j < k - 1)%nat -> (cost (1 + k + j)%nat <= out (2 + j)%nat)%Z) ->
  (sum_Z (map cost (seq 0 (2 * k)))
   <= sum_Z (map (fun c => (out c + back c)%Z) (seq 1 k)))%Z.
Proof.
  intros Hk H0 Hback Hout. rewrite sum_Z_map_add.
  destruct k as [|k]; [lia|].
  replace (2 * S k)%nat with (1 + (S k + k))%nat by lia.
  rewrite !seq_app, !map_app, !sum_Z_app.
  pose proof (sum_Z_map_seq_le cost back (0 + 1) 1 (S k) Hback) as H1.
  assert (H2 : (sum_Z (map cost (seq (0 + 1 + S k) k))
                <= sum_Z (map out (seq 2 k)))%Z).
  { apply sum_Z_map_seq_le. intros j Hj. apply Hout. lia. }
  change (seq 1 (S k)) with (1%nat :: seq 2 k) at 1.
  change (seq 0 1) with [0%nat].
  cbn [map]. unfold sum_Z in *. cbn [fold_right]. lia.
Qed.

Section OnePerVehicleCost.

Variable vehicle_capacity : Z.
Variable customer_demands : list Z.
Variable edges : list (list Z).

Local Abbreviation n := (List.length customer_demands).

Hypothesis customers_exist : (1 <= n)%nat.
Hypothesis edges_rows : List.length edges = S n.
Hypothesis edges_square :
  Forall (fun row => List.length row = List.length edges) edges.
Hypothesis edges_nonnegative : Forall (Forall (fun z => (0 <= z)%Z)) edges.
Hypothesis trips_fit : (return_trips edges <= int64_max)%Z.
Hypothesis demands_fit :
  forall d, In d customer_demands -> (0 <= d <= vehicle_capacity)%Z.

Local Abbreviation model :=
  (routing_model
     {| distance_matrix := edges;
        demands := 0%Z :: customer_demands;
        vehicle_capacities := repeat vehicle_capacity n;
        num_vehicles := Z.of_nat n;
        depot := 0%nat |}).

Local Abbreviation plan := (one_per_vehicle n customer_demands).

(** The arc the plan uses out of an index: out to a customer from a start,
    back to the depot from a customer. *)
Lemma plan_arc i :
  (i < 2 * n)%nat ->
  exists a b,
    arc_cost_evaluator model i (NextVar plan i) = Ok (as_int64 (cell edges a b))
    /\ ((i = 0%nat /\ a = 0%nat /\ b = 1%nat)
        \/ ((1 <= i <= n)%nat /\ a = i /\ b = 0%nat)
        \/ ((n < i)%nat /\ a = 0%nat /\ b = (i - n + 1)%nat)).
Proof.
  intros Hi.
  exists (IndexToNode (manager model) i),
         (IndexToNode (manager model) (NextVar plan i)).
  split.
  - cbn [arc_cost_evaluator routing_model distance_matrix].
    rewrite (square_cell _ edges_square).
    + reflexivity.
    + unfold IndexToNode. cbn [manager routing_model num_nodes depot_node
                                 distance_matrix depot].
      destruct (Nat.ltb_spec i (List.length edges)); lia.
    + unfold IndexToNode. cbn [manager routing_model num_nodes depot_node
                                 distance_matrix depot].
      destruct (Nat.ltb_spec (NextVar plan i) (List.length edges)); lia.
  - unfold IndexToNode. cbn [manager routing_model num_nodes depot_node
                               distance_matrix depot].
    rewrite edges_rows.
    destruct (plan_next customer_demands edges edges_rows i Hi)
      as [[Hz Hn]|[[Hc Hn]|[Hs Hn]]];
      rewrite Hn.
    + left. subst i.
      destruct (Nat.ltb_spec 0 (S n)); [|lia].
      destruct (Nat.ltb_spec 1 (S n)); [|lia]. auto.
    + right. left.
      destruct (Nat.ltb_spec i (S n)); [|lia].
      destruct (Nat.ltb_spec (2 * n + i - 1) (S n)); [lia|]. auto.
    + right. right.
      destruct (Nat.ltb_spec i (S n)); [lia|].
      destruct (Nat.ltb_spec (i - n + 1) (S n)); [|lia]. auto.
Qed.

Lemma plan_objective : (objective model plan <= return_trips edges)%Z.
Proof.
  unfold objective, return_trips.
  rewrite (model_Size vehicle_capacity customer_demands edges edges_rows).
  rewrite edges_rows. replace (S n - 1)%nat with n by lia.
  assert (Hcost : forall i a b,
             (i < 2 * n)%nat ->
             arc_cost_evaluator model i (NextVar plan i)
             = Ok (as_int64 (cell edges a b)) ->
             (arc_cost model plan i <= cell edges a b)%Z).
  { intros i a b Hi Harc. unfold arc_cost. rewrite Harc.
    apply as_int64_le, cell_nonnegative, edges_nonnegative. }
  apply return_trips_bound.
  - exact customers_exist.
  - destruct (plan_arc 0) as (a & b & Harc & [(_ & -> & ->)|[[? _]|[? _]]]);
      try lia.
    apply Hcost; [lia|exact Harc].
  - intros j Hj.
    destruct (plan_arc (1 + j)) as (a & b & Harc & [[? _]|[(_ & -> & ->)|[? _]]]);
      try lia.
    apply Hcost; [lia|exact Harc].
  - intros j Hj.
    destruct (plan_arc (1 + n + j))
      as (a & b & Harc & [[? _]|[[? _]|(_ & -> & ->)]]); try lia.
    replace (2 + j)%nat with (1 + n + j - n + 1)%nat by lia.
    apply Hcost; [lia|exact Harc].
Qed.

(** Serving every customer with a vehicle of its own is a solution when each
    demand is between 0 and the capacity, no distance is negative and the
    return trips add up within the library's integers. *)
Lemma one_per_vehicle_solution : Solution model plan.
Proof.
  constructor.
  - apply one_per_vehicle_feasible; [exact edges_rows|exact demands_fit].
  - rewrite (model_Size vehicle_capacity customer_demands edges edges_rows).
    intros i Hi. destruct (plan_arc i Hi) as (a & b & Harc & _).
    eexists. split; [exact Harc|].
    apply as_int64_le, cell_nonnegative, edges_nonnegative.
  - pose proof plan_objective. lia.
Qed.

End OnePerVehicleCost.

(** X8: for an accepted input with at least one customer whose capacity and
    demands are non-negative 64-bit integers, whose distances are not
    negative and whose return trips from the depot add up within the 64-bit
    integers, the library accepts the model, and the model has a solution
    exactly when every single demand fits in a vehicle: there is one vehicle
    per customer, so the fleet's total capacity is never what rules a
    solution out. *)
Theorem model_has_solution_iff_each_demand_fits
    num_customers vehicle_capacity customer_demands edges data :
  valid_input num_customers vehicle_capacity customer_demands edges ->
  create_data_model num_customers vehicle_capacity customer_demands edges = Ok data ->
  customer_demands <> [] ->
  (0 <= vehicle_capacity <= int64_max)%Z ->
  Forall (fun d => (0 <= d <= int64_max)%Z) customer_demands ->
  Forall (Forall (fun z => (0 <= z)%Z)) edges ->
  (return_trips edges <= int64_max)%Z ->
  library_accepts data = Ok tt
  /\ ((exists solution, Solution (routing_model data) solution)
      <-> Forall (fun d => (d <= vehicle_capacity)%Z) customer_demands).
Proof.
  intros Hvalid Hdata Hne Hcap Hpos Hedges Htrips.
  split; [exact (library_accepts_Ok _ _ _ _ _ Hvalid Hdata Hne Hcap)|].
  split.
  - intros [solution Hs]. apply Forall_forall. intros d Hd.
    exact (solved_demand_bounded _ _ _ _ _ _ _ Hvalid Hdata
             (solution_feasible _ _ Hs) (le_n _) d Hd).
  - intros Hfit. exists (one_per_vehicle (List.length customer_demands) customer_demands).
    pose proof (valid_demands _ _ _ _ Hvalid) as Hn.
    pose proof (valid_rows _ _ _ _ Hvalid) as Hr.
    rewrite (created_data _ _ _ _ _ Hdata). rewrite <- Hn. rewrite Nat2Z.id.
    apply one_per_vehicle_solution.
    + destruct customer_demands; [congruence|simpl; lia].
    + lia.
    + exact (valid_columns _ _ _ _ Hvalid).
    + exact Hedges.
    + exact Htrips.
    + intros d Hd. rewrite Forall_forall in Hpos, Hfit.
      split; [now apply Hpos|now apply Hfit].
Qed.

Lemma model_has_solution_iff_each_demand_fits_witness :
  library_accepts example_data = Ok tt
  /\ ((exists solution, Solution (routing_model example_data) solution)
      <-> Forall (fun d => (d <= 10)%Z) example_demands).
Proof.
  apply (model_has_solution_iff_each_demand_fits 2 10 example_demands
           example_edges example_data example_valid example_created).
  - discriminate.
  - unfold int64_max. lia.
  - unfold int64_max. repeat constructor; lia.
  - repeat constructor; lia.
  - vm_compute. discriminate.
Defined.

(** ** solve_routing_problem from end to end *)

Lemma instance_Size num_customers vehicle_capacity customer_demands edges data :
  valid_input num_customers vehicle_capacity customer_demands edges ->
  create_data_model num_customers vehicle_capacity customer_demands edges = Ok data ->
  Size (manager (routing_model data)) = (2 * List.length customer_demands)%nat.
Proof.
  intros Hvalid Hdata.
  pose proof (valid_demands _ _ _ _ Hvalid) as Hn.
  pose proof (valid_rows _ _ _ _ Hvalid) as Hr.
  rewrite (created_data _ _ _ _ _ Hdata). unfold Size. cbn. lia.
Qed.

(** The ways [solve_routing_problem] ends on a valid input. *)
Lemma solve_routing_problem_cases
    (SolveWithParameters : RoutingModel -> RoutingSearchParameters -> option Assignment)
    (fuel : nat) (num_customers vehicle_capacity : Z)
    (customer_demands : list Z) (edges : list (list Z)) :
  (forall routing parameters solution,
      SolveWithParameters routing parameters = Some solution ->
      Feasible routing solution) ->
  valid_input num_customers vehicle_capacity customer_demands edges ->
  Forall (fun d => fits_int64 d = true) customer_demands ->
  (2 * List.length customer_demands <= fuel)%nat ->
  exists data,
    create_data_model num_customers vehicle_capacity customer_demands edges = Ok data
    /\ (customer_demands = [] ->
        solve_routing_problem SolveWithParameters fuel num_customers
          vehicle_capacity customer_demands edges = Raise LibraryAbort)
    /\ (customer_demands <> [] -> fits_int64 vehicle_capacity = false ->
        solve_routing_problem SolveWithParameters fuel num_customers
          vehicle_capacity customer_demands edges = Raise OverflowError)
    /\ (customer_demands <> [] -> (int64_min <= vehicle_capacity < 0)%Z ->
        solve_routing_problem SolveWithParameters fuel num_customers
          vehicle_capacity customer_demands edges = Raise LibraryAbort)
    /\ (customer_demands <> [] -> (0 <= vehicle_capacity <= int64_max)%Z ->
        (SolveWithParameters (routing_model data) search_parameters = None
         /\ solve_routing_problem SolveWithParameters fuel num_customers
              vehicle_capacity customer_demands edges = Ok no_solution)
        \/ (exists solution ws,
              SolveWithParameters (routing_model data) search_parameters = Some solution
              /\ vehicle_routes fuel data (routing_model data) solution
                   (seq 0 (Z.to_nat (num_vehicles data))) = Ok ws
              /\ solve_routing_problem SolveWithParameters fuel num_customers
                   vehicle_capacity customer_demands edges
                 = Ok (report_of (routing_model data) ws))).
Proof.
  intros Hsound Hvalid _ Hfuel.
  destruct (create_data_model_Ok num_customers vehicle_capacity customer_demands
              edges (valid_demands _ _ _ _ Hvalid)) as [data Hdata].
  exists data. split; [exact Hdata|].
  pose proof (library_accepts_created _ _ _ _ _ Hvalid Hdata) as Hlib.
  unfold solve_routing_problem. rewrite Hdata. cbn [bind].
  split; [|split; [|split]].
  - intros ->. rewrite Hlib. reflexivity.
  - intros Hne Hfit. destruct customer_demands as [|d ds]; [congruence|].
    rewrite Hlib, Hfit. reflexivity.
  - intros Hne Hcap. destruct customer_demands as [|d ds]; [congruence|].
    rewrite Hlib.
    assert (Hfit : fits_int64 vehicle_capacity = true).
    { unfold fits_int64, int64_min, int64_max in *.
      apply andb_true_intro. split; apply Z.leb_le; lia. }
    rewrite Hfit. cbn [negb].
    destruct (Z.ltb_spec vehicle_capacity 0); [reflexivity|lia].
  - intros Hne Hcap.
    rewrite (library_accepts_Ok _ _ _ _ _ Hvalid Hdata Hne Hcap). cbn [bind].
    destruct (SolveWithParameters (routing_model data) search_parameters)
      as [solution|] eqn:Hsolve.
    + right. pose proof (Hsound _ _ _ Hsolve) as Hf.
      assert (Hsize : (Size (manager (routing_model data)) <= fuel)%nat).
      { rewrite (instance_Size _ _ _ _ _ Hvalid Hdata). exact Hfuel. }
      destruct (solved_routes _ _ _ _ _ _ _ Hvalid Hdata Hf Hsize) as (ws & Hws & _).
      exists solution, ws. split; [reflexivity|]. split; [exact Hws|].
      rewrite print_solution_report, Hws. reflexivity.
    + left. split; reflexivity.
Qed.

(** X9: how [solve_routing_problem] ends on a valid input whose demands fit
    the library's 64-bit integers, for a search that only returns solutions
    of the model and a decoding budget of at least twice the number of
    customers. Without a customer the library stops the process; with a
    capacity outside the 64-bit integers the call raises [OverflowError];
    with a negative capacity the library stops the process; otherwise a text
    is returned, either [No solution found.] when the search returns
    nothing, or the report of the routes decoded from the solution the
    search returned. *)
Theorem solve_routing_problem_outcomes
    (SolveWithParameters : RoutingModel -> RoutingSearchParameters -> option Assignment)
    (fuel : nat) (num_customers vehicle_capacity : Z)
    (customer_demands : list Z) (edges : list (list Z)) :
  (forall routing parameters solution,
      SolveWithParameters routing parameters = Some solution ->
      Feasible routing solution) ->
  valid_input num_customers vehicle_capacity customer_demands edges ->
  Forall (fun d => fits_int64 d = true) customer_demands ->
  (2 * List.length customer_demands <= fuel)%nat ->
  exists data,
    create_data_model num_customers vehicle_capacity customer_demands edges = Ok data
    /\ (customer_demands = [] ->
        solve_routing_problem SolveWithParameters fuel num_customers
          vehicle_capacity customer_demands edges = Raise LibraryAbort)
    /\ (customer_demands <> [] -> fits_int64 vehicle_capacity = false ->
        solve_routing_problem SolveWithParameters fuel num_customers
          vehicle_capacity customer_demands edges = Raise OverflowError)
    /\ (customer_demands <> [] -> (int64_min <= vehicle_capacity < 0)%Z ->
        solve_routing_problem SolveWithParameters fuel num_customers
          vehicle_capacity customer_demands edges = Raise LibraryAbort)
    /\ (customer_demands <> [] -> (0 <= vehicle_capacity <= int64_max)%Z ->
        (SolveWithParameters (routing_model data) search_parameters = None
         /\ solve_routing_problem SolveWithParameters fuel num_customers
              vehicle_capacity customer_demands edges = Ok no_solution)
        \/ (exists solution ws,
              SolveWithParameters (routing_model data) search_parameters = Some solution
              /\ vehicle_routes fuel data (routing_model data) solution
                   (seq 0 (Z.to_nat (num_vehicles data))) = Ok ws
              /\ solve_routing_problem SolveWithParameters fuel num_customers
                   vehicle_capacity customer_demands edges
                 = Ok (report_of (routing_model data) ws))).
Proof.
  apply solve_routing_problem_cases.
Qed.

Lemma large_capacity_valid :
  valid_input 1 overflowing_capacity [3]%Z overloaded_edges.
Proof.
  apply (parse_input_Ok_valid int_decimal int_decimal_message
           "1" "9223372036854775808" "3" "0,1;1,0").
  reflexivity.
Qed.

Lemma negative_capacity_valid : valid_input 1 (-5) [-3]%Z [[0; -1]; [-1; 0]]%Z.
Proof.
  apply (parse_input_Ok_valid int_decimal int_decimal_message
           "1" "-5" "-3" "0,-1;-1,0").
  reflexivity.
Qed.

Lemma no_customer_valid : valid_input 0 10 [] [[0]]%Z.
Proof.
  constructor; try reflexivity.
  - repeat constructor.
  - intros i j Hi Hj. simpl in Hi, Hj.
    assert (i = 0%nat) by lia. assert (j = 0%nat) by lia. now subst.
  - intros i Hi. simpl in Hi. assert (i = 0%nat) by lia. now subst.
  - intros i j Hi Hj Hij. simpl in Hi, Hj. lia.
Qed.

Lemma solve_routing_problem_outcomes_witness :
  (exists solution ws,
      checking_search (routing_model example_data) search_parameters = Some solution
      /\ vehicle_routes 4 example_data (routing_model example_data) solution
           (seq 0 (Z.to_nat (num_vehicles example_data))) = Ok ws
      /\ solve_routing_problem checking_search 4 2 10 example_demands example_edges
         = Ok (report_of (routing_model example_data) ws))
  /\ solve_routing_problem checking_search 4 1 overflowing_capacity [3]%Z
       overloaded_edges = Raise OverflowError
  /\ solve_routing_problem checking_search 4 1 (-5) [-3]%Z [[0; -1]; [-1; 0]]%Z
     = Raise LibraryAbort
  /\ solve_routing_problem checking_search 4 0 10 [] [[0]]%Z = Raise LibraryAbort.
Proof.
  split; [|split; [|split]].
  - destruct (solve_routing_problem_outcomes checking_search 4 2 10
                example_demands example_edges checking_search_sound example_valid)
      as (data & Hdata & _ & _ & _ & H).
    + repeat constructor.
    + simpl. lia.
    + assert (Hd : data = example_data).
      { rewrite example_created in Hdata. now injection Hdata. }
      subst data.
      destruct H as [[Hnone _]|H]; [discriminate|unfold int64_max; lia| |exact H].
      vm_compute in Hnone. discriminate Hnone.
  - destruct (solve_routing_problem_outcomes checking_search 4 1
                overflowing_capacity [3]%Z overloaded_edges checking_search_sound
                large_capacity_valid)
      as (data & _ & _ & H & _); [repeat constructor|simpl; lia|].
    apply H; [discriminate|reflexivity].
  - destruct (solve_routing_problem_outcomes checking_search 4 1 (-5) [-3]%Z
                [[0; -1]; [-1; 0]]%Z checking_search_sound negative_capacity_valid)
      as (data & _ & _ & _ & H & _); [repeat constructor|simpl; lia|].
    apply H; [discriminate|unfold int64_min; lia].
  - destruct (solve_routing_problem_outcomes checking_search 4 0 10 []
                [[0]]%Z checking_search_sound no_customer_valid)
      as (data & _ & H & _); [constructor|simpl; lia|].
    apply H. reflexivity.
Defined.





Lemma decoded_route_from_depot_to_depot_witness :
  exists w cs,
    vehicle_route 4 example_data (routing_model example_data) one_route 0 = Ok w
    /\ index w = End (manager (routing_model example_data)) 0
    /\ map stop_node (route w) = depot example_data :: cs ++ [depot example_data]
    /\ NoDup cs
    /\ (forall c, In c cs -> (1 <= c <= List.length example_demands)%nat)
    /\ List.length (route w) = S (S (List.length cs)).
Proof.
  apply (decoded_route_from_depot_to_depot 2 10 example_demands example_edges
           example_data one_route 4 example_valid example_created
           one_route_feasible).
  - vm_compute. lia.
  - vm_compute. lia.
Defined.

Lemma decoded_route_distance_is_path_length_witness :
  exists w,
    vehicle_route 4 example_data (routing_model example_data) one_route 0 = Ok w
    /\ (exists s rest, route w = s :: rest /\ stop_distance s = 0%Z)
    /\ (forall k s s',
          nth_error (route w) k = Some s ->
          nth_error (route w) (S k) = Some s' ->
          stop_distance s'
          = (stop_distance s
             + as_int64 (cell example_edges (stop_node s) (stop_node s')))%Z)
    /\ final_distance w
       = path_length (as_read example_edges) (map stop_node (route w))
    /\ (Forall (Forall (fun z => fits_int64 z = true)) example_edges ->
        final_distance w = path_length example_edges (map stop_node (route w))).
Proof.
  apply (decoded_route_distance_is_path_length 2 10 example_demands example_edges
           example_data one_route 4 example_valid example_created
           one_route_feasible).
  - vm_compute. lia.
  - vm_compute. lia.
Defined.

Lemma decoded_route_monotone_witness :
  exists w,
    vehicle_route 4 example_data (routing_model example_data) one_route 0 = Ok w
    /\ (Forall (fun d => (0 <= d)%Z) example_demands ->
        forall i j s s', (i <= j)%nat ->
          nth_error (route w) i = Some s -> nth_error (route w) j = Some s' ->
          (stop_load s <= stop_load s')%Z)
    /\ (Forall (Forall (fun d => (0 <= d)%Z)) example_edges ->
        forall i j s s', (i <= j)%nat ->
          nth_error (route w) i = Some s -> nth_error (route w) j = Some s' ->
          (stop_distance s <= stop_distance s')%Z).
Proof.
  apply (decoded_route_monotone 2 10 example_demands example_edges
           example_data one_route 4 example_valid example_created
           one_route_feasible).
  - vm_compute. lia.
  - vm_compute. lia.
Defined.

(** ** The click handler *)

Section ClickHandler.

Variable int : string -> option Z.
Variable int_message : string -> string.
Variable SolveWithParameters :
  RoutingModel -> RoutingSearchParameters -> option Assignment.

Hypothesis search_sound : forall routing parameters solution,
  SolveWithParameters routing parameters = Some solution ->
  Feasible routing solution.

Lemma parse_input_cases s1 s2 s3 s4 :
  (exists n cap ds es,
      parse_input int int_message s1 s2 s3 s4 = Ok (n, cap, ds, es)
      /\ valid_input n cap ds es)
  \/ (exists msg,
        parse_input int int_message s1 s2 s3 s4
        = Raise (ValueError ("Invalid input: " ^^ msg))).
Proof.
  unfold parse_input.
  destruct (parse_input_try_cases int int_message s1 s2 s3 s4)
    as [(n & cap & ds & es & Ht & _ & Hv)|[msg [Ht _]]]; rewrite Ht.
  - left. exists n, cap, ds, es. auto.
  - right. exists msg. reflexivity.
Qed.

Lemma accepted_demands_nonempty s1 s2 s3 s4 n cap ds es :
  parse_input int int_message s1 s2 s3 s4 = Ok (n, cap, ds, es) -> ds <> [].
Proof.
  intros H. apply parse_input_Ok_valid in H as [(_ & _ & Hd & _) _].
  pose proof (Forall2_length Hd) as Hlen.
  pose proof (split_nonempty "," s3) as Hne.
  intros ->. destruct (split "," s3); [congruence|discriminate].
Qed.

(** X11: what a click on Solve does, given a search that only returns
    solutions of the model, demands that fit the library's 64-bit integers
    and enough decoding steps. Either [parse_input] rejects the fields, and
    the page gets an open error dialog with its message while the result
    control is left untouched; or the fields are accepted and, with a
    capacity outside the 64-bit integers, [OverflowError] escapes the
    handler, which only catches [ValueError]; with a negative capacity the
    library stops the process; and otherwise the result control receives the
    text of [solve_routing_problem] and the result dialog is opened,
    [page.dialog] being left as it was. *)
Theorem solve_and_display_outcome fuel s1 s2 s3 s4 page :
  (forall n cap ds es,
      parse_input int int_message s1 s2 s3 s4 = Ok (n, cap, ds, es) ->
      Forall (fun d => fits_int64 d = true) ds
      /\ (2 * List.length ds <= fuel)%nat) ->
  (exists msg,
      parse_input int int_message s1 s2 s3 s4
      = Raise (ValueError ("Invalid input: " ^^ msg))
      /\ solve_and_display int int_message SolveWithParameters fuel s1 s2 s3 s4 page
         = Ok {| page_dialog := ErrorDialog ("Invalid input: " ^^ msg) true;
                 result_text_control_value := result_text_control_value page;
                 result_dialog_open := result_dialog_open page |})
  \/ (exists n cap ds es,
        parse_input int int_message s1 s2 s3 s4 = Ok (n, cap, ds, es)
        /\ ((fits_int64 cap = false
             /\ solve_and_display int int_message SolveWithParameters fuel
                  s1 s2 s3 s4 page = Raise OverflowError)
            \/ ((int64_min <= cap < 0)%Z
                /\ solve_and_display int int_message SolveWithParameters fuel
                     s1 s2 s3 s4 page = Raise LibraryAbort)
            \/ ((0 <= cap <= int64_max)%Z
                /\ exists text,
                     solve_routing_problem SolveWithParameters fuel n cap ds es
                     = Ok text
                     /\ solve_and_display int int_message SolveWithParameters fuel
                          s1 s2 s3 s4 page
                        = Ok {| page_dialog := page_dialog page;
                                result_text_control_value := text;
                                result_dialog_open := true |}))).
Proof.
  intros Hfuel. unfold solve_and_display.
  destruct (parse_input_cases s1 s2 s3 s4)
    as [(n & cap & ds & es & Hp & Hv)|[msg Hp]].
  - right. exists n, cap, ds, es. split; [exact Hp|].
    destruct (Hfuel n cap ds es Hp) as [Hfits Hsteps].
    pose proof (accepted_demands_nonempty _ _ _ _ _ _ _ _ Hp) as Hne.
    destruct (solve_routing_problem_cases SolveWithParameters fuel n cap ds es
                search_sound Hv Hfits Hsteps)
      as (data & _ & _ & Hover & Hneg & Hrun).
    rewrite Hp.
    destruct (fits_int64 cap) eqn:Hfit.
    + assert (Hrange : (int64_min <= cap <= int64_max)%Z).
      { unfold fits_int64 in Hfit. apply andb_prop in Hfit as [H1 H2].
        apply Z.leb_le in H1, H2. lia. }
      destruct (Z.lt_ge_cases cap 0) as [Hlt|Hge].
      * right. left. split; [lia|]. rewrite (Hneg Hne) by lia. reflexivity.
      * right. right. split; [lia|].
        destruct (Hrun Hne ltac:(lia)) as [[_ Hs]|(sol & ws & _ & _ & Hs)];
          rewrite Hs; eauto.
    + left. split; [reflexivity|]. rewrite (Hover Hne eq_refl). reflexivity.
  - left. exists msg. rewrite Hp. auto.
Qed.





End ClickHandler.

Lemma solve_and_display_outcome_witness :
  (exists text,
      solve_routing_problem checking_search 4 2 10 example_demands example_edges
      = Ok text
      /\ solve_and_display int_decimal int_decimal_message checking_search 4
           "2" "10" "3,4" "0,1,2;1,0,3;2,3,0" initial_page
         = Ok {| page_dialog := ResultDialog;
                 result_text_control_value := text;
                 result_dialog_open := true |})
  /\ solve_and_display int_decimal int_decimal_message checking_search 4
       "1" "9223372036854775808" "3" "0,1;1,0" initial_page
     = Raise OverflowError.
Proof.
  split.
  - destruct (solve_and_display_outcome int_decimal int_decimal_message
                checking_search checking_search_sound 4
                "2" "10" "3,4" "0,1,2;1,0,3;2,3,0" initial_page)
      as [(msg & Hp & _)|(n & cap & ds & es & Hp & H)].
    + intros n cap ds es Hp. vm_compute in Hp. injection Hp as _ _ <- _.
      split; [repeat constructor|simpl; lia].
    + vm_compute in Hp. discriminate Hp.
    + assert (Hq : parse_input int_decimal int_decimal_message
                     "2" "10" "3,4" "0,1,2;1,0,3;2,3,0"
                   = Ok (2%Z, 10%Z, example_demands, example_edges))
        by reflexivity.
      rewrite Hq in Hp.
      assert (Hn : n = 2%Z) by congruence.
      assert (Hc : cap = 10%Z) by congruence.
      assert (Hd : ds = example_demands) by congruence.
      assert (He : es = example_edges) by congruence.
      subst n cap ds es.
      destruct H as [[Hfit _]|[[Hneg _]|[_ H]]];
        [vm_compute in Hfit; discriminate Hfit|lia|exact H].
  - destruct (solve_and_display_outcome int_decimal int_decimal_message
                checking_search checking_search_sound 4
                "1" "9223372036854775808" "3" "0,1;1,0" initial_page)
      as [(msg & Hp & _)|(n & cap & ds & es & Hp & H)].
    + intros n cap ds es Hp. vm_compute in Hp. injection Hp as _ _ <- _.
      split; [repeat constructor|simpl; lia].
    + vm_compute in Hp. discriminate Hp.
    + assert (Hq : parse_input int_decimal int_decimal_message
                     "1" "9223372036854775808" "3" "0,1;1,0"
                   = Ok (1%Z, overflowing_capacity, [3]%Z, overloaded_edges))
        by reflexivity.
      rewrite Hq in Hp.
      assert (Hc : cap = overflowing_capacity) by congruence.
      subst cap.
      destruct H as [[_ H]|[[Hneg _]|[[_ Hmax] _]]];
        [exact H|unfold overflowing_capacity in Hneg; lia
        |unfold overflowing_capacity, int64_max in Hmax; lia].
Defined.


(** ** The messages of parse_input *)

Section ParseInputMessages.

Variable int : string -> option Z.
Variable int_message : string -> string.

Lemma py_int_Raise_message s e :
  py_int int int_message s = Raise e ->
  int s = None /\ e = ValueError (int_message s).
Proof.
  unfold py_int. destruct (int s); intros H; [discriminate|].
  injection H as <-. auto.
Qed.

Lemma map_int_Raise_message tokens e :
  map_int int int_message tokens = Raise e ->
  exists t, In t tokens /\ int t = None /\ e = ValueError (int_message t).
Proof.
  induction tokens as [|t ts IH]; cbn [map_int]; [discriminate|].
  intros H. apply bind_Raise in H as [H|(z & _ & H)].
  - apply py_int_Raise_message in H as [Hn ->]. exists t. simpl. auto.
  - apply bind_Raise in H as [H|(zs & _ & H)]; [|discriminate].
    destruct (IH H) as (t' & Hin & Hn & ->). exists t'. simpl. auto.
Qed.

Lemma parse_rows_Raise_message lines e :
  parse_rows int int_message lines = Raise e ->
  exists t, In t (flat_map (split ",") lines)
            /\ int t = None /\ e = ValueError (int_message t).
Proof.
  induction lines as [|l ls IH]; cbn [parse_rows]; [discriminate|].
  intros H. apply bind_Raise in H as [H|(row & _ & H)].
  - apply map_int_Raise_message in H as (t & Hin & Hn & ->).
    exists t. split; [|auto]. simpl. apply in_or_app. now left.
  - apply bind_Raise in H as [H|(rows & _ & H)]; [|discriminate].
    destruct (IH H) as (t & Hin & Hn & ->).
    exists t. split; [|auto]. simpl. apply in_or_app. now right.
Qed.

Lemma check_matrix_Raise_message edges e :
  Forall (fun row => List.length row = List.length edges) edges ->
  check_matrix edges = Raise e ->
  e = ValueError msg_symmetric \/ e = ValueError msg_diagonal
  \/ e = ValueError msg_off_diagonal.
Proof.
  intros Hsq H. unfold check_matrix in H.
  apply for_each_Raise in H as (i & Hi & H).
  apply for_each_Raise in H as (j & Hj & H).
  rewrite in_seq in Hi, Hj.
  rewrite (check_cell_square edges Hsq i j) in H by lia.
  destruct (negb (cell edges i j =? cell edges j i)%Z);
    [injection H as <-; auto|].
  destruct ((i =? j)%nat && negb (cell edges i j =? 0)%Z);
    [injection H as <-; auto|].
  destruct (negb (i =? j)%nat && (cell edges i j =? 0)%Z);
    [injection H as <-; auto|discriminate].
Qed.

(** X13: whatever [parse_input] raises is a [ValueError] whose text is
    [Invalid input: ] followed either by the message of [int] for a token of
    the input that [int] refuses, or by one of the five fixed messages:
    demand count, matrix size, symmetry, diagonal, off-diagonal. *)
Theorem parse_input_error_messages s1 s2 s3 s4 e :
  parse_input int int_message s1 s2 s3 s4 = Raise e ->
  exists msg,
    e = ValueError ("Invalid input: " ^^ msg)
    /\ ((exists t, In t (tokens_of (s1, s2, s3, s4)) /\ int t = None
                   /\ msg = int_message t)
        \/ In msg [msg_demands; msg_square; msg_symmetric; msg_diagonal;
                   msg_off_diagonal]).
Proof.
  unfold parse_input.
  destruct (parse_input_try int int_message s1 s2 s3 s4) as [p|e0|] eqn:Ht;
    try discriminate.
  assert (Hclass : exists msg, e0 = ValueError msg
            /\ ((exists t, In t (tokens_of (s1, s2, s3, s4)) /\ int t = None
                           /\ msg = int_message t)
                \/ In msg [msg_demands; msg_square; msg_symmetric; msg_diagonal;
                           msg_off_diagonal])).
  { unfold parse_input_try in Ht. cbn [tokens_of].
    apply bind_Raise in Ht as [H|(n & _ & Ht)].
    { apply py_int_Raise_message in H as [Hn ->]. eexists. split; [reflexivity|].
      left. exists s1. simpl. auto. }
    apply bind_Raise in Ht as [H|(cap & _ & Ht)].
    { apply py_int_Raise_message in H as [Hn ->]. eexists. split; [reflexivity|].
      left. exists s2. simpl. auto. }
    apply bind_Raise in Ht as [H|(ds & _ & Ht)].
    { apply map_int_Raise_message in H as (t & Hin & Hn & ->).
      eexists. split; [reflexivity|]. left. exists t.
      split; [|auto]. right. right. apply in_or_app. now left. }
    destruct (negb (Z.of_nat (List.length ds) =? n)%Z).
    { injection Ht as <-. eexists. split; [reflexivity|]. right. simpl. tauto. }
    apply bind_Raise in Ht as [H|(es & _ & Ht)].
    { apply parse_rows_Raise_message in H as (t & Hin & Hn & ->).
      eexists. split; [reflexivity|]. left. exists t.
      split; [|auto]. right. right. apply in_or_app. now right. }
    destruct (negb (Z.of_nat (List.length es) =? n + 1)%Z).
    { injection Ht as <-. eexists. split; [reflexivity|]. right. simpl. tauto. }
    destruct (check_rows_cases (List.length es) es) as [[Hr Hsq]|[Hr _]];
      rewrite Hr in Ht; cbn [bind] in Ht.
    - apply bind_Raise in Ht as [H|(u & _ & Ht)]; [|discriminate].
      destruct (check_matrix_Raise_message es e0 Hsq H) as [-> | [-> | ->]];
        eexists; (split; [reflexivity|]); right; simpl; tauto.
    - injection Ht as <-. eexists. split; [reflexivity|]. right. simpl. tauto. }
  destruct Hclass as (msg & -> & Hmsg).
  intros H. injection H as <-. exists msg. auto.
Qed.

End ParseInputMessages.

Lemma parse_input_error_messages_witness :
  exists msg,
    ValueError ("Invalid input: " ^^ msg_diagonal)
    = ValueError ("Invalid input: " ^^ msg)
    /\ ((exists t, In t (tokens_of ("1", "10", "3", "5,1;1,0")) /\ int_decimal t = None
                   /\ msg = int_decimal_message t)
        \/ In msg [msg_demands; msg_square; msg_symmetric; msg_diagonal;
                   msg_off_diagonal]).
Proof.
  apply (parse_input_error_messages int_decimal int_decimal_message
           "1" "10" "3" "5,1;1,0").
  reflexivity.
Defined.
